(** * UniviDown server: job orchestration (server.js)

    A shallow embedding of the admission queue, the progress store with its
    SSE broadcaster, the process supervisor callbacks and the download
    orchestrator of [server.js], followed by the properties proved about
    them.

    Conventions of the embedding.
    - The server runs on a single-threaded event loop.  Every callback
      (HTTP handler, child-process event, timer) is a function from the
      global state to the global state; promise continuations that the
      JavaScript runtime runs as micro-tasks right after a callback are
      part of the same transition.
    - The module-level [Map]s are [gmap]s keyed by the download identifier.
    - A progress record is a JavaScript object: a finite map from field
      names to values, so that the spread [{...old, ...data}] is a
      left-biased union.
    - Text that the code inspects character by character (worker output,
      URLs, file names) is a list of UTF-16 code units; identifiers and
      field names, which the code only compares and stores, are [string]s.
    - JavaScript numbers are IEEE doubles.  The model computes with exact
      rationals; the statements below only compare the results with the
      constants of the code. *)

From Stdlib Require Import QArith Qminmax Qround Lqa DecimalPos DecimalZ.
From stdpp Require Import base gmap strings list fin_maps sorting.
Close Scope Q_scope.

(** ** JavaScript strings as code-unit sequences *)

Module Js.

Definition str := list N.

(** A literal of the source, read as code units. *)
Definition lit (s : string) : str :=
  map Ascii.N_of_ascii (String.list_ascii_of_string s).

Definition eqb (a b : str) : bool := bool_decide (a = b).

(** [WhiteSpace] and [LineTerminator] of ECMAScript: the class [\s] of
    regular expressions and the characters removed by [trim]. *)
Definition is_ws (c : N) : bool :=
  ((9 <=? c) && (c <=? 13) || (c =? 32) || (c =? 160) || (c =? 5760)
   || (8192 <=? c) && (c <=? 8202) || (c =? 8232) || (c =? 8233)
   || (c =? 8239) || (c =? 8287) || (c =? 12288) || (c =? 65279))%N.

(** [\d] *)
Definition is_digit (c : N) : bool := ((48 <=? c) && (c <=? 57))%N.

Definition is_dot (c : N) : bool := (c =? 46)%N.

Fixpoint drop_while (p : N -> bool) (s : str) : str :=
  match s with
  | [] => []
  | c :: t => if p c then drop_while p t else s
  end.

Fixpoint take_while (p : N -> bool) (s : str) : str :=
  match s with
  | [] => []
  | c :: t => if p c then c :: take_while p t else []
  end.

(** Removes the longest suffix whose characters all satisfy [p]. *)
Fixpoint drop_while_end (p : N -> bool) (s : str) : str :=
  match s with
  | [] => []
  | c :: t =>
      match drop_while_end p t with
      | [] => if p c then [] else [c]
      | t' => c :: t'
      end
  end.

(** [s.trim()] *)
Definition trim (s : str) : str :=
  drop_while_end is_ws (drop_while is_ws s).

(** [s.startsWith(p)] *)
Fixpoint startsWith (p s : str) : bool :=
  match p, s with
  | [], _ => true
  | _ :: _, [] => false
  | a :: p', b :: s' => (a =? b)%N && startsWith p' s'
  end.

(** [s.endsWith(p)] *)
Definition endsWith (p s : str) : bool :=
  startsWith (reverse p) (reverse s).

(** [s.includes(p)] *)
Fixpoint includes (p s : str) : bool :=
  startsWith p s ||
  match s with
  | [] => false
  | _ :: t => includes p t
  end.

(** [s.split('\n')] *)
Fixpoint split_lines (s : str) : list str :=
  match s with
  | [] => [[]]
  | c :: t =>
      if (c =? 10)%N then [] :: split_lines t
      else match split_lines t with
           | [] => [[c]]
           | l :: ls => (c :: l) :: ls
           end
  end.

(** [s.toLowerCase()], on the ASCII letters; other code units are kept. *)
Definition lower_unit (c : N) : N :=
  if ((65 <=? c) && (c <=? 90))%N then (c + 32)%N else c.
Definition toLowerCase (s : str) : str := map lower_unit s.

(** Value of a run of decimal digits. *)
Definition digit_val (c : N) : Z := Z.of_N c - 48.
Definition digits_val (ds : str) : Z :=
  fold_left (fun acc c => 10 * acc + digit_val c)%Z ds 0%Z.

(** [path.join(dir, name)] for a plain file name. *)
Definition path_join (dir name : str) : str := dir ++ 47%N :: name.

End Js.

(** ** Configuration ([CONFIG]) *)

Module CONFIG.
Definition MAX_CONCURRENT_DOWNLOADS : Z := 2.
Definition DOWNLOAD_TIMEOUT_MS : Z := 30 * 60 * 1000.
Definition MAX_PLAYLIST_MERGE : nat := 50.
Definition MAX_FILENAME_LENGTH : nat := 150.
Definition PROGRESS_CLEANUP_MS : Z := 10 * 60 * 1000.
End CONFIG.

(** ** [sanitizeFilename] *)

Module Sanitize.
Import Js.

(** What the caller may pass: [req.body.customFilename] is any JSON value. *)
Inductive arg :=
| Missing                 (* undefined or null *)
| NonString (truthy : bool)   (* a number, boolean, array or object *)
| Str (s : str).

(** The class of the first replacement: the characters < > : / \ | ? *,
    the double quote (34) and the code units 0x00 to 0x1f. *)
Definition is_unsafe (c : N) : bool :=
  ((c =? 60) || (c =? 62) || (c =? 58) || (c =? 34) || (c =? 47)
   || (c =? 92) || (c =? 124) || (c =? 63) || (c =? 42) || (c <=? 31))%N.

(** First replacement: every character of that class becomes '_'. *)
Definition replace_unsafe (s : str) : str :=
  map (fun c => if is_unsafe c then 95%N else c) s.

(** [.replace(/[\r\n\t]/g, ' ')] *)
Definition replace_newlines (s : str) : str :=
  map (fun c => if ((c =? 13) || (c =? 10) || (c =? 9))%N then 32%N else c) s.

(** [.replace(/\.{2,}/g, '.')]: every maximal run of two or more dots
    becomes one dot (the last dot of the run is the one kept here). *)
Fixpoint collapse_dots (s : str) : str :=
  match s with
  | [] => []
  | c :: t =>
      if is_dot c then
        match t with
        | d :: _ => if is_dot d then collapse_dots t else c :: collapse_dots t
        | [] => [c]
        end
      else c :: collapse_dots t
  end.

(** [.replace(/^\.+|\.+$/g, '')]: without the [m] flag [^] and [$] are the
    two ends of the string, so the leading and the trailing run of dots
    are removed. *)
Definition strip_dots (s : str) : str :=
  drop_while_end is_dot (drop_while is_dot s).

(** [.replace(/\s+/g, ' ')]: every maximal run of white space becomes one
    space. *)
Fixpoint collapse_ws (s : str) : str :=
  match s with
  | [] => []
  | c :: t =>
      if is_ws c then
        match t with
        | d :: _ => if is_ws d then collapse_ws t else 32%N :: collapse_ws t
        | [] => [32%N]
        end
      else c :: collapse_ws t
  end.

Definition sanitizeFilename (filename : arg) : str :=
  match filename with
  | Str ((_ :: _) as s) =>
      take CONFIG.MAX_FILENAME_LENGTH
        (trim (collapse_ws (strip_dots (collapse_dots
          (replace_newlines (replace_unsafe s))))))
  | _ => lit "download"
  end.

(** The properties a caller expects of a sanitized name. *)
Definition begins_with_dot (s : str) : bool :=
  match s with c :: _ => is_dot c | [] => false end.
Definition ends_with_dot (s : str) : bool := begins_with_dot (reverse s).
Fixpoint has_dot_run (s : str) : bool :=
  match s with
  | c :: t =>
      match t with
      | d :: _ => is_dot c && is_dot d || has_dot_run t
      | [] => false
      end
  | [] => false
  end.
End Sanitize.

(** ** Data model *)

Inductive MediaType := video | audio.

(** The [options] object captured by the task closure of a queue entry. *)
Record Options := {
  url : Js.str;
  type : MediaType;
  format : Js.str;
  quality : Js.str;
  merge : bool;
  embedThumbnail : bool;
  normalizeAudio : bool;
  customFilename : option Js.str;
  downloadSubtitles : bool;
  highCompatibility : bool
}.

(** [Error] objects that reach the [catch] of [processDownload]. *)
Inductive Error :=
| ErrCancelled                      (* 'Download dibatalkan' *)
| ErrVideoFailed                    (* 'Download video gagal' *)
| ErrAudioFailed                    (* 'Download audio gagal' *)
| ErrPlaylistTooLarge (n : nat)     (* 'Playlist terlalu besar untuk merge (n video, max 50)' *)
| ErrNoAudioFiles                   (* 'Tidak ada file audio untuk digabungkan' *)
| ErrMergeFailed                    (* 'Gagal menggabungkan file audio' *)
| ErrWorker                         (* 'yt-dlp error: ...', 'FFmpeg error: ...' *)
| ErrFs.                            (* an exception of [fs] *)

(** The [message] field: a fixed text or one of the templates. *)
Inductive Message :=
| MsgText (s : string)
| MsgQueuePosition (n : nat)        (* `Menunggu antrian... (Posisi: ${n})` *)
| MsgVideoPercent (p : Q)           (* `Mengunduh video: ${p.toFixed(1)}%` *)
| MsgAudioPercent (p : Q)           (* `Mengunduh audio: ${p.toFixed(1)}%` *)
| MsgAudioItem (cur tot : Z) (p : Q)   (* `Mengunduh ${cur}/${tot}: ${p.toFixed(1)}%` *)
| MsgConverting (fmt : Js.str)      (* `Mengkonversi ke ${format.toUpperCase()}...` *)
| MsgError (e : Error).             (* err.message *)

(** An output-file descriptor; [url] and [extension] of the source are
    functions of [name] and are left out. *)
Module File.
Record t := { name : Js.str; size : Z; mtime : Q }.
End File.
Abbreviation FileDesc := File.t.

Inductive Value :=
| VStr (s : string)
| VText (t : Js.str)
| VMsg (m : Message)
| VNum (q : Q)
| VBool (b : bool)
| VType (t : MediaType)
| VFiles (fs : list FileDesc)
| VMerged (file : Js.str) (sz : Z).   (* [{ name, url, size }] of a merge *)

(** A JavaScript object literal. *)
Definition obj (fields : list (string * Value)) : gmap string Value :=
  list_to_map fields.

Record QueueEntry := { downloadId : string; task : Options; addedAt : Z }.

(** A [ChildProcess]; [killed] is set once a signal has been sent to it. *)
Record ChildProcess := { killed : bool }.

Record ProcessInfo := {
  process : ChildProcess;
  cancelled : bool;
  tempDir : option Js.str;          (* the session directory under temp/ *)
  startedAt : Z;
  ffmpegProcess : option ChildProcess
}.

(** Closure variables of the output handlers of one download. *)
Record Locals := {
  lastProgressUpdate : Z;
  totalVideos : Z;
  currentVideo : Z
}.

(** Where the promise of a started task is suspended. *)
Inductive Phase :=
| Counting (countOutput : Js.str)   (* awaiting the playlist pre-count *)
| Downloading (l : Locals)          (* yt-dlp runs, handlers registered *)
| Merging (outputName : Js.str).    (* awaiting ffmpeg *)

(** The pending promise of a started task with what its closures hold. *)
Record Job := { options : Options; startTime : Z; phase : Phase }.

Inductive Worker := Ytdlp | Ffmpeg.

(** What the server does to the outside, in order. *)
Inductive Effect :=
| LogEnqueued (id : string) (position : nat)   (* 'Download .. masuk antrian' *)
| LogProcessing (id : string) (active : Z)     (* 'Memproses download ..' *)
| SpawnDownload (id : string) (o : Options)     (* spawn(YTDLP_PATH, args) of a download *)
| SpawnCount (id : string) (args : list Js.str)
| SpawnFfmpeg (id : string) (args : list Js.str)
| Kill (id : string) (w : Worker)              (* kill('SIGTERM') *)
| Mkdir (dir : Js.str)
| CleanupDir (dir : Js.str)                    (* cleanupDir(dir): removed if it exists *)
| WriteConcat (file : Js.str) (files : list Js.str)
| CopyFile (src dest : Js.str)
| SseWrite (client : nat) (snapshot : gmap string Value)
| SseEnd (client : nat).

Inductive WriteResult := Written | Refused | Threw.

Record DirEntry := { de_name : Js.str; de_stat : option (Z * Q) }.

(** What a callback reads from the outside while it runs. *)
Record Env := {
  date_now : Z;                              (* Date.now() *)
  client_write : nat -> WriteResult;         (* client.write(message) *)
  downloads_dir : list DirEntry;             (* fs.readdirSync(downloadsDir) with fs.statSync *)
  session_dir : list Js.str;                 (* fs.readdirSync(inputDir) *)
  locale_sort : list Js.str -> list Js.str;  (* sort by localeCompare, numeric *)
  iso_stamp : Js.str;                        (* new Date().toISOString() ... slice(0, 19) *)
  merged_stat : option Z                     (* fs.statSync(mergedFile).size *)
}.

(** ** Global state *)

Record State := {
  activeDownloads : Z;
  downloadQueue : list QueueEntry;
  downloadProgress : gmap string (gmap string Value);
  sseClients : gmap string (list nat);
  activeProcesses : gmap string ProcessInfo;
  downloadTimeouts : gmap string bool;       (* true: the timer can still fire *)
  progressCleanupTimers : gmap string Z;     (* the time at which it fires *)
  jobs : gmap string Job;                    (* pending promises of started tasks *)
  issued : list string;                      (* identifiers returned by uuidv4() *)
  effects : list Effect
}.

Definition initial : State := {|
  activeDownloads := 0;
  downloadQueue := [];
  downloadProgress := ∅;
  sseClients := ∅;
  activeProcesses := ∅;
  downloadTimeouts := ∅;
  progressCleanupTimers := ∅;
  jobs := ∅;
  issued := [];
  effects := []
|}.

Definition set_activeDownloads (f : Z -> Z) (s : State) : State :=
  {| activeDownloads := f (activeDownloads s); downloadQueue := downloadQueue s;
     downloadProgress := downloadProgress s; sseClients := sseClients s;
     activeProcesses := activeProcesses s; downloadTimeouts := downloadTimeouts s;
     progressCleanupTimers := progressCleanupTimers s; jobs := jobs s;
     issued := issued s; effects := effects s |}.

Definition set_downloadQueue (f : list QueueEntry -> list QueueEntry) (s : State) : State :=
  {| activeDownloads := activeDownloads s; downloadQueue := f (downloadQueue s);
     downloadProgress := downloadProgress s; sseClients := sseClients s;
     activeProcesses := activeProcesses s; downloadTimeouts := downloadTimeouts s;
     progressCleanupTimers := progressCleanupTimers s; jobs := jobs s;
     issued := issued s; effects := effects s |}.

Definition set_downloadProgress
    (f : gmap string (gmap string Value) -> gmap string (gmap string Value))
    (s : State) : State :=
  {| activeDownloads := activeDownloads s; downloadQueue := downloadQueue s;
     downloadProgress := f (downloadProgress s); sseClients := sseClients s;
     activeProcesses := activeProcesses s; downloadTimeouts := downloadTimeouts s;
     progressCleanupTimers := progressCleanupTimers s; jobs := jobs s;
     issued := issued s; effects := effects s |}.

Definition set_sseClients
    (f : gmap string (list nat) -> gmap string (list nat)) (s : State) : State :=
  {| activeDownloads := activeDownloads s; downloadQueue := downloadQueue s;
     downloadProgress := downloadProgress s; sseClients := f (sseClients s);
     activeProcesses := activeProcesses s; downloadTimeouts := downloadTimeouts s;
     progressCleanupTimers := progressCleanupTimers s; jobs := jobs s;
     issued := issued s; effects := effects s |}.

Definition set_activeProcesses
    (f : gmap string ProcessInfo -> gmap string ProcessInfo) (s : State) : State :=
  {| activeDownloads := activeDownloads s; downloadQueue := downloadQueue s;
     downloadProgress := downloadProgress s; sseClients := sseClients s;
     activeProcesses := f (activeProcesses s); downloadTimeouts := downloadTimeouts s;
     progressCleanupTimers := progressCleanupTimers s; jobs := jobs s;
     issued := issued s; effects := effects s |}.

Definition set_downloadTimeouts
    (f : gmap string bool -> gmap string bool) (s : State) : State :=
  {| activeDownloads := activeDownloads s; downloadQueue := downloadQueue s;
     downloadProgress := downloadProgress s; sseClients := sseClients s;
     activeProcesses := activeProcesses s; downloadTimeouts := f (downloadTimeouts s);
     progressCleanupTimers := progressCleanupTimers s; jobs := jobs s;
     issued := issued s; effects := effects s |}.

Definition set_progressCleanupTimers
    (f : gmap string Z -> gmap string Z) (s : State) : State :=
  {| activeDownloads := activeDownloads s; downloadQueue := downloadQueue s;
     downloadProgress := downloadProgress s; sseClients := sseClients s;
     activeProcesses := activeProcesses s; downloadTimeouts := downloadTimeouts s;
     progressCleanupTimers := f (progressCleanupTimers s); jobs := jobs s;
     issued := issued s; effects := effects s |}.

Definition set_jobs (f : gmap string Job -> gmap string Job) (s : State) : State :=
  {| activeDownloads := activeDownloads s; downloadQueue := downloadQueue s;
     downloadProgress := downloadProgress s; sseClients := sseClients s;
     activeProcesses := activeProcesses s; downloadTimeouts := downloadTimeouts s;
     progressCleanupTimers := progressCleanupTimers s; jobs := f (jobs s);
     issued := issued s; effects := effects s |}.

Definition set_issued (f : list string -> list string) (s : State) : State :=
  {| activeDownloads := activeDownloads s; downloadQueue := downloadQueue s;
     downloadProgress := downloadProgress s; sseClients := sseClients s;
     activeProcesses := activeProcesses s; downloadTimeouts := downloadTimeouts s;
     progressCleanupTimers := progressCleanupTimers s; jobs := jobs s;
     issued := f (issued s); effects := effects s |}.

Definition emit (es : list Effect) (s : State) : State :=
  {| activeDownloads := activeDownloads s; downloadQueue := downloadQueue s;
     downloadProgress := downloadProgress s; sseClients := sseClients s;
     activeProcesses := activeProcesses s; downloadTimeouts := downloadTimeouts s;
     progressCleanupTimers := progressCleanupTimers s; jobs := jobs s;
     issued := issued s; effects := effects s ++ es |}.

(** ** Progress store and SSE broadcast *)

(** [['finished', 'error', 'cancelled'].includes(status)] *)
Definition is_final (status : option Value) : bool :=
  match status with
  | Some (VStr st) =>
      bool_decide (st = "finished") || bool_decide (st = "error")
      || bool_decide (st = "cancelled")
  | _ => false
  end.

Definition scheduleProgressCleanup (e : Env) (id : string) (s : State) : State :=
  set_progressCleanupTimers
    (insert id (date_now e + CONFIG.PROGRESS_CLEANUP_MS)%Z) s.

(** The record built by the spread expression of [updateProgress]. *)
Definition newProgress (e : Env) (id : string)
    (currentProgress data : gmap string Value) : gmap string Value :=
  <["timestamp" := VNum (inject_Z (date_now e))]>
    (<["downloadId" := VStr id]> (data ∪ currentProgress)).

Definition is_dead (e : Env) (client : nat) : bool :=
  match client_write e client with Written => false | _ => true end.

(** The broadcast loop over one subscriber set. *)
Definition broadcast (e : Env) (id : string) (snapshot : gmap string Value)
    (clients : list nat) (s : State) : State :=
  let deadClients := filter (fun c => is_dead e c = true) clients in
  let remaining := filter (fun c => is_dead e c = false) clients in
  let s1 := emit (map (fun c => SseWrite c snapshot) clients
                  ++ map SseEnd deadClients) s in
  match remaining with
  | [] => set_sseClients (delete id) s1
  | _ => set_sseClients (insert id remaining) s1
  end.

Definition updateProgress (e : Env) (id : string) (data : gmap string Value)
    (s : State) : State :=
  let currentProgress := default ∅ (downloadProgress s !! id) in
  let new := newProgress e id currentProgress data in
  let s1 := set_downloadProgress (insert id new) s in
  let s2 :=
    match sseClients s1 !! id with
    | Some (c :: cs) => broadcast e id new (c :: cs) s1
    | _ => s1
    end in
  if is_final (data !! "status") then scheduleProgressCleanup e id s2 else s2.

Definition cleanupSSEClient (id : string) (res : nat) (s : State) : State :=
  match sseClients s !! id with
  | Some clients =>
      match filter (fun c => c ≠ res) clients with
      | [] => set_sseClients (delete id) s
      | rest => set_sseClients (insert id rest) s
      end
  | None => s
  end.

(** GET /api/progress/:id, without the heartbeat timer. *)
Definition api_progress (id : string) (res : nat) (s : State) : State :=
  let s1 := emit [SseWrite res
                    (default (obj [("status", VStr "unknown");
                                   ("message", VMsg (MsgText "Download tidak ditemukan"))])
                             (downloadProgress s !! id))] s in
  let clients := default [] (sseClients s1 !! id) in
  if bool_decide (res ∈ clients) then set_sseClients (insert id clients) s1
  else set_sseClients (insert id (clients ++ [res])) s1.

(** The timer callback of [scheduleProgressCleanup]. *)
Definition progressCleanup (id : string) (s : State) : State :=
  set_progressCleanupTimers (delete id)
    (set_sseClients (delete id) (set_downloadProgress (delete id) s)).

(** ** Parsing the worker output *)

Module Output.
Import Js.

(** [parseFloat] of the captured group: digits, optionally a dot and
    more digits. *)
Definition parse_decimal (int_part frac_part : str) : Q :=
  (inject_Z (digits_val int_part)
   + Qmake (digits_val frac_part) (Z.to_pos (10 ^ Z.of_nat (length frac_part))))%Q.

(** The progress pattern anchored at the head of [s]: the text
    [[download]], white space ([\s+]), the captured group ([\d+], an
    optional dot, [\d*]) and a percent sign.  Each
    quantifier is followed by a character outside its class, so the
    greedy choice is the only one that can match. *)
Definition percent_here (s : str) : option Q :=
  if startsWith (lit "[download]") s then
    let r := drop 10 s in
    match take_while is_ws r with
    | [] => None
    | _ =>
        let r1 := drop_while is_ws r in
        match take_while is_digit r1 with
        | [] => None
        | int_part =>
            let r2 := drop_while is_digit r1 in
            let '(frac_part, r3) :=
              match r2 with
              | 46%N :: r' => (take_while is_digit r', drop_while is_digit r')
              | _ => ([], r2)
              end in
            match r3 with
            | 37%N :: _ => Some (parse_decimal int_part frac_part)
            | _ => None
            end
        end
    end
  else None.

(** [parseFloat(progressMatch[1])] for the progress pattern: the
    leftmost match. *)
Fixpoint match_percent (s : str) : option Q :=
  match percent_here s with
  | Some p => Some p
  | None => match s with [] => None | _ :: t => match_percent t end
  end.

(** [/\[download\] Downloading item (\d+) of (\d+)/] anchored at the head
    of [s], with [parseInt] of both groups. *)
Definition item_here (s : str) : option (Z * Z) :=
  if startsWith (lit "[download] Downloading item ") s then
    let r := drop 28 s in
    match take_while is_digit r with
    | [] => None
    | cur =>
        let r1 := drop_while is_digit r in
        if startsWith (lit " of ") r1 then
          match take_while is_digit (drop 4 r1) with
          | [] => None
          | tot => Some (digits_val cur, digits_val tot)
          end
        else None
    end
  else None.

Fixpoint match_item (s : str) : option (Z * Z) :=
  match item_here s with
  | Some r => Some r
  | None => match s with [] => None | _ :: t => match_item t end
  end.
End Output.

(** ** Admission queue (FIFO) *)

Definition queued_data (position : nat) : gmap string Value :=
  obj [("status", VStr "queued"); ("progress", VNum 0);
       ("message", VMsg (MsgQueuePosition position));
       ("queuePosition", VNum (inject_Z (Z.of_nat position)))].

(** [downloadQueue.forEach((item, index) => updateProgress(...))] from
    [index] on. *)
Fixpoint broadcast_from (e : Env) (index : nat) (items : list QueueEntry)
    (s : State) : State :=
  match items with
  | [] => s
  | item :: rest =>
      broadcast_from e (S index) rest
        (updateProgress e (downloadId item) (queued_data (index + 1)) s)
  end.

Definition broadcastQueuePositions (e : Env) (s : State) : State :=
  broadcast_from e 0 (downloadQueue s) s.

Definition removeFromQueue (e : Env) (id : string) (s : State) : bool * State :=
  match list_find (fun item => downloadId item = id) (downloadQueue s) with
  | Some (index, _) =>
      (true, broadcastQueuePositions e (set_downloadQueue (delete index) s))
  | None => (false, s)
  end.

(** ** Helper functions *)

Definition stat_entry (d : DirEntry) : option FileDesc :=
  match de_stat d with
  | Some (sz, mt) => Some {| File.name := de_name d; File.size := sz; File.mtime := mt |}
  | None => None
  end.

(** [.sort((a, b) => b.mtime - a.mtime)]: newest first; the sort of the
    runtime is stable. *)
Fixpoint insert_recent (x : FileDesc) (l : list FileDesc) : list FileDesc :=
  match l with
  | [] => [x]
  | y :: t =>
      if Qle_bool (File.mtime y) (File.mtime x) then x :: l else y :: insert_recent x t
  end.

Definition sort_recent (l : list FileDesc) : list FileDesc :=
  foldr insert_recent [] l.

Definition getRecentFiles (dir : list DirEntry) (extension : Js.str)
    (limit : nat) : list FileDesc :=
  take limit
    (sort_recent
       (omap stat_entry
          (filter (fun d => Js.endsWith (Js.toLowerCase extension)
                              (Js.toLowerCase (de_name d)) = true) dir))).

Definition downloadsDir : Js.str := Js.lit "downloads".
Definition tempDir_root : Js.str := Js.lit "temp".

(** [path.join(tempDir, sessionId)]; the session identifier is a fresh
    uuid per download, named here after the download. *)
Definition sessionTempDir (id : string) : Js.str :=
  Js.path_join tempDir_root (Js.lit id).

(** ** Orchestrator: the callbacks of one download *)

Definition is_cancelled (info : option ProcessInfo) : bool :=
  match info with Some i => cancelled i | None => false end.

Definition locals0 : Locals :=
  {| lastProgressUpdate := 0; totalVideos := 0; currentVideo := 0 |}.

Definition set_phase (p : Phase) (j : Job) : Job :=
  {| options := options j; startTime := startTime j; phase := p |}.

Definition new_process (dir : option Js.str) (e : Env) : ProcessInfo :=
  {| process := {| killed := false |}; cancelled := false; tempDir := dir;
     startedAt := date_now e; ffmpegProcess := None |}.

(** [format || 'mp4'] *)
Definition format_or_mp4 (fmt : Js.str) : Js.str :=
  match fmt with [] => Js.lit "mp4" | _ => fmt end.

Definition dot_ext (fmt : Js.str) : Js.str := 46%N :: fmt.

(** The synchronous part of [downloadVideo]. *)
Definition downloadVideo (e : Env) (id : string) (o : Options) (s : State) : State :=
  let s1 := updateProgress e id
    (obj [("status", VStr "downloading_video"); ("progress", VNum 0);
          ("message", VMsg (MsgText (if highCompatibility o
                                     then "Mengunduh video (High Compatibility)..."
                                     else "Mengunduh video...")))]) s in
  let s2 := emit [SpawnDownload id o] s1 in
  let s3 := set_activeProcesses (insert id (new_process None e)) s2 in
  set_jobs (insert id {| options := o; startTime := date_now e;
                         phase := Downloading locals0 |}) s3.

(** [ytdlp.stdout.on('data', ...)] of [downloadVideo]. *)
Definition video_onData (e : Env) (id : string) (output : Js.str)
    (l : Locals) (s : State) : State * Locals :=
  if is_cancelled (activeProcesses s !! id) then (s, l)
  else
    let '(s1, l1) :=
      if (date_now e - lastProgressUpdate l >? 500)%Z then
        match Output.match_percent output with
        | Some percent =>
            (updateProgress e id
               (obj [("status", VStr "downloading_video");
                     ("progress", VNum (Qmin (percent * (85 # 100)) 85));
                     ("message", VMsg (MsgVideoPercent percent))]) s,
             {| lastProgressUpdate := date_now e; totalVideos := totalVideos l;
                currentVideo := currentVideo l |})
        | None => (s, l)
        end
      else (s, l) in
    let s2 :=
      if Js.includes (Js.lit "[Merger]") output
         || Js.includes (Js.lit "Merging formats") output
      then updateProgress e id
             (obj [("status", VStr "postprocessing"); ("progress", VNum 88);
                   ("message", VMsg (MsgText "Menggabungkan video dan audio..."))]) s1
      else s1 in
    let s3 :=
      if Js.includes (Js.lit "[EmbedThumbnail]") output
      then updateProgress e id
             (obj [("status", VStr "embedding_metadata"); ("progress", VNum 92);
                   ("message", VMsg (MsgText "Menyematkan thumbnail..."))]) s2
      else s2 in
    let s4 :=
      if Js.includes (Js.lit "[Metadata]") output
         || Js.includes (Js.lit "Adding metadata") output
      then updateProgress e id
             (obj [("status", VStr "embedding_metadata"); ("progress", VNum 95);
                   ("message", VMsg (MsgText "Menambahkan metadata..."))]) s3
      else s3 in
    let s5 :=
      if Js.includes (Js.lit "[SubtitlesConvertor]") output
      then updateProgress e id
             (obj [("status", VStr "postprocessing"); ("progress", VNum 93);
                   ("message", VMsg (MsgText "Mengkonversi subtitle..."))]) s4
      else s4 in
    (s5, l1).

(** The progress value of a download line of [downloadAudio]. *)
Definition audio_percent (l : Locals) (percent : Q) : Q :=
  let p :=
    if (totalVideos l >? 1)%Z then
      let baseProgress :=
        (inject_Z (currentVideo l - 1) / inject_Z (totalVideos l) * 100)%Q in
      let videoProgress := (percent / 100 * (100 / inject_Z (totalVideos l)))%Q in
      (baseProgress + videoProgress)%Q
    else percent in
  Qmin (p * (80 # 100)) 80.

(** [ytdlp.stdout.on('data', ...)] of [downloadAudio]. *)
Definition audio_onData (e : Env) (id : string) (fmt : Js.str) (output : Js.str)
    (l : Locals) (s : State) : State * Locals :=
  if is_cancelled (activeProcesses s !! id) then (s, l)
  else
    let l0 :=
      match Output.match_item output with
      | Some (cur, tot) =>
          {| lastProgressUpdate := lastProgressUpdate l; totalVideos := tot;
             currentVideo := cur |}
      | None => l
      end in
    let '(s1, l1) :=
      if (date_now e - lastProgressUpdate l0 >? 500)%Z then
        match Output.match_percent output with
        | Some percent =>
            (updateProgress e id
               (obj [("status", VStr "downloading_audio");
                     ("progress", VNum (audio_percent l0 percent));
                     ("message",
                      VMsg (if (totalVideos l0 >? 1)%Z
                            then MsgAudioItem (currentVideo l0) (totalVideos l0) percent
                            else MsgAudioPercent percent))]) s,
             {| lastProgressUpdate := date_now e; totalVideos := totalVideos l0;
                currentVideo := currentVideo l0 |})
        | None => (s, l0)
        end
      else (s, l0) in
    let s2 :=
      if Js.includes (Js.lit "[ExtractAudio]") output
      then updateProgress e id
             (obj [("status", VStr "converting_audio"); ("progress", VNum 85);
                   ("message", VMsg (MsgConverting fmt))]) s1
      else s1 in
    let s3 :=
      if Js.includes (Js.lit "[EmbedThumbnail]") output
      then updateProgress e id
             (obj [("status", VStr "embedding_metadata"); ("progress", VNum 90);
                   ("message", VMsg (MsgText "Menyematkan cover art..."))]) s2
      else s2 in
    let s4 :=
      if Js.includes (Js.lit "[Metadata]") output
      then updateProgress e id
             (obj [("status", VStr "embedding_metadata"); ("progress", VNum 93);
                   ("message", VMsg (MsgText "Menambahkan metadata..."))]) s3
      else s3 in
    (s4, l1).

(** The part of [downloadAudio] after the playlist check: scratch
    directory, first progress record, worker. *)
Definition audio_begin (e : Env) (id : string) (o : Options) (s : State) : State :=
  let s0 := if merge o then emit [Mkdir (sessionTempDir id)] s else s in
  let s1 := updateProgress e id
    (obj [("status", VStr "downloading_audio"); ("progress", VNum 0);
          ("message", VMsg (MsgText "Mengunduh audio..."))]) s0 in
  let s2 := emit [SpawnDownload id o] s1 in
  let s3 := set_activeProcesses
    (insert id (new_process (if merge o then Some (sessionTempDir id) else None) e)) s2 in
  set_jobs (insert id {| options := o; startTime := date_now e;
                         phase := Downloading locals0 |}) s3.

Definition countArgs (o : Options) : list Js.str :=
  [Js.lit "--flat-playlist"; Js.lit "--dump-json"; Js.lit "--no-warnings"; url o].

(** The synchronous part of [downloadAudio]. *)
Definition downloadAudio (e : Env) (id : string) (o : Options) (s : State) : State :=
  if merge o && Js.includes (Js.lit "playlist?list=") (url o) then
    set_jobs (insert id {| options := o; startTime := date_now e;
                           phase := Counting [] |})
      (emit [SpawnCount id (countArgs o)] s)
  else audio_begin e id o s.

(** The synchronous part of [processDownload]: the task of a queue entry. *)
Definition processDownload (e : Env) (id : string) (o : Options) (s : State) : State :=
  let s1 := set_downloadTimeouts (insert id true) s in
  let s2 := updateProgress e id
    (obj [("status", VStr "starting"); ("progress", VNum 0);
          ("message", VMsg (MsgText "Memulai download..."));
          ("canCancel", VBool true)]) s1 in
  match type o with
  | video => downloadVideo e id o s2
  | audio => downloadAudio e id o s2
  end.

(** The loop of [processQueue] over the entries [items] of the queue. *)
Fixpoint processQueue_loop (e : Env) (items : list QueueEntry) (s : State) : State :=
  match items with
  | [] => s
  | item :: rest =>
      if (activeDownloads s <? CONFIG.MAX_CONCURRENT_DOWNLOADS)%Z then
        let s1 := set_downloadQueue (drop 1) s in
        let s2 := set_activeDownloads (fun n => n + 1)%Z s1 in
        let s3 := broadcastQueuePositions e s2 in
        let s4 := emit [LogProcessing (downloadId item) (activeDownloads s3)] s3 in
        processQueue_loop e rest (processDownload e (downloadId item) (task item) s4)
      else s
  end.

Definition processQueue (e : Env) (s : State) : State :=
  processQueue_loop e (downloadQueue s) s.

Definition enqueueDownload (e : Env) (id : string) (t : Options) (s : State) : State :=
  let s1 := set_downloadQueue
    (fun q => q ++ [{| downloadId := id; task := t; addedAt := date_now e |}]) s in
  let queuePosition := length (downloadQueue s1) in
  let s2 := updateProgress e id
    (obj [("status", VStr "queued"); ("progress", VNum 0);
          ("message", VMsg (MsgQueuePosition queuePosition));
          ("queuePosition", VNum (inject_Z (Z.of_nat queuePosition)));
          ("canCancel", VBool true)]) s1 in
  processQueue e (emit [LogEnqueued id queuePosition] s2).

Definition error_data (err : Error) : gmap string Value :=
  obj [("status", VStr "error"); ("progress", VNum 0);
       ("message", VMsg (MsgError err)); ("canCancel", VBool false)].

(** What runs once the promise of [downloadVideo] or [downloadAudio] is
    settled: the [catch] and [finally] of [processDownload], then the
    [finally] that [processQueue] attached to the task. *)
Definition settle (e : Env) (id : string) (outcome : option Error) (s : State) : State :=
  let s1 :=
    match outcome with
    | Some err =>
        if negb (is_cancelled (activeProcesses s !! id))
        then updateProgress e id (error_data err) s
        else s
    | None => s
    end in
  let s2 := set_downloadTimeouts (delete id) s1 in
  let s3 := set_activeDownloads (fun n => n - 1)%Z s2 in
  let s4 := set_activeProcesses (delete id) s3 in
  let s5 := set_downloadTimeouts (delete id) s4 in
  processQueue e (set_jobs (delete id) s5).

(** ** Merge step *)

Definition codec_args (fmt : Js.str) : list Js.str :=
  if Js.eqb fmt (Js.lit "mp3") then
    [Js.lit "-c:a"; Js.lit "libmp3lame"; Js.lit "-b:a"; Js.lit "320k"]
  else if Js.eqb fmt (Js.lit "flac") then [Js.lit "-c:a"; Js.lit "flac"]
  else if Js.eqb fmt (Js.lit "wav") then [Js.lit "-c:a"; Js.lit "pcm_s16le"]
  else if Js.eqb fmt (Js.lit "opus") then
    [Js.lit "-c:a"; Js.lit "libopus"; Js.lit "-b:a"; Js.lit "192k"]
  else [Js.lit "-c:a"; Js.lit "copy"].

Definition loudnorm : Js.str := Js.lit "loudnorm=I=-16:LRA=11:TP=-1.5".

(** [if (normalizeAudio && format !== 'flac') args.push('-af', ...)] *)
Definition filter_args (fmt : Js.str) (normalize : bool) : list Js.str :=
  if normalize && negb (Js.eqb fmt (Js.lit "flac"))
  then [Js.lit "-af"; loudnorm] else [].

(** The argument vector of the ffmpeg invocation of [mergeAudioFiles]. *)
Definition merge_args (fmt : Js.str) (normalize : bool)
    (concatFile outputFile : Js.str) : list Js.str :=
  [Js.lit "-f"; Js.lit "concat"; Js.lit "-safe"; Js.lit "0"; Js.lit "-i"; concatFile]
  ++ codec_args fmt ++ filter_args fmt normalize ++ [Js.lit "-y"; outputFile].

Definition merge_outputName (e : Env) (o : Options) : Js.str :=
  match customFilename o with
  | Some ((_ :: _) as custom) => custom ++ Js.lit "_merged." ++ format o
  | _ => Js.lit "merged_playlist_" ++ iso_stamp e ++ 46%N :: format o
  end.

Inductive MergeStep :=
| MergeRejected (err : Error)
| MergeCopied (file : Js.str)       (* one item: copied, promise resolved *)
| MergeSpawned (file : Js.str).     (* ffmpeg started, promise pending *)

(** The synchronous part of [mergeAudioFiles]; the result names the merged
    file inside the output directory. *)
Definition mergeAudioFiles (e : Env) (id : string) (inputDir outputDir : Js.str)
    (o : Options) (s : State) : State * MergeStep :=
  let names :=
    locale_sort e
      (filter (fun f => Js.endsWith (dot_ext (format o)) f = true) (session_dir e)) in
  match names with
  | [] => (s, MergeRejected ErrNoAudioFiles)
  | [f] =>
      (emit [CopyFile (Js.path_join inputDir f) (Js.path_join outputDir f)] s,
       MergeCopied f)
  | _ =>
      let concatFile := Js.path_join inputDir (Js.lit "concat.txt") in
      let outputName := merge_outputName e o in
      let s1 :=
        emit [WriteConcat concatFile (map (Js.path_join inputDir) names);
              SpawnFfmpeg id
                (merge_args (format o) (normalizeAudio o) concatFile
                   (Js.path_join outputDir outputName))] s in
      (set_activeProcesses
         (alter (fun i => {| process := process i; cancelled := cancelled i;
                            tempDir := tempDir i; startedAt := startedAt i;
                            ffmpegProcess := Some {| killed := false |} |}) id) s1,
       MergeSpawned outputName)
  end.

Definition finalizing_data : gmap string Value :=
  obj [("status", VStr "finalizing"); ("progress", VNum 98);
       ("message", VMsg (MsgText "Memfinalisasi file..."))].

(** What follows [await mergeAudioFiles(...)] in the close handler of
    [downloadAudio]. *)
Definition finish_merge (e : Env) (id : string) (mergedName : Js.str)
    (s : State) : State :=
  let s1 := emit [CleanupDir (sessionTempDir id)] s in
  let s2 := updateProgress e id finalizing_data s1 in
  match merged_stat e with
  | Some sz =>
      settle e id None
        (updateProgress e id
           (obj [("status", VStr "finished"); ("progress", VNum 100);
                 ("message", VMsg (MsgText "Download dan merge selesai!"));
                 ("files", VMerged mergedName sz); ("canCancel", VBool false)]) s2)
  | None => settle e id (Some ErrFs) (emit [CleanupDir (sessionTempDir id)] s2)
  end.

(** ** Exit of the workers *)

Definition finished_data (files : list FileDesc) : gmap string Value :=
  obj [("status", VStr "finished"); ("progress", VNum 100);
       ("message", VMsg (MsgText "Download selesai!"));
       ("files", VFiles files); ("canCancel", VBool false)].

(** [ytdlp.on('close', ...)] of [downloadVideo] with what the settled
    promise triggers.  [code] is [None] when a signal ended the worker. *)
Definition video_onClose (e : Env) (id : string) (code : option Z)
    (o : Options) (s : State) : State :=
  if is_cancelled (activeProcesses s !! id) then settle e id (Some ErrCancelled) s
  else if bool_decide (code = Some 0%Z) then
    let s1 := updateProgress e id finalizing_data s in
    let files := getRecentFiles (downloads_dir e) (dot_ext (format_or_mp4 (format o))) 5 in
    settle e id None (updateProgress e id (finished_data files) s1)
  else settle e id (Some ErrVideoFailed) s.

(** [ytdlp.on('close', ...)] of [downloadAudio]. *)
Definition audio_onClose (e : Env) (id : string) (code : option Z)
    (j : Job) (s : State) : State :=
  let o := options j in
  if is_cancelled (activeProcesses s !! id) then
    settle e id (Some ErrCancelled) (emit [CleanupDir (sessionTempDir id)] s)
  else if negb (bool_decide (code = Some 0%Z)) then
    settle e id (Some ErrAudioFailed) (emit [CleanupDir (sessionTempDir id)] s)
  else if merge o then
    let s1 := updateProgress e id
      (obj [("status", VStr "merging_playlist"); ("progress", VNum 95);
            ("message", VMsg (MsgText "Menggabungkan file audio playlist..."))]) s in
    match mergeAudioFiles e id (sessionTempDir id) downloadsDir o s1 with
    | (s2, MergeRejected err) =>
        settle e id (Some err) (emit [CleanupDir (sessionTempDir id)] s2)
    | (s2, MergeCopied f) => finish_merge e id f s2
    | (s2, MergeSpawned f) => set_jobs (insert id (set_phase (Merging f) j)) s2
    end
  else
    let s1 := updateProgress e id finalizing_data s in
    let files := getRecentFiles (downloads_dir e) (dot_ext (format o)) 10 in
    settle e id None (updateProgress e id (finished_data files) s1).

(** [ffmpeg.on('close', ...)] of [mergeAudioFiles]. *)
Definition ffmpeg_onClose (e : Env) (id : string) (code : option Z)
    (mergedName : Js.str) (s : State) : State :=
  if bool_decide (code = Some 0%Z) then finish_merge e id mergedName s
  else settle e id (Some ErrMergeFailed) (emit [CleanupDir (sessionTempDir id)] s).

(** The ['error'] events of the two workers. *)
Definition worker_onError (e : Env) (id : string) (j : Job) (s : State) : State :=
  match type (options j) with
  | video => settle e id (Some ErrWorker) s
  | audio => settle e id (Some ErrWorker) (emit [CleanupDir (sessionTempDir id)] s)
  end.

(** ** Playlist pre-count of [downloadAudio] *)

Definition count_lines (countOutput : Js.str) : list Js.str :=
  filter (fun l => l ≠ []) (Js.split_lines (Js.trim countOutput)).

(** [countProcess.on('close', ...)] and the code after the [await]. *)
Definition count_onClose (e : Env) (id : string) (code : option Z)
    (countOutput : Js.str) (o : Options) (s : State) : State :=
  if bool_decide (code = Some 0%Z) then
    let lines := count_lines countOutput in
    if (CONFIG.MAX_PLAYLIST_MERGE <? length lines)%nat then
      settle e id (Some (ErrPlaylistTooLarge (length lines)))
        (emit [CleanupDir (sessionTempDir id)] s)
    else audio_begin e id o s
  else audio_begin e id o s.

(** ** HTTP handlers *)

(** POST /api/download after validation of the body. *)
Definition sanitizedCustomName (customFilename : Sanitize.arg) : option Js.str :=
  match customFilename with
  | Sanitize.Missing | Sanitize.NonString false | Sanitize.Str [] => None
  | _ => Some (Sanitize.sanitizeFilename customFilename)
  end.

Definition with_customFilename (n : option Js.str) (o : Options) : Options :=
  {| url := url o; type := type o; format := format o; quality := quality o;
     merge := merge o; embedThumbnail := embedThumbnail o;
     normalizeAudio := normalizeAudio o; customFilename := n;
     downloadSubtitles := downloadSubtitles o;
     highCompatibility := highCompatibility o |}.

Definition api_download (e : Env) (id : string) (o : Options)
    (custom : Sanitize.arg) (s : State) : State :=
  let s0 := set_issued (fun l => l ++ [id]) s in
  let s1 := updateProgress e id
    (obj [("status", VStr "queued"); ("progress", VNum 0);
          ("message", VMsg (MsgText "Menunggu antrian..."));
          ("type", VType (type o)); ("format", VText (format o));
          ("files", VFiles []); ("canCancel", VBool true);
          ("startedAt", VNum (inject_Z (date_now e)))]) s0 in
  enqueueDownload e id (with_customFilename (sanitizedCustomName custom) o) s1.

Definition cancelled_data (text : string) : gmap string Value :=
  obj [("status", VStr "cancelled"); ("progress", VNum 0);
       ("message", VMsg (MsgText text)); ("canCancel", VBool false)].

Definition kill_effects (id : string) (info : ProcessInfo) : list Effect :=
  (if killed (process info) then [] else [Kill id Ytdlp])
  ++ match ffmpegProcess info with
     | Some f => if killed f then [] else [Kill id Ffmpeg]
     | None => []
     end.

(** The record after [cancelled = true] and the two [kill('SIGTERM')]. *)
Definition cancel_info (info : ProcessInfo) : ProcessInfo :=
  {| process := {| killed := true |}; cancelled := true; tempDir := tempDir info;
     startedAt := startedAt info;
     ffmpegProcess := match ffmpegProcess info with
                      | Some _ => Some {| killed := true |}
                      | None => None
                      end |}.

Definition cleanup_effects (info : ProcessInfo) : list Effect :=
  match tempDir info with Some d => [CleanupDir d] | None => [] end.

(** POST /api/cancel/:id; the result tells whether the download was found. *)
Definition api_cancel (e : Env) (id : string) (s : State) : State * bool :=
  match removeFromQueue e id s with
  | (true, s1) =>
      (updateProgress e id (cancelled_data "Download dibatalkan dari antrian") s1, true)
  | (false, _) =>
      match activeProcesses s !! id with
      | Some info =>
          let s1 := set_activeProcesses (insert id (cancel_info info)) s in
          let s2 := emit (kill_effects id info ++ cleanup_effects info) s1 in
          let s3 := set_downloadTimeouts (delete id) s2 in
          (updateProgress e id (cancelled_data "Download dibatalkan") s3, true)
      | None => (s, false)
      end
  end.

(** The callback of the 30 minute timer armed by [processDownload]. *)
Definition download_timeout (e : Env) (id : string) (s : State) : State :=
  let s0 := set_downloadTimeouts (insert id false) s in
  match activeProcesses s0 !! id with
  | Some info =>
      if cancelled info then s0
      else
        let s1 := set_activeProcesses (insert id (cancel_info info)) s0 in
        let s2 := emit (kill_effects id info ++ cleanup_effects info) s1 in
        updateProgress e id
          (obj [("status", VStr "error"); ("progress", VNum 0);
                ("message", VMsg (MsgText "Download timeout (melebihi 30 menit)"));
                ("canCancel", VBool false)]) s2
  | None => s0
  end.

(** ** The event loop *)

Inductive Event :=
| Submit (id : string) (o : Options) (custom : Sanitize.arg)
| CancelRequest (id : string)
| Subscribe (id : string) (res : nat)
| Disconnect (id : string) (res : nat)
| CountData (id : string) (chunk : Js.str)
| CountClose (id : string) (code : option Z)
| CountError (id : string)
| Stdout (id : string) (output : Js.str)
| Close (id : string) (code : option Z)
| WorkerError (id : string)
| FfmpegClose (id : string) (code : option Z)
| FfmpegError (id : string)
| Timeout (id : string)
| ProgressCleanup (id : string).

Definition on_stdout (e : Env) (id : string) (output : Js.str) (j : Job)
    (l : Locals) (s : State) : State :=
  let '(s', l') :=
    match type (options j) with
    | video => video_onData e id output l s
    | audio => audio_onData e id (format (options j)) output l s
    end in
  set_jobs (insert id (set_phase (Downloading l') j)) s'.

(** One callback of the event loop; [None] when the runtime cannot deliver
    the event in this state (no such pending promise, timer or fresh
    identifier). *)
Definition step (e : Env) (ev : Event) (s : State) : option State :=
  match ev with
  | Submit id o custom =>
      if bool_decide (id ∈ issued s) then None
      else Some (api_download e id o custom s)
  | CancelRequest id => Some (api_cancel e id s).1
  | Subscribe id res => Some (api_progress id res s)
  | Disconnect id res => Some (cleanupSSEClient id res s)
  | Timeout id =>
      match downloadTimeouts s !! id with
      | Some true => Some (download_timeout e id s)
      | _ => None
      end
  | ProgressCleanup id =>
      match progressCleanupTimers s !! id with
      | Some _ => Some (progressCleanup id s)
      | None => None
      end
  | CountData id chunk =>
      match jobs s !! id with
      | Some j =>
          match phase j with
          | Counting out =>
              Some (set_jobs (insert id (set_phase (Counting (out ++ chunk)) j)) s)
          | _ => None
          end
      | None => None
      end
  | CountClose id code =>
      match jobs s !! id with
      | Some j =>
          match phase j with
          | Counting out => Some (count_onClose e id code out (options j) s)
          | _ => None
          end
      | None => None
      end
  | CountError id =>
      match jobs s !! id with
      | Some j =>
          match phase j with
          | Counting _ => Some (audio_begin e id (options j) s)
          | _ => None
          end
      | None => None
      end
  | Stdout id output =>
      match jobs s !! id with
      | Some j =>
          match phase j with
          | Downloading l => Some (on_stdout e id output j l s)
          | _ => None
          end
      | None => None
      end
  | Close id code =>
      match jobs s !! id with
      | Some j =>
          match phase j with
          | Downloading _ =>
              Some (match type (options j) with
                    | video => video_onClose e id code (options j) s
                    | audio => audio_onClose e id code j s
                    end)
          | _ => None
          end
      | None => None
      end
  | WorkerError id =>
      match jobs s !! id with
      | Some j =>
          match phase j with
          | Downloading _ => Some (worker_onError e id j s)
          | _ => None
          end
      | None => None
      end
  | FfmpegClose id code =>
      match jobs s !! id with
      | Some j =>
          match phase j with
          | Merging f => Some (ffmpeg_onClose e id code f s)
          | _ => None
          end
      | None => None
      end
  | FfmpegError id =>
      match jobs s !! id with
      | Some j =>
          match phase j with
          | Merging _ =>
              Some (settle e id (Some ErrWorker)
                      (emit [CleanupDir (sessionTempDir id)] s))
          | _ => None
          end
      | None => None
      end
  end.

(** A run of the event loop: each event with what the callback reads from
    the outside. *)
Fixpoint run (evs : list (Env * Event)) (s : State) : option State :=
  match evs with
  | [] => Some s
  | (e, ev) :: rest =>
      match step e ev s with
      | Some s' => run rest s'
      | None => None
      end
  end.

(** Observations on a state. *)

Definition queue_ids (s : State) : list string := downloadId <$> downloadQueue s.

(** The downloads whose task was invoked, in the order of the
    'Memproses download' log lines. *)
Fixpoint started_ids (es : list Effect) : list string :=
  match es with
  | [] => []
  | LogProcessing id _ :: t => id :: started_ids t
  | _ :: t => started_ids t
  end.

Definition field (s : State) (id : string) (f : string) : option Value :=
  downloadProgress s !! id ≫= (.!! f).

Definition progress_of (s : State) (id : string) : option Q :=
  match field s id "progress" with Some (VNum q) => Some q | _ => None end.

Definition status_of (s : State) (id : string) : option string :=
  match field s id "status" with Some (VStr st) => Some st | _ => None end.

(** ** Statements under test *)

(** [audioFormats] of POST /api/download. *)
Definition audioFormats : list Js.str :=
  [Js.lit "mp3"; Js.lit "m4a"; Js.lit "wav"; Js.lit "flac"; Js.lit "opus"].

(** The specification's word, not the code's: among the accepted audio
    formats the lossless ones are FLAC and WAV (for which [codec_args]
    selects PCM); MP3, M4A and Opus are lossy. *)
Definition spec_lossless (fmt : Js.str) : bool :=
  Js.eqb fmt (Js.lit "flac") || Js.eqb fmt (Js.lit "wav").

(** The merge step applies the filter, when normalization is requested,
    exactly to the formats that are not lossless. *)
Definition filter_unless_lossless : Prop :=
  ∀ fmt id outputName,
    fmt ∈ audioFormats →
    (loudnorm ∈ merge_args fmt true
                  (Js.path_join (sessionTempDir id) (Js.lit "concat.txt"))
                  (Js.path_join downloadsDir outputName)
     ↔ spec_lossless fmt = false).

(** Order of submission and order of admission of two downloads. *)
Definition submitted_before (s : State) (a b : string) : Prop :=
  ∃ i j, issued s !! i = Some a ∧ issued s !! j = Some b ∧ i < j.

Definition started_before (s : State) (a b : string) : Prop :=
  ∃ i j, started_ids (effects s) !! i = Some a
         ∧ started_ids (effects s) !! j = Some b ∧ i < j.

(** Number of free execution slots. *)
Definition free_slots (s : State) : nat :=
  Z.to_nat (CONFIG.MAX_CONCURRENT_DOWNLOADS - activeDownloads s).

(** The admission line: the downloads already started, then those waiting. *)
Definition line (s : State) : list string :=
  started_ids (effects s) ++ queue_ids s.

(** ** Sample runs *)

Module Sample.
Definition env_at (t : Z) : Env :=
  {| date_now := t; client_write := fun _ => Written; downloads_dir := [];
     session_dir := []; locale_sort := fun l => l; iso_stamp := [];
     merged_stat := None |}.

Definition video_job : Options :=
  {| url := Js.lit "https://example.org/v"; type := video;
     format := Js.lit "mp4"; quality := Js.lit "best"; merge := false;
     embedThumbnail := true; normalizeAudio := false; customFilename := None;
     downloadSubtitles := false; highCompatibility := false |}.

(** Three submissions with two slots. *)
Definition three_submissions : list (Env * Event) :=
  [(env_at 1, Submit "job1" video_job Sanitize.Missing);
   (env_at 2, Submit "job2" video_job Sanitize.Missing);
   (env_at 3, Submit "job3" video_job Sanitize.Missing)].

(** What a test would read off a state. *)
Definition observe (o : option State) (id : string) :=
  match o with
  | Some s =>
      Some (activeDownloads s, started_ids (effects s), queue_ids s,
            status_of s id, progress_of s id, field s id "queuePosition")
  | None => None
  end.
End Sample.

(** [updated e id s s']: [s'] is [s] after some calls
    [updateProgress(id, ...)] made while the clock reads [date_now e]. *)
Inductive updated (e : Env) (id : string) : State → State → Prop :=
| updated_refl s : updated e id s s
| updated_step s s' data :
    updated e id s s' → updated e id s (updateProgress e id data s').

(** What the server holds about one download. *)
Definition view (s : State) (id : string) :=
  (downloadProgress s !! id, jobs s !! id, activeProcesses s !! id,
   downloadTimeouts s !! id).

(** The effects by which the download proper of [id] begins: its scratch
    directory is created or its download worker is spawned. *)
Definition is_download_effect (id : string) (ef : Effect) : bool :=
  match ef with
  | Mkdir d => bool_decide (d = sessionTempDir id)
  | SpawnDownload i _ => bool_decide (i = id)
  | _ => false
  end.

(** [s'] extends the effects of [s] without beginning the download of [id]. *)
Definition quiet (id : string) (s s' : State) : Prop :=
  ∃ es, effects s' = effects s ++ es
        ∧ Forall (fun ef => is_download_effect id ef = false) es.

(** A callback that runs for other downloads leaves [id] alone. *)
Definition untouched (id : string) (s s' : State) : Prop :=
  view s' id = view s id ∧ quiet id s s'.

(** The download an event is about. *)
Definition target (ev : Event) : string :=
  match ev with
  | Submit id _ _ | CancelRequest id | Subscribe id _ | Disconnect id _
  | CountData id _ | CountClose id _ | CountError id | Stdout id _
  | Close id _ | WorkerError id | FfmpegClose id _ | FfmpegError id
  | Timeout id | ProgressCleanup id => id
  end.

(** [s'] is [s] after the scheduling loop has moved the first [k] waiting
    downloads, for some [k], from the queue to execution. *)
Definition admits (s s' : State) : Prop :=
  ∃ k, started_ids (effects s') = started_ids (effects s) ++ take k (queue_ids s)
       ∧ queue_ids s' = drop k (queue_ids s).


Module SampleCancel.
Import Sample.

(** One download is started and then cancelled. *)
Definition start_and_cancel : list (Env * Event) :=
  [(env_at 1, Submit "job1" video_job Sanitize.Missing);
   (env_at 2, CancelRequest "job1")].

Definition observe_job (o : option State) (id : string) :=
  match o with
  | Some s =>
      Some (phase <$> jobs s !! id, cancelled <$> activeProcesses s !! id,
            status_of s id)
  | None => None
  end.
End SampleCancel.

(** One turn of the loop of [processQueue]: the head entry is shifted out,
    counted, announced and its task is started. *)
Definition admit_one (e : Env) (item : QueueEntry) (s : State) : State :=
  let s1 := set_downloadQueue (drop 1) s in
  let s2 := set_activeDownloads (fun n => n + 1)%Z s1 in
  let s3 := broadcastQueuePositions e s2 in
  let s4 := emit [LogProcessing (downloadId item) (activeDownloads s3)] s3 in
  processDownload e (downloadId item) (task item) s4.

(** Whether the task starts with the playlist pre-count. *)
Definition counts_first (o : Options) : bool :=
  match type o with
  | video => false
  | audio => merge o && Js.includes (Js.lit "playlist?list=") (url o)
  end.

(** The shape of the pending tasks: a task that awaits the pre-count is
    an audio merge over a playlist URL and has no process record yet; a
    task in the downloading or merging phase has one. *)
Definition Shaped (s : State) : Prop :=
  ∀ id j, jobs s !! id = Some j →
    match phase j with
    | Counting _ => activeProcesses s !! id = None ∧ counts_first (options j) = true
    | Downloading _ => is_Some (activeProcesses s !! id)
    | Merging _ =>
        is_Some (activeProcesses s !! id)
        ∧ type (options j) = audio ∧ merge (options j) = true
    end.

(** The part of [settle] before the scheduling loop: the [catch] and
    [finally] of [processDownload] and the decrement of the counter. *)
Definition settling (e : Env) (id : string) (outcome : option Error) (s : State) : State :=
  let s1 :=
    match outcome with
    | Some err =>
        if negb (is_cancelled (activeProcesses s !! id))
        then updateProgress e id (error_data err) s
        else s
    | None => s
    end in
  let s2 := set_downloadTimeouts (delete id) s1 in
  let s3 := set_activeDownloads (fun n => n - 1)%Z s2 in
  let s4 := set_activeProcesses (delete id) s3 in
  let s5 := set_downloadTimeouts (delete id) s4 in
  set_jobs (delete id) s5.

(** ** Downloads begin after the pre-count *)

(** The effects by which some download begins. *)
Definition is_begin (ef : Effect) : bool :=
  match ef with
  | Mkdir _ | SpawnDownload _ _ => true
  | _ => false
  end.

(** [s'] extends the effects of [s] and no download begins in between. *)
Definition calm (s s' : State) : Prop :=
  ∃ es, effects s' = effects s ++ es ∧ Forall (fun ef => is_begin ef = false) es.

(** Nothing in the history of [s] begins the download of [id]: no scratch
    directory was created for it and no download worker was spawned. *)
Definition not_begun (s : State) (id : string) : Prop :=
  Forall (fun ef => is_download_effect id ef = false) (effects s).

(** The download has not been admitted yet, or its task awaits the
    playlist pre-count. *)
Definition waiting (s : State) (id : string) : Prop :=
  id ∉ started_ids (effects s)
  ∨ ∃ j out, jobs s !! id = Some j ∧ phase j = Counting out.

Definition Gated (s : State) : Prop := ∀ id, waiting s id → not_begun s id.

(** From [s] to [s'] no download begins that still waits in [s']. *)
Definition next (s s' : State) : Prop :=
  ∀ id, waiting s' id → waiting s id ∧ quiet id s s'.

Module SampleMerge.
Import Sample.

Definition playlist_job : Options :=
  {| url := Js.lit "https://example.org/playlist?list=PL1"; type := audio;
     format := Js.lit "mp3"; quality := Js.lit "best"; merge := true;
     embedThumbnail := false; normalizeAudio := true; customFilename := None;
     downloadSubtitles := false; highCompatibility := false |}.

(** The output of the pre-count for a playlist of [n] entries: one JSON
    object per line. *)
Definition count_output (n : nat) : Js.str :=
  concat (replicate n (Js.lit "{}" ++ [10%N])).

(** A merge job over a playlist of 51 entries, up to the last chunk of
    the pre-count. *)
Definition counting_51 : list (Env * Event) :=
  [(env_at 1, Submit "job1" playlist_job Sanitize.Missing);
   (env_at 2, CountData "job1" (count_output 51))].

Definition observe_count (o : option State) (id : string) :=
  match o with
  | Some s =>
      Some (match jobs s !! id with
            | Some j =>
                match phase j with
                | Counting out => Some (length (count_lines out))
                | _ => None
                end
            | None => None
            end)
  | None => None
  end.
End SampleMerge.

Module SampleFinish.
Import Sample.


End SampleFinish.

(** ** Progress values *)

(** The statement under test: from one callback to the next, as long as
    the record has not reached a terminal status, the progress value of
    a download does not decrease. *)
Definition progress_never_decreases : Prop :=
  ∀ evs s e ev s' id p p',
    run evs initial = Some s → step e ev s = Some s' →
    progress_of s id = Some p → progress_of s' id = Some p' →
    is_final (field s id "status") = false →
    is_final (field s' id "status") = false →
    (p <= p')%Q.

(** What every update keeps of the pair of status and progress: the
    value is 100 with 'finished', 0 with 'error' and 'cancelled', and at
    most 98 otherwise. *)
Definition paired (st : string) (p : Q) : Prop :=
  (st = "finished" → p == 100)%Q
  ∧ (st = "error" ∨ st = "cancelled" → p == 0)%Q
  ∧ (st ≠ "finished" → p <= 98)%Q.

Definition bounded (rec : gmap string Value) : Prop :=
  ∃ st p, rec !! "status" = Some (VStr st) ∧ rec !! "progress" = Some (VNum p)
          ∧ paired st p.

Definition Bounded (s : State) : Prop :=
  ∀ id rec, downloadProgress s !! id = Some rec → bounded rec.

Module SampleProgress.
Import Sample.

(** A video download whose worker reports the end of one stream and
    then the start of the next. *)
Definition two_streams : list (Env * Event) :=
  [(env_at 1, Submit "job1" video_job Sanitize.Missing);
   (env_at 1000, Stdout "job1" (Js.lit "[download] 100% of 10.00MiB in 00:03"))].

Definition next_stream : Env * Event :=
  (env_at 2000, Stdout "job1" (Js.lit "[download]   0.0% of 5.00MiB at 1.00MiB/s")).

Definition observe_progress (o : option State) (id : string) :=
  match o with
  | Some s => Some (field s id "status", progress_of s id)
  | None => None
  end.
End SampleProgress.

(** ** Cancellation of a started download *)


Module SampleCount.
Import Sample SampleMerge.



End SampleCount.

Module SampleRace.
Import Sample.

Definition merge_job : Options :=
  {| url := Js.lit "https://example.org/watch?v=1&list=PL1"; type := audio;
     format := Js.lit "mp3"; quality := Js.lit "best"; merge := true;
     embedThumbnail := false; normalizeAudio := false; customFilename := None;
     downloadSubtitles := false; highCompatibility := false |}.

(** The download worker has left two files in the session directory. *)
Definition env_two_files (t : Z) : Env :=
  {| date_now := t; client_write := fun _ => Written; downloads_dir := [];
     session_dir := [Js.lit "01 - a.mp3"; Js.lit "02 - b.mp3"];
     locale_sort := fun l => l; iso_stamp := Js.lit "2024-01-01T00-00-00";
     merged_stat := Some 5%Z |}.

(** The merge step runs when the cancellation is requested. *)
Definition cancel_in_merge : list (Env * Event) :=
  [(env_at 1, Submit "job1" merge_job Sanitize.Missing);
   (env_two_files 2, Close "job1" (Some 0%Z));
   (env_at 3, CancelRequest "job1")].

(** ffmpeg had finished its work: its exit with code 0 is delivered. *)
Definition merge_exit_zero : Env * Event :=
  (env_two_files 4, FfmpegClose "job1" (Some 0%Z)).

Definition observe_status (o : option State) (id : string) :=
  match o with
  | Some s => Some (cancelled <$> activeProcesses s !! id, status_of s id)
  | None => None
  end.
End SampleRace.

(** ** Notions used in the statements *)

(** No character of the class that [sanitizeFilename] replaces. *)
Definition safe (s : Js.str) : Prop := Forall (fun c => Sanitize.is_unsafe c = false) s.

Definition newer_first (a b : FileDesc) : Prop := (File.mtime b <= File.mtime a)%Q.

(** The descriptors that [getRecentFiles] chooses from. *)
Definition candidates (dir : list DirEntry) (extension : Js.str) : list FileDesc :=
  omap stat_entry
    (filter (fun d => Js.endsWith (Js.toLowerCase extension)
                        (Js.toLowerCase (de_name d)) = true) dir).

(** The clients that stay registered after a broadcast. *)
Definition live (e : Env) (clients : list nat) : list nat :=
  filter (fun c => is_dead e c = false) clients.
Definition dead (e : Env) (clients : list nat) : list nat :=
  filter (fun c => is_dead e c = true) clients.

(** The task of a queue entry, up to its first suspension. *)
Definition first_phase (o : Options) : Phase :=
  if counts_first o then Counting [] else Downloading locals0.

Definition first_job (e : Env) (o : Options) : Job :=
  {| options := o; startTime := date_now e; phase := first_phase o |}.

(** What holds between two callbacks of the event loop. *)
Record Inv (s : State) : Prop := {
  inv_active : activeDownloads s = Z.of_nat (size (jobs s));
  inv_bound : (activeDownloads s ≤ CONFIG.MAX_CONCURRENT_DOWNLOADS)%Z;
  inv_fifo : started_ids (effects s) ++ queue_ids s `sublist_of` issued s;
  inv_nodup : NoDup (issued s);
  inv_jobs : ∀ id, id ∈ dom (jobs s) → id ∈ started_ids (effects s);
  inv_procs : dom (activeProcesses s) ⊆ dom (jobs s)
}.

(** ** Further sample runs *)

Module SampleIds.
Import Sample.

Definition observe_ids (o : option State) :=
  match o with
  | Some s => Some (issued s, started_ids (effects s), queue_ids s)
  | None => None
  end.

(** One download runs. *)
Definition one_running : list (Env * Event) :=
  [(env_at 1, Submit "job1" video_job Sanitize.Missing)].
End SampleIds.

Module SampleAudio.
Import Sample.

Definition audio_job (m : bool) : Options :=
  {| url := Js.lit "https://example.org/watch?v=1"; type := audio;
     format := Js.lit "mp3"; quality := Js.lit "best"; merge := m;
     embedThumbnail := false; normalizeAudio := false; customFilename := None;
     downloadSubtitles := false; highCompatibility := false |}.

Definition audio_running (m : bool) : list (Env * Event) :=
  [(env_at 1, Submit "job1" (audio_job m) Sanitize.Missing)].

(** What the close handler finds in the session directory. *)
Definition env_session (files : list Js.str) : Env :=
  {| date_now := 9; client_write := fun _ => Written; downloads_dir := [];
     session_dir := files; locale_sort := fun l => l; iso_stamp := [];
     merged_stat := Some 7%Z |}.

Definition observe_audio (o : option State) (id : string) :=
  match o with
  | Some s =>
      Some (match jobs s !! id with
            | Some j =>
                Some (type (options j), merge (options j), format (options j),
                      match phase j with Downloading _ => true | _ => false end)
            | None => None
            end,
            is_cancelled (activeProcesses s !! id))
  | None => None
  end.
End SampleAudio.

(** ** Notions about the progress store *)

(** Every record carries its key and the time of its last update, and a
    record with a terminal status has its expiry timer armed for
    PROGRESS_CLEANUP_MS after that time. *)
Definition Expiring (s : State) : Prop :=
  ∀ id rec, downloadProgress s !! id = Some rec →
    rec !! "downloadId" = Some (VStr id)
    ∧ ∃ t, rec !! "timestamp" = Some (VNum (inject_Z t))
           ∧ (is_final (rec !! "status") = true →
              progressCleanupTimers s !! id
              = Some (t + CONFIG.PROGRESS_CLEANUP_MS)%Z).

(** The subscriber sets are sets, and none of them is empty. *)
Definition Subscribed (s : State) : Prop :=
  ∀ id clients, sseClients s !! id = Some clients → clients ≠ [] ∧ NoDup clients.

Module SampleSse.
Import Sample.

(** A client subscribes to a running download and another one to an
    unknown identifier; the first disconnects. *)
Definition subscriptions : list (Env * Event) :=
  [(env_at 1, Submit "job1" video_job Sanitize.Missing);
   (env_at 2, Subscribe "job1" 7);
   (env_at 3, Subscribe "none" 8);
   (env_at 4, Subscribe "job1" 9);
   (env_at 5, Disconnect "job1" 7)].

Definition observe_clients (o : option State) (id : string) :=
  match o with
  | Some s => Some (sseClients s !! id)
  | None => None
  end.
End SampleSse.

(** ** [sanitizeConcatPath] *)

Module ConcatPath.
Import Js.

(** [.replace(/\\/g, '/')] *)
Definition slashes (s : str) : str :=
  map (fun c => if (c =? 92)%N then 47%N else c) s.

(** The replacement of one single quote: the quote, a backslash and two
    quotes. *)
Definition escaped_quote : str := [39; 92; 39; 39]%N.

Definition escape_unit (c : N) : str :=
  if (c =? 39)%N then escaped_quote else [c].

(** The second replacement: every single quote becomes [escaped_quote]. *)
Definition escape_quotes (s : str) : str := concat (map escape_unit s).

(** [.replace(/[\r\n]/g, '')] *)
Definition drop_newlines (s : str) : str :=
  filter (fun c => c ≠ 13%N ∧ c ≠ 10%N) s.

(** [.replace(/[\x00-\x1f]/g, '')] *)
Definition drop_controls (s : str) : str := filter (fun c => (31 < c)%N) s.

Definition sanitizeConcatPath (filePath : str) : str :=
  drop_controls (drop_newlines (escape_quotes (slashes filePath))).

(** The line of the concat list for one file. *)
Definition concat_line (f : str) : str :=
  lit "file '" ++ sanitizeConcatPath f ++ [39%N].

(** Reads an escaped text back: [escaped_quote] stands for one quote. *)
Fixpoint unescape (s : str) : str :=
  match s with
  | [] => []
  | c :: t =>
      if (c =? 39)%N && startsWith [92; 39; 39]%N t then
        39%N :: match t with
                | _ :: _ :: _ :: t' => unescape t'
                | _ => []
                end
      else c :: unescape t
  end.
End ConcatPath.

(** ** [extractAvailableQualities] *)

Module Qualities.

(** An entry of the [formats] array of the worker's JSON; a field is
    [None] when it is missing or null. *)
Record Format := {
  height : option Z;
  vcodec : option Js.str;
  acodec : option Js.str
}.

(** [codec && codec !== 'none'] *)
Definition has_codec (codec : option Js.str) : bool :=
  match codec with
  | Some ((_ :: _) as c) => negb (Js.eqb c (Js.lit "none"))
  | _ => false
  end.

(** [f.height && f.vcodec && f.vcodec !== 'none'] *)
Definition video_height (f : Format) : option Z :=
  match height f with
  | Some h => if bool_decide (h ≠ 0%Z) && has_codec (vcodec f) then Some h else None
  | None => None
  end.

Definition audio_codec (f : Format) : option Js.str :=
  if has_codec (acodec f) then acodec f else None.

(** [[...new Set(l)]]: the first occurrence of every value, in order. *)
Definition unique {A} `{EqDecision A} (l : list A) : list A :=
  reverse (remove_dups (reverse l)).

(** [.sort((a, b) => b - a)] *)
Fixpoint insert_desc (x : Z) (l : list Z) : list Z :=
  match l with
  | [] => [x]
  | y :: t => if (y <=? x)%Z then x :: l else y :: insert_desc x t
  end.

Definition sort_desc (l : list Z) : list Z := foldr insert_desc [] l.

Record Result := {
  resolutions : list Z;
  audioCodecs : list Js.str;
  hasVideoFormats : bool
}.

(** The argument is [None] when [formats] is missing or not an array. *)
Definition extractAvailableQualities (formats : option (list Format)) : Result :=
  match formats with
  | None => {| resolutions := []; audioCodecs := []; hasVideoFormats := false |}
  | Some fs =>
      {| resolutions := sort_desc (unique (omap video_height fs));
         audioCodecs := unique (omap audio_codec fs);
         hasVideoFormats := existsb (fun f => has_codec (vcodec f)) fs |}
  end.
End Qualities.

(** ** Validation of a download request *)

Module Request.

(** A field of the JSON body. *)
Inductive Json :=
| JMissing                    (* undefined or null *)
| JBool (b : bool)
| JStr (s : Js.str)
| JOther (truthy : bool).     (* a number, an array or an object *)

Definition truthy (v : Json) : bool :=
  match v with
  | JMissing => false
  | JBool b => b
  | JStr s => match s with [] => false | _ => true end
  | JOther t => t
  end.

(** [a || b] *)
Definition or_else (a b : Json) : Json := if truthy a then a else b.

(** [list.includes(v)] for a list of strings. *)
Definition includes (l : list Js.str) (v : Json) : bool :=
  match v with
  | JStr s => bool_decide (s ∈ l)
  | _ => false
  end.

(** [v === true] and [v !== false] *)
Definition is_true (v : Json) : bool :=
  match v with JBool true => true | _ => false end.
Definition not_false (v : Json) : bool :=
  match v with JBool false => false | _ => true end.

Record t := {
  r_url_ok : bool;            (* isValidUrl(url) *)
  r_url : Js.str;
  r_type : Json;
  r_mode : Json;
  r_format : Json;
  r_quality : Json;
  r_merge : Json;
  r_embedThumbnail : Json;
  r_normalizeAudio : Json;
  r_customFilename : Json;
  r_downloadSubtitles : Json;
  r_highCompatibility : Json
}.

(** The four answers with status 400. *)
Inductive Rejection :=
| InvalidUrl                  (* 'URL tidak valid' *)
| InvalidType                 (* 'Tipe download tidak valid' *)
| InvalidFormat               (* 'Format tidak valid' *)
| InvalidQuality.             (* 'Kualitas tidak valid' *)

Definition videoFormats : list Js.str := [Js.lit "mp4"; Js.lit "webm"].

Definition validQualities : list Js.str :=
  [Js.lit "360"; Js.lit "480"; Js.lit "720"; Js.lit "1080"; Js.lit "1440";
   Js.lit "2160"; Js.lit "best"].

(** [finalType] after the normalization. *)
Definition finalType (r : t) : Json :=
  let given := or_else (r_type r) (r_mode r) in
  if includes audioFormats given then JStr (Js.lit "audio")
  else if includes videoFormats given then JStr (Js.lit "video")
  else given.

Definition media_type (v : Json) : option MediaType :=
  match v with
  | JStr s =>
      if Js.eqb s (Js.lit "video") then Some video
      else if Js.eqb s (Js.lit "audio") then Some audio
      else None
  | _ => None
  end.

Definition text_of (v : Json) : Js.str :=
  match v with JStr s => s | _ => [] end.

(** The checks of the handler, in order, and the options of the task.
    The file name is added by [api_download]; for an audio download
    the quality is not read by the task. *)
Definition validate (r : t) : Rejection + Options :=
  if negb (r_url_ok r) then inl InvalidUrl
  else
    match media_type (finalType r) with
    | None => inl InvalidType
    | Some ty =>
        let validFormats :=
          match ty with video => videoFormats | audio => audioFormats end in
        if negb (includes validFormats (r_format r)) then inl InvalidFormat
        else if match ty with
                | video => negb (includes validQualities (r_quality r))
                | audio => false
                end
        then inl InvalidQuality
        else
          inr {| url := Js.trim (r_url r);
                 type := ty;
                 format := text_of (r_format r);
                 quality := if truthy (r_quality r) then text_of (r_quality r)
                            else Js.lit "best";
                 merge := is_true (r_merge r);
                 embedThumbnail := not_false (r_embedThumbnail r);
                 normalizeAudio := is_true (r_normalizeAudio r);
                 customFilename := None;
                 downloadSubtitles := is_true (r_downloadSubtitles r);
                 highCompatibility := is_true (r_highCompatibility r) |}
    end.

(** [customFilename] as [sanitizeFilename] sees it. *)
Definition to_arg (v : Json) : Sanitize.arg :=
  match v with
  | JMissing => Sanitize.Missing
  | JBool b => Sanitize.NonString b
  | JStr s => Sanitize.Str s
  | JOther b => Sanitize.NonString b
  end.

(** POST /api/download: the answer is the rejection or the identifier
    of the new download. *)
Definition post_download (e : Env) (id : string) (r : t) (s : State)
    : State * (Rejection + string) :=
  match validate r with
  | inl rejection => (s, inl rejection)
  | inr o => (api_download e id o (to_arg (r_customFilename r)) s, inr id)
  end.
End Request.

(** ** GET /api/queue *)

Module QueueStatus.
Record t := {
  activeDownloads : Z;
  maxConcurrent : Z;
  queueLength : nat;
  queuedIds : list string
}.
End QueueStatus.

Definition api_queue (s : State) : QueueStatus.t :=
  {| QueueStatus.activeDownloads := activeDownloads s;
     QueueStatus.maxConcurrent := CONFIG.MAX_CONCURRENT_DOWNLOADS;
     QueueStatus.queueLength := length (downloadQueue s);
     QueueStatus.queuedIds := map downloadId (downloadQueue s) |}.

(** No slot is idle while a download waits. *)
Definition Busy (s : State) : Prop :=
  downloadQueue s ≠ [] → activeDownloads s = CONFIG.MAX_CONCURRENT_DOWNLOADS.

(** ** The deadline of a download *)

Definition timeout_message : Value :=
  VMsg (MsgText "Download timeout (melebihi 30 menit)").

(** The state of a download after its deadline has fired while its
    worker was running: the record says 'error' with the message of the
    deadline, or 'cancelled' if a cancellation was requested afterwards,
    until it expires; the timer cannot fire again; and either the worker
    is still to exit, with the flag set, or the task has been settled. *)
Definition TimedOut (s : State) (id : string) : Prop :=
  (id ∉ queue_ids s) ∧ id ∈ issued s
  ∧ ((status_of s id = Some "error" ∧ field s id "message" = Some timeout_message)
     ∨ status_of s id = Some "cancelled"
     ∨ downloadProgress s !! id = None)
  ∧ downloadTimeouts s !! id ≠ Some true
  ∧ ((∃ j l info, jobs s !! id = Some j ∧ phase j = Downloading l
                  ∧ activeProcesses s !! id = Some info ∧ cancelled info = true)
     ∨ (jobs s !! id = None ∧ activeProcesses s !! id = None)).

Module SampleTimeout.
Definition observe_timer (o : option State) (id : string) :=
  match o with
  | Some s =>
      Some (match jobs s !! id with
            | Some j => match phase j with Downloading _ => true | _ => false end
            | None => false
            end,
            cancelled <$> activeProcesses s !! id,
            downloadTimeouts s !! id)
  | None => None
  end.
End SampleTimeout.

(** ** The item counters of the audio worker *)

(** The counters of the playlist after a chunk was searched for an item
    line: [currentVideo] and [totalVideos]. *)
Definition counters (output : Js.str) (l : Locals) : Z * Z :=
  match Output.match_item output with
  | Some (cur, tot) => (cur, tot)
  | None => (currentVideo l, totalVideos l)
  end.

(** ** formatDuration *)

Module Duration.












End Duration.

(** * Properties *)

(** * Properties *)

(** ** Strings *)

Module JsFacts.
Import Js.

Lemma drop_while_suffix p s : drop_while p s `suffix_of` s.
Proof.
  induction s as [|c t IH]; simpl; [done|].
  destruct (p c); [by apply suffix_cons_r | done].
Qed.

Lemma drop_while_end_prefix p s : drop_while_end p s `prefix_of` s.
Proof.
  induction s as [|c t IH]; simpl; [done|].
  destruct (drop_while_end p t) as [|d t'] eqn:E.
  - destruct (p c); [apply prefix_nil | apply prefix_cons, prefix_nil].
  - by apply prefix_cons.
Qed.

Lemma trim_infix s : ∃ a b, s = a ++ trim s ++ b.
Proof.
  unfold trim.
  destruct (drop_while_suffix is_ws s) as [a Ha].
  destruct (drop_while_end_prefix is_ws (drop_while is_ws s)) as [b Hb].
  exists a, b. by rewrite <- Hb.
Qed.

Lemma lit_inj a b : lit a = lit b → a = b.
Proof.
  unfold lit. intros H.
  rewrite <- (String.string_of_list_ascii_of_string a),
          <- (String.string_of_list_ascii_of_string b).
  f_equal.
  revert H. generalize (String.list_ascii_of_string a) (String.list_ascii_of_string b).
  induction l as [|x l IH]; intros [|y l']; simpl; intros H; try done.
  injection H as Hxy Hl. f_equal; [|by apply IH].
  rewrite <- (Ascii.ascii_N_embedding x), <- (Ascii.ascii_N_embedding y).
  by rewrite Hxy.
Qed.

Lemma path_join_slash d n : 47%N ∈ path_join d n.
Proof. unfold path_join. set_solver. Qed.

Lemma path_join_inj_r d n n' : path_join d n = path_join d n' → n = n'.
Proof. unfold path_join. intros H. apply app_inv_head in H. by injection H. Qed.
End JsFacts.

(** ** sanitizeFilename *)

Module SanitizeFacts.
Import Js Sanitize JsFacts.

Lemma replace_unsafe_safe s : safe (replace_unsafe s).
Proof.
  apply Forall_forall. intros c Hc. unfold replace_unsafe in Hc.
  apply list_elem_of_fmap in Hc as (d & -> & _).
  destruct (is_unsafe d) eqn:E; [reflexivity | done].
Qed.

Lemma replace_newlines_safe s : safe s → safe (replace_newlines s).
Proof.
  unfold safe, replace_newlines. intros H.
  apply Forall_fmap. eapply Forall_impl; [exact H|].
  intros c Hc. simpl. by case_match.
Qed.

Lemma collapse_dots_sublist s : collapse_dots s `sublist_of` s.
Proof.
  induction s as [|c t IH]; [done|]. simpl.
  destruct (is_dot c); [|by constructor].
  destruct t as [|d t']; [done|].
  destruct (is_dot d); by constructor.
Qed.

Lemma collapse_ws_safe s : safe s → safe (collapse_ws s).
Proof.
  unfold safe. induction s as [|c t IH]; [done|].
  intros H. apply Forall_cons in H as [Hc Ht]. simpl.
  destruct (is_ws c).
  - destruct t as [|d t']; [by repeat constructor|].
    destruct (is_ws d); [by apply IH|].
    constructor; [done | by apply IH].
  - constructor; [done | by apply IH].
Qed.

Lemma safe_sublist s t : s `sublist_of` t → safe t → safe s.
Proof.
  unfold safe. rewrite !Forall_forall. intros Hs Ht c Hc.
  apply Ht. by eapply elem_of_sublist.
Qed.

Lemma safe_infix a s b : safe (a ++ s ++ b) → safe s.
Proof.
  unfold safe. intros H.
  apply Forall_app in H as [_ H]. by apply Forall_app in H as [H _].
Qed.

(** Absence of two adjacent dots. *)
Lemma has_dot_run_cons c s :
  has_dot_run (c :: s) = is_dot c && begins_with_dot s || has_dot_run s.
Proof. destruct s; simpl; [by rewrite andb_false_r | done]. Qed.

Lemma has_dot_run_app_l a b : has_dot_run (a ++ b) = false → has_dot_run a = false.
Proof.
  induction a as [|c a IH]; [done|].
  rewrite <- app_comm_cons, !has_dot_run_cons.
  intros H. apply orb_false_iff in H as [H1 H2].
  rewrite (IH H2), orb_false_r.
  destruct (is_dot c); [|done]. simpl in *.
  destruct a; [done | exact H1].
Qed.

Lemma has_dot_run_app_r a b : has_dot_run (a ++ b) = false → has_dot_run b = false.
Proof.
  induction a as [|c a IH]; [done|].
  rewrite <- app_comm_cons, has_dot_run_cons.
  intros H. apply orb_false_iff in H as [_ H]. by apply IH.
Qed.

Lemma begins_collapse_dots s :
  begins_with_dot (collapse_dots s) = begins_with_dot s.
Proof.
  induction s as [|c t IH]; [done|]. simpl.
  destruct (is_dot c) eqn:Ec; [|by simpl; rewrite Ec].
  destruct t as [|d t']; [by simpl; rewrite Ec|].
  destruct (is_dot d) eqn:Ed; [|by simpl; rewrite Ec].
  rewrite IH. simpl. by rewrite Ed.
Qed.

Lemma collapse_dots_no_run s : has_dot_run (collapse_dots s) = false.
Proof.
  induction s as [|c t IH]; [done|]. simpl.
  destruct (is_dot c) eqn:Ec.
  - destruct t as [|d t']; [done|].
    destruct (is_dot d) eqn:Ed; [exact IH|].
    rewrite has_dot_run_cons, IH, begins_collapse_dots. simpl.
    by rewrite Ed, andb_false_r.
  - rewrite has_dot_run_cons, IH, Ec. done.
Qed.

Lemma is_ws_not_dot c : is_ws c = true → is_dot c = false.
Proof.
  unfold is_ws, is_dot. intros H. apply N.eqb_neq. intros ->. done.
Qed.

Lemma begins_collapse_ws s :
  begins_with_dot (collapse_ws s) = begins_with_dot s.
Proof.
  induction s as [|c t IH]; [done|]. simpl.
  destruct (is_ws c) eqn:Ec; [|done].
  rewrite (is_ws_not_dot _ Ec).
  destruct t as [|d t']; [done|].
  destruct (is_ws d) eqn:Ed; [|done].
  rewrite IH. simpl. by apply is_ws_not_dot.
Qed.

Lemma collapse_ws_no_run s :
  has_dot_run s = false → has_dot_run (collapse_ws s) = false.
Proof.
  induction s as [|c t IH]; [done|].
  rewrite has_dot_run_cons. intros H.
  apply orb_false_iff in H as [H1 H2]. simpl.
  destruct (is_ws c) eqn:Ec.
  - destruct t as [|d t']; [done|].
    destruct (is_ws d); [by apply IH|].
    rewrite has_dot_run_cons, (IH H2). done.
  - rewrite has_dot_run_cons, (IH H2), begins_collapse_ws, H1. done.
Qed.

Lemma strip_dots_infix s : ∃ a b, s = a ++ strip_dots s ++ b.
Proof.
  unfold strip_dots.
  destruct (drop_while_suffix is_dot s) as [a Ha].
  destruct (drop_while_end_prefix is_dot (drop_while is_dot s)) as [b Hb].
  exists a, b. by rewrite <- Hb.
Qed.

Lemma has_dot_run_infix a s b :
  has_dot_run (a ++ s ++ b) = false → has_dot_run s = false.
Proof. intros H. apply has_dot_run_app_r in H. by apply has_dot_run_app_l in H. Qed.

(** The parts of the contract that the code keeps: the length cap, the
    removal of the unsafe characters and of runs of dots, and the
    default name. *)
Lemma sanitizeFilename_length a :
  length (sanitizeFilename a) ≤ CONFIG.MAX_FILENAME_LENGTH.
Proof.
  destruct a as [| |[|c s]]; try (vm_compute; lia).
  unfold sanitizeFilename. rewrite length_take. lia.
Qed.

Lemma sanitizeFilename_safe a : safe (sanitizeFilename a).
Proof.
  destruct a as [| |[|c s]];
    try (apply Forall_forall; intros x Hx; vm_compute in Hx;
         repeat (apply elem_of_cons in Hx as [->|Hx]; [reflexivity|]);
         by apply elem_of_nil in Hx).
  unfold sanitizeFilename.
  eapply safe_sublist; [apply sublist_take|].
  destruct (trim_infix (collapse_ws (strip_dots (collapse_dots
    (replace_newlines (replace_unsafe (c :: s))))))) as (a & b & E).
  eapply safe_infix. rewrite <- E.
  apply collapse_ws_safe.
  destruct (strip_dots_infix (collapse_dots
    (replace_newlines (replace_unsafe (c :: s))))) as (a' & b' & E').
  eapply safe_infix. rewrite <- E'.
  eapply safe_sublist; [apply collapse_dots_sublist|].
  apply replace_newlines_safe, replace_unsafe_safe.
Qed.

Lemma sanitizeFilename_no_dot_run a : has_dot_run (sanitizeFilename a) = false.
Proof.
  destruct a as [| |[|c s]]; try reflexivity.
  unfold sanitizeFilename.
  set (x := trim _).
  apply (has_dot_run_app_l _ (drop CONFIG.MAX_FILENAME_LENGTH x)).
  rewrite take_drop. subst x.
  destruct (trim_infix (collapse_ws (strip_dots (collapse_dots
    (replace_newlines (replace_unsafe (c :: s))))))) as (a & b & E).
  eapply has_dot_run_infix. rewrite <- E.
  apply collapse_ws_no_run.
  destruct (strip_dots_infix (collapse_dots
    (replace_newlines (replace_unsafe (c :: s))))) as (a' & b' & E').
  eapply has_dot_run_infix. rewrite <- E'.
  apply collapse_dots_no_run.
Qed.

Lemma sanitizeFilename_default a :
  (∀ c s, a ≠ Str (c :: s)) → sanitizeFilename a = lit "download".
Proof. destruct a as [| |[|c s]]; try done. intros H. by destruct (H c s). Qed.

(** C9 (the code departs from the claim).  The dots at the two ends are
    removed before [trim] and before the cut at 150 characters, so a dot
    that follows leading white space survives: for the name
    [" .a"] the result is [".a"], which begins with a dot. *)
Theorem sanitizeFilename_leading_dot :
  sanitizeFilename (Str (lit " .a")) = lit ".a"
  ∧ begins_with_dot (sanitizeFilename (Str (lit " .a"))) = true.
Proof. split; reflexivity. Qed.

(** The same at the other end, through [trim] and through the cut. *)
Lemma sanitizeFilename_trailing_dot :
  ends_with_dot (sanitizeFilename (Str (lit "a. "))) = true
  ∧ ends_with_dot (sanitizeFilename (Str (replicate 149 97%N ++ lit ".b"))) = true.
Proof. split; vm_compute; reflexivity. Qed.
End SanitizeFacts.

(** ** Merge step: the loudness filter *)

Module MergeFacts.
Import Js JsFacts.

Lemma in_concrete (x : str) (l : list str) : bool_decide (x ∈ l) = true → x ∈ l.
Proof. apply bool_decide_eq_true_1. Qed.

Lemma not_in_concrete (x : str) (l : list str) : bool_decide (x ∈ l) = false → x ∉ l.
Proof. apply bool_decide_eq_false_1. Qed.

Lemma no_slash_in_loudnorm : 47%N ∉ loudnorm.
Proof. by apply (bool_decide_eq_false_1 (47%N ∈ loudnorm)). Qed.

Lemma loudnorm_not_path d n : loudnorm ≠ path_join d n.
Proof.
  intros H. pose proof (path_join_slash d n) as Hs. rewrite <- H in Hs.
  by apply no_slash_in_loudnorm.
Qed.

Lemma loudnorm_not_codec fmt : loudnorm ∉ codec_args fmt.
Proof.
  unfold codec_args. repeat case_match; by apply not_in_concrete.
Qed.

Lemma eqb_eq a b : eqb a b = true ↔ a = b.
Proof. unfold eqb. apply bool_decide_eq_true. Qed.

Lemma loudnorm_in_filter fmt normalize :
  loudnorm ∈ filter_args fmt normalize ↔ normalize = true ∧ fmt ≠ lit "flac".
Proof.
  unfold filter_args.
  destruct normalize; simpl.
  - destruct (eqb fmt (lit "flac")) eqn:E; simpl.
    + apply eqb_eq in E. split; [by intros ?%elem_of_nil | by intros [_ ?]].
    + split; [|intros _; set_solver].
      intros _. split; [done|]. intros ->.
      by rewrite (proj2 (eqb_eq _ _) eq_refl) in E.
  - split; [by intros ?%elem_of_nil | by intros [? _]].
Qed.

(** C8 as stated fails: WAV is lossless and yet receives the filter. *)
Lemma filter_unless_lossless_fails : ¬ filter_unless_lossless.
Proof.
  intros H.
  destruct (H (lit "wav") "" []) as [H1 _].
  - by apply in_concrete.
  - discriminate H1. by apply in_concrete.
Qed.

(** C8 (amended).  The ffmpeg arguments of the merge step contain the
    loudness-normalization filter if and only if normalization is
    requested and the target format is not 'flac'. *)
Theorem merge_filter_iff_not_flac fmt normalize inputDir outputDir outputName :
  loudnorm ∈ merge_args fmt normalize
               (path_join inputDir (lit "concat.txt"))
               (path_join outputDir outputName)
  ↔ normalize = true ∧ fmt ≠ lit "flac".
Proof.
  unfold merge_args.
  rewrite !elem_of_app, loudnorm_in_filter.
  split.
  - intros [H|[H|[H|H]]]; [| by apply loudnorm_not_codec in H | done |].
    + repeat (apply elem_of_cons in H as [H|H]; [discriminate H|]).
      apply elem_of_cons in H as [H|H]; [by apply loudnorm_not_path in H|].
      by apply elem_of_nil in H.
    + apply elem_of_cons in H as [H|H]; [discriminate H|].
      apply elem_of_cons in H as [H|H]; [by apply loudnorm_not_path in H|].
      by apply elem_of_nil in H.
  - intros H. right; right; by left.
Qed.

(** The two lossless formats side by side. *)
Lemma merge_filter_flac_wav c o :
  filter_args (lit "flac") true = []
  ∧ merge_args (lit "wav") true c o
    = [lit "-f"; lit "concat"; lit "-safe"; lit "0"; lit "-i"; c;
       lit "-c:a"; lit "pcm_s16le"; lit "-af"; loudnorm; lit "-y"; o].
Proof. split; reflexivity. Qed.

(** The spawned command of [mergeAudioFiles] is [merge_args] on the
    options of the job. *)
Lemma mergeAudioFiles_spawn e id inputDir outputDir o s s' f :
  mergeAudioFiles e id inputDir outputDir o s = (s', MergeSpawned f) →
  ∃ files,
    effects s' = effects s ++
      [WriteConcat (path_join inputDir (lit "concat.txt")) files;
       SpawnFfmpeg id (merge_args (format o) (normalizeAudio o)
                         (path_join inputDir (lit "concat.txt"))
                         (path_join outputDir f))].
Proof.
  unfold mergeAudioFiles. intros H.
  repeat case_match; simplify_eq; simpl; eauto.
Qed.
End MergeFacts.

(** ** getRecentFiles *)

Module RecentFacts.

Lemma insert_recent_perm x l : insert_recent x l ≡ₚ x :: l.
Proof.
  induction l as [|y t IH]; simpl; [done|].
  destruct (Qle_bool (File.mtime y) (File.mtime x)); [done|].
  rewrite IH. apply Permutation_swap.
Qed.

Lemma sort_recent_perm l : sort_recent l ≡ₚ l.
Proof.
  induction l as [|x l IH]; simpl; [done|].
  by rewrite insert_recent_perm, IH.
Qed.

Lemma insert_recent_sorted x l :
  StronglySorted newer_first l → StronglySorted newer_first (insert_recent x l).
Proof.
  induction 1 as [|y t Hs IH Hy]; simpl.
  - by repeat constructor.
  - destruct (Qle_bool (File.mtime y) (File.mtime x)) eqn:E.
    + apply Qle_bool_iff in E.
      constructor; [by constructor|].
      constructor; [exact E|].
      eapply Forall_impl; [exact Hy|].
      intros z Hz. unfold newer_first in *. by eapply Qle_trans.
    + constructor; [exact IH|].
      rewrite insert_recent_perm. constructor; [|exact Hy].
      unfold newer_first. apply Qlt_le_weak, Qnot_le_lt.
      intros H. apply Qle_bool_iff in H. congruence.
Qed.

Lemma sort_recent_sorted l : StronglySorted newer_first (sort_recent l).
Proof.
  induction l as [|x l IH]; simpl; [constructor|].
  by apply insert_recent_sorted.
Qed.

Lemma StronglySorted_take {A} (R : relation A) n l :
  StronglySorted R l → StronglySorted R (take n l).
Proof.
  intros H. revert n. induction H as [|x l Hs IH Hx]; intros [|n]; simpl;
    try constructor; [apply IH|].
  rewrite Forall_forall in *. intros y Hy. apply Hx.
  eapply elem_of_sublist; [exact Hy | apply sublist_take].
Qed.

Lemma candidates_spec dir extension fd :
  fd ∈ candidates dir extension ↔
  ∃ d, d ∈ dir ∧ stat_entry d = Some fd
       ∧ Js.endsWith (Js.toLowerCase extension) (Js.toLowerCase (de_name d)) = true.
Proof.
  unfold candidates. rewrite list_elem_of_omap.
  split; intros (d & Hd & H).
  - apply list_elem_of_filter in Hd as [? ?]. eauto.
  - destruct H. exists d. split; [|done]. by apply list_elem_of_filter.
Qed.

Lemma getRecentFiles_length dir extension limit :
  length (getRecentFiles dir extension limit) ≤ limit.
Proof. unfold getRecentFiles. rewrite length_take. lia. Qed.

Lemma getRecentFiles_sorted dir extension limit :
  StronglySorted newer_first (getRecentFiles dir extension limit).
Proof. apply StronglySorted_take, sort_recent_sorted. Qed.

Lemma getRecentFiles_from_dir dir extension limit fd :
  fd ∈ getRecentFiles dir extension limit → fd ∈ candidates dir extension.
Proof.
  intros H. unfold getRecentFiles in H.
  eapply elem_of_sublist in H; [|apply sublist_take].
  by rewrite sort_recent_perm in H.
Qed.

End RecentFacts.

(** ** updateProgress *)

Module ProgressFacts.

Lemma newProgress_lookup e id current data f :
  newProgress e id current data !! f =
    if decide (f = "timestamp") then Some (VNum (inject_Z (date_now e)))
    else if decide (f = "downloadId") then Some (VStr id)
    else match data !! f with
         | Some v => Some v
         | None => current !! f
         end.
Proof.
  unfold newProgress.
  destruct (decide (f = "timestamp")) as [->|Hf]; [by rewrite lookup_insert_eq|].
  rewrite lookup_insert_ne by done.
  destruct (decide (f = "downloadId")) as [->|Hf']; [by rewrite lookup_insert_eq|].
  rewrite lookup_insert_ne by done.
  rewrite lookup_union. destruct (data !! f), (current !! f); done.
Qed.

Lemma is_dead_false e c : is_dead e c = false ↔ client_write e c = Written.
Proof. unfold is_dead. by destruct (client_write e c). Qed.

Lemma updateProgress_store e id data s :
  downloadProgress (updateProgress e id data s)
  = <[id := newProgress e id (default ∅ (downloadProgress s !! id)) data]>
      (downloadProgress s).
Proof.
  unfold updateProgress, broadcast, scheduleProgressCleanup.
  repeat case_match; reflexivity.
Qed.

Lemma updateProgress_effects e id data s :
  effects (updateProgress e id data s)
  = effects s ++
    match sseClients s !! id with
    | Some clients =>
        map (fun c => SseWrite c
               (newProgress e id (default ∅ (downloadProgress s !! id)) data)) clients
        ++ map SseEnd (dead e clients)
    | None => []
    end.
Proof.
  unfold updateProgress, broadcast, scheduleProgressCleanup, dead. simpl.
  destruct (sseClients s !! id) as [[|c cs]|];
    repeat case_match; simpl; by rewrite ?app_nil_r.
Qed.

Lemma updateProgress_clients e id data s :
  sseClients (updateProgress e id data s)
  = match sseClients s !! id with
    | Some (c :: cs) =>
        match live e (c :: cs) with
        | [] => delete id (sseClients s)
        | remaining => <[id := remaining]> (sseClients s)
        end
    | _ => sseClients s
    end.
Proof.
  unfold updateProgress, broadcast, scheduleProgressCleanup, live. simpl.
  destruct (sseClients s !! id) as [[|c cs]|];
    repeat case_match; simpl; congruence.
Qed.

Lemma updateProgress_timers e id data s :
  progressCleanupTimers (updateProgress e id data s)
  = if is_final (data !! "status")
    then <[id := (date_now e + CONFIG.PROGRESS_CLEANUP_MS)%Z]> (progressCleanupTimers s)
    else progressCleanupTimers s.
Proof.
  unfold updateProgress, broadcast, scheduleProgressCleanup.
  repeat case_match; reflexivity.
Qed.

(** C5.  [updateProgress] stores the previous record (the empty record
    if there was none) overlaid field by field with the partial fields,
    with the identifier and the current time; every subscriber registered for
    the identifier is written that record once, in order; the
    subscribers whose write did not succeed are then ended and removed,
    and a subscriber set left empty is deleted. *)
Theorem updateProgress_merges_and_broadcasts e id data s :
  let previous := default ∅ (downloadProgress s !! id) in
  let record := newProgress e id previous data in
  let s' := updateProgress e id data s in
  downloadProgress s' !! id = Some record
  ∧ (∀ id', id' ≠ id → downloadProgress s' !! id' = downloadProgress s !! id')
  ∧ (∀ f, record !! f =
       if decide (f = "timestamp") then Some (VNum (inject_Z (date_now e)))
       else if decide (f = "downloadId") then Some (VStr id)
       else match data !! f with Some v => Some v | None => previous !! f end)
  ∧ effects s' = effects s ++
      map (fun c => SseWrite c record) (default [] (sseClients s !! id))
      ++ map SseEnd (dead e (default [] (sseClients s !! id)))
  ∧ (∀ c, c ∈ default [] (sseClients s' !! id)
          ↔ c ∈ default [] (sseClients s !! id) ∧ client_write e c = Written)
  ∧ (sseClients s !! id ≠ Some [] → sseClients s' !! id ≠ Some [])
  ∧ (∀ id', id' ≠ id → sseClients s' !! id' = sseClients s !! id').
Proof.
  intros previous record s'. subst s'.
  rewrite updateProgress_store, updateProgress_effects, updateProgress_clients.
  fold previous. fold record.
  split; [by rewrite lookup_insert_eq|].
  split; [by intros id' ?; rewrite lookup_insert_ne|].
  split; [apply newProgress_lookup|].
  split; [by destruct (sseClients s !! id)|].
  destruct (sseClients s !! id) as [[|c cs]|] eqn:E; simpl.
  - rewrite E. simpl. split; [|done]. intros c. set_solver.
  - assert (∀ x, x ∈ live e (c :: cs) ↔ x ∈ c :: cs ∧ client_write e x = Written) as Hl.
    { intros x. unfold live. rewrite list_elem_of_filter, is_dead_false. tauto. }
    destruct (live e (c :: cs)) as [|r rs] eqn:El.
    + rewrite lookup_delete_eq. simpl.
      split; [exact Hl|].
      split; [done|]. by intros id' ?; rewrite lookup_delete_ne.
    + rewrite lookup_insert_eq. simpl.
      split; [exact Hl|].
      split; [done|]. by intros id' ?; rewrite lookup_insert_ne.
  - rewrite E. simpl. split; [|done]. intros c. set_solver.
Qed.
End ProgressFacts.

(** ** Frame properties of the callbacks *)

Create Rewrite HintDb frame.

(** Rewrites with the frame equations and evaluates the setters. *)
Ltac frame := repeat (progress (autorewrite with frame; simpl)).

Module Frames.
Import ProgressFacts.

Arguments obj : simpl never.

Lemma started_ids_app a b : started_ids (a ++ b) = started_ids a ++ started_ids b.
Proof.
  induction a as [|x a IH]; [done|]. simpl.
  destruct x; simpl; by rewrite ?IH.
Qed.

Lemma started_ids_writes (f : nat → Effect) l :
  (∀ c id n, f c ≠ LogProcessing id n) → started_ids (map f l) = [].
Proof.
  intros Hf. induction l as [|c l IH]; [done|]. simpl.
  specialize (Hf c). destruct (f c); try done. by destruct (Hf id active).
Qed.

Section updateProgress.
Context (e : Env) (id : string) (data : gmap string Value) (s : State).

Lemma updateProgress_activeDownloads :
  activeDownloads (updateProgress e id data s) = activeDownloads s.
Proof.
  unfold updateProgress, broadcast, scheduleProgressCleanup.
  repeat case_match; reflexivity.
Qed.

Lemma updateProgress_downloadQueue :
  downloadQueue (updateProgress e id data s) = downloadQueue s.
Proof.
  unfold updateProgress, broadcast, scheduleProgressCleanup.
  repeat case_match; reflexivity.
Qed.

Lemma updateProgress_activeProcesses :
  activeProcesses (updateProgress e id data s) = activeProcesses s.
Proof.
  unfold updateProgress, broadcast, scheduleProgressCleanup.
  repeat case_match; reflexivity.
Qed.

Lemma updateProgress_downloadTimeouts :
  downloadTimeouts (updateProgress e id data s) = downloadTimeouts s.
Proof.
  unfold updateProgress, broadcast, scheduleProgressCleanup.
  repeat case_match; reflexivity.
Qed.

Lemma updateProgress_jobs : jobs (updateProgress e id data s) = jobs s.
Proof.
  unfold updateProgress, broadcast, scheduleProgressCleanup.
  repeat case_match; reflexivity.
Qed.

Lemma updateProgress_issued : issued (updateProgress e id data s) = issued s.
Proof.
  unfold updateProgress, broadcast, scheduleProgressCleanup.
  repeat case_match; reflexivity.
Qed.

Lemma updateProgress_started :
  started_ids (effects (updateProgress e id data s)) = started_ids (effects s).
Proof.
  rewrite updateProgress_effects, started_ids_app.
  destruct (sseClients s !! id); [|by rewrite app_nil_r].
  rewrite started_ids_app, !started_ids_writes by done. by rewrite app_nil_r.
Qed.

Lemma updateProgress_queue_ids :
  queue_ids (updateProgress e id data s) = queue_ids s.
Proof. unfold queue_ids. by rewrite updateProgress_downloadQueue. Qed.
End updateProgress.

#[global] Hint Rewrite updateProgress_activeDownloads updateProgress_downloadQueue
  updateProgress_activeProcesses updateProgress_downloadTimeouts
  updateProgress_jobs updateProgress_issued updateProgress_started
  updateProgress_queue_ids started_ids_app : frame.

(** The progress record of another download is not touched. *)
Lemma updateProgress_other e id data s id' :
  id' ≠ id →
  downloadProgress (updateProgress e id data s) !! id' = downloadProgress s !! id'.
Proof. intros H. by rewrite updateProgress_store, lookup_insert_ne. Qed.

Lemma updateProgress_field e id data s f v :
  f ≠ "timestamp" → f ≠ "downloadId" → data !! f = Some v →
  field (updateProgress e id data s) id f = Some v.
Proof.
  intros H1 H2 H3. unfold field.
  rewrite updateProgress_store, lookup_insert_eq. simpl.
  rewrite newProgress_lookup.
  rewrite decide_False by done. rewrite decide_False by done. by rewrite H3.
Qed.

Lemma field_other e id data s id' f :
  id' ≠ id → field (updateProgress e id data s) id' f = field s id' f.
Proof. intros H. unfold field. by rewrite updateProgress_other. Qed.

(** The output handlers only call [updateProgress]. *)
Lemma video_onData_updated e id output l s :
  updated e id s (video_onData e id output l s).1.
Proof.
  unfold video_onData.
  destruct (is_cancelled _); [constructor|].
  destruct (date_now e - lastProgressUpdate l >? 500)%Z;
    [destruct (Output.match_percent output)|]; simpl;
    repeat (match goal with |- context [if ?c then _ else _] => destruct c end);
    repeat constructor.
Qed.

Lemma audio_onData_updated e id fmt output l s :
  updated e id s (audio_onData e id fmt output l s).1.
Proof.
  unfold audio_onData.
  destruct (is_cancelled _); [constructor|].
  destruct (Output.match_item output) as [[cur tot]|]; simpl;
  (destruct (date_now e - _ >? 500)%Z;
    [destruct (Output.match_percent output)|]; simpl;
    repeat (match goal with |- context [if ?c then _ else _] => destruct c end);
    repeat constructor).
Qed.

Lemma updated_frame e id s s' :
  updated e id s s' →
  activeDownloads s' = activeDownloads s ∧ downloadQueue s' = downloadQueue s
  ∧ activeProcesses s' = activeProcesses s
  ∧ downloadTimeouts s' = downloadTimeouts s ∧ jobs s' = jobs s
  ∧ issued s' = issued s
  ∧ started_ids (effects s') = started_ids (effects s)
  ∧ ∀ id', id' ≠ id → downloadProgress s' !! id' = downloadProgress s !! id'.
Proof.
  induction 1 as [|s s' data _ (?&?&?&?&?&?&?&IH)]; [done|].
  autorewrite with frame. split_and!; try done.
  intros id' Hne. rewrite updateProgress_other by done. by apply IH.
Qed.

(** [broadcastQueuePositions] *)
Section broadcast_from.
Context (e : Env).

Lemma broadcast_from_frame index items s :
  let s' := broadcast_from e index items s in
  activeDownloads s' = activeDownloads s ∧ downloadQueue s' = downloadQueue s
  ∧ activeProcesses s' = activeProcesses s
  ∧ downloadTimeouts s' = downloadTimeouts s ∧ jobs s' = jobs s
  ∧ issued s' = issued s
  ∧ started_ids (effects s') = started_ids (effects s).
Proof.
  revert index s. induction items as [|item rest IH]; intros index s; simpl.
  - done.
  - destruct (IH (S index)
      (updateProgress e (downloadId item) (queued_data (index + 1)) s))
      as (-> & -> & -> & -> & -> & -> & ->).
    by autorewrite with frame.
Qed.

Lemma broadcast_from_other index items s id :
  id ∉ (downloadId <$> items) →
  downloadProgress (broadcast_from e index items s) !! id = downloadProgress s !! id.
Proof.
  revert index s. induction items as [|item rest IH]; intros index s Hid; simpl.
  - done.
  - rewrite fmap_cons, not_elem_of_cons in Hid. destruct Hid as [Hne Hid].
    rewrite IH by done. by apply updateProgress_other.
Qed.
End broadcast_from.

Section broadcastQueuePositions.
Context (e : Env) (s : State).
Let s' := broadcastQueuePositions e s.

Lemma broadcast_activeDownloads : activeDownloads s' = activeDownloads s.
Proof. apply (broadcast_from_frame e 0 (downloadQueue s) s). Qed.
Lemma broadcast_downloadQueue : downloadQueue s' = downloadQueue s.
Proof. apply (broadcast_from_frame e 0 (downloadQueue s) s). Qed.
Lemma broadcast_activeProcesses : activeProcesses s' = activeProcesses s.
Proof. apply (broadcast_from_frame e 0 (downloadQueue s) s). Qed.
Lemma broadcast_downloadTimeouts : downloadTimeouts s' = downloadTimeouts s.
Proof. apply (broadcast_from_frame e 0 (downloadQueue s) s). Qed.
Lemma broadcast_jobs : jobs s' = jobs s.
Proof. apply (broadcast_from_frame e 0 (downloadQueue s) s). Qed.
Lemma broadcast_issued : issued s' = issued s.
Proof. apply (broadcast_from_frame e 0 (downloadQueue s) s). Qed.
Lemma broadcast_started : started_ids (effects s') = started_ids (effects s).
Proof. apply (broadcast_from_frame e 0 (downloadQueue s) s). Qed.
Lemma broadcast_queue_ids : queue_ids s' = queue_ids s.
Proof. unfold queue_ids. by rewrite broadcast_downloadQueue. Qed.
End broadcastQueuePositions.

#[global] Hint Rewrite broadcast_activeDownloads broadcast_downloadQueue
  broadcast_activeProcesses broadcast_downloadTimeouts broadcast_jobs
  broadcast_issued broadcast_started broadcast_queue_ids : frame.

Section processDownload.
Context (e : Env) (id : string) (o : Options) (s : State).
Let s' := processDownload e id o s.

Lemma processDownload_activeDownloads : activeDownloads s' = activeDownloads s.
Proof.
  subst s'. unfold processDownload, downloadVideo, downloadAudio, audio_begin.
  repeat case_match; by frame.
Qed.

Lemma processDownload_downloadQueue : downloadQueue s' = downloadQueue s.
Proof.
  subst s'. unfold processDownload, downloadVideo, downloadAudio, audio_begin.
  repeat case_match; by frame.
Qed.

Lemma processDownload_issued : issued s' = issued s.
Proof.
  subst s'. unfold processDownload, downloadVideo, downloadAudio, audio_begin.
  repeat case_match; by frame.
Qed.

Lemma processDownload_started :
  started_ids (effects s') = started_ids (effects s).
Proof.
  subst s'. unfold processDownload, downloadVideo, downloadAudio, audio_begin.
  repeat case_match; frame; by rewrite ?app_nil_r.
Qed.

Lemma processDownload_jobs : jobs s' = <[id := first_job e o]> (jobs s).
Proof.
  subst s'.
  unfold processDownload, downloadVideo, downloadAudio, audio_begin,
    first_job, first_phase, counts_first.
  destruct (type o); [by frame|].
  destruct (merge o), (Js.includes _ _); by frame.
Qed.

Lemma processDownload_downloadTimeouts :
  downloadTimeouts s' = <[id := true]> (downloadTimeouts s).
Proof.
  subst s'. unfold processDownload, downloadVideo, downloadAudio, audio_begin.
  repeat case_match; by frame.
Qed.

Lemma processDownload_activeProcesses :
  activeProcesses s' =
    if counts_first o then activeProcesses s
    else <[id := new_process
                   (match type o with
                    | video => None
                    | audio => if merge o then Some (sessionTempDir id) else None
                    end) e]> (activeProcesses s).
Proof.
  subst s'.
  unfold processDownload, downloadVideo, downloadAudio, audio_begin, counts_first.
  destruct (type o); [by frame|].
  destruct (merge o), (Js.includes _ _); by frame.
Qed.
End processDownload.
End Frames.

(** ** The admission queue: ceiling and order *)

Module Scheduler.
Import Frames.

Arguments obj : simpl never.
Arguments updateProgress : simpl never.
Arguments broadcastQueuePositions : simpl never.
Arguments processDownload : simpl never.

Lemma Inv_initial : Inv initial.
Proof. split; simpl; try done. apply NoDup_nil_2. Qed.

Lemma Inv_nodup_started_queue s :
  Inv s → NoDup (started_ids (effects s) ++ queue_ids s).
Proof. intros H. eapply sublist_NoDup; [apply H | apply H]. Qed.

Lemma queued_not_started s id :
  Inv s → id ∈ queue_ids s → id ∉ started_ids (effects s).
Proof.
  intros H Hq Hs. apply Inv_nodup_started_queue, NoDup_app in H as (_ & H & _).
  by apply (H id).
Qed.

Lemma queued_not_pending s id : Inv s → id ∈ queue_ids s → jobs s !! id = None.
Proof.
  intros H Hq. apply not_elem_of_dom. intros Hd.
  by apply (queued_not_started s id), (inv_jobs s H).
Qed.

Lemma pending_not_queued s id : Inv s → is_Some (jobs s !! id) → id ∉ queue_ids s.
Proof.
  intros H Hj Hq. apply (queued_not_pending s id H) in Hq.
  rewrite Hq in Hj. by destruct Hj.
Qed.

Lemma Inv_same_dom s s' :
  activeDownloads s' = activeDownloads s → queue_ids s' = queue_ids s →
  issued s' = issued s →
  started_ids (effects s') = started_ids (effects s) →
  dom (jobs s') = dom (jobs s) →
  dom (activeProcesses s') ⊆ dom (jobs s') →
  Inv s → Inv s'.
Proof.
  intros Ha Hq Hi Hs Hj Hp [Ia Ib If In Ij Ip].
  split.
  - rewrite Ha, Ia. f_equal. by rewrite <- !size_dom, Hj.
  - by rewrite Ha.
  - by rewrite Hs, Hq, Hi.
  - by rewrite Hi.
  - intros id. rewrite Hs, Hj. apply Ij.
  - done.
Qed.

Lemma Inv_updateProgress e id data s : Inv s → Inv (updateProgress e id data s).
Proof.
  intros H. apply (Inv_same_dom s); autorewrite with frame; try done. apply H.
Qed.

Lemma Inv_emit es s : started_ids es = [] → Inv s → Inv (emit es s).
Proof.
  intros Hes H. apply (Inv_same_dom s); simpl; try done; [|apply H].
  by rewrite started_ids_app, Hes, app_nil_r.
Qed.

Lemma Inv_set_downloadTimeouts f s : Inv s → Inv (set_downloadTimeouts f s).
Proof. intros H. apply (Inv_same_dom s); simpl; try done. apply H. Qed.

Lemma Inv_set_jobs id j s :
  is_Some (jobs s !! id) → Inv s → Inv (set_jobs (insert id j) s).
Proof.
  intros Hj H. apply elem_of_dom in Hj.
  apply (Inv_same_dom s); simpl; try done; rewrite dom_insert_L;
    [set_solver | pose proof (inv_procs s H); set_solver].
Qed.

Lemma Inv_set_activeProcesses id info s :
  is_Some (jobs s !! id) → Inv s → Inv (set_activeProcesses (insert id info) s).
Proof.
  intros Hj H. apply elem_of_dom in Hj.
  apply (Inv_same_dom s); simpl; try done. rewrite dom_insert_L.
  pose proof (inv_procs s H). set_solver.
Qed.

(** One turn of the loop of [processQueue]. *)
Lemma admit_one_queue e item s :
  downloadQueue (admit_one e item s) = drop 1 (downloadQueue s).
Proof. unfold admit_one. rewrite processDownload_downloadQueue. by frame. Qed.

Lemma Inv_admit_one e item rest s :
  downloadQueue s = item :: rest →
  (activeDownloads s < CONFIG.MAX_CONCURRENT_DOWNLOADS)%Z →
  Inv s → Inv (admit_one e item s).
Proof.
  intros Hq Hlt H.
  assert (jobs s !! downloadId item = None) as Hnone.
  { apply queued_not_pending; [done|]. unfold queue_ids. rewrite Hq. set_solver. }
  destruct H as [Ha Hb Hf Hn Hj Hp]. unfold admit_one.
  split.
  - rewrite processDownload_activeDownloads, processDownload_jobs. frame.
    rewrite map_size_insert_None by done. lia.
  - rewrite processDownload_activeDownloads. frame. lia.
  - rewrite processDownload_started, processDownload_issued. frame.
    unfold queue_ids in *. rewrite processDownload_downloadQueue. frame.
    rewrite Hq in *. simpl in *. by rewrite <- app_assoc.
  - rewrite processDownload_issued. by frame.
  - rewrite processDownload_started, processDownload_jobs. frame.
    intros id. rewrite dom_insert_L, elem_of_union, elem_of_singleton.
    intros [->|Hid]; [set_solver|]. apply elem_of_app. left. by apply Hj.
  - rewrite processDownload_activeProcesses, processDownload_jobs. frame.
    destruct (counts_first (task item)); rewrite ?dom_insert_L; set_solver.
Qed.

Lemma processQueue_loop_Inv e items s :
  downloadQueue s = items → Inv s → Inv (processQueue_loop e items s).
Proof.
  revert s. induction items as [|item rest IH]; intros s Hq H; simpl; [done|].
  destruct (activeDownloads s <? CONFIG.MAX_CONCURRENT_DOWNLOADS)%Z eqn:Hlt;
    [|done].
  apply Z.ltb_lt in Hlt.
  apply (IH (admit_one e item s)).
  - by rewrite admit_one_queue, Hq.
  - by eapply Inv_admit_one.
Qed.

Lemma processQueue_Inv e s : Inv s → Inv (processQueue e s).
Proof. by apply processQueue_loop_Inv. Qed.

(** The loop starts the head of the queue, as many entries as there are
    free slots, and nothing else. *)
Lemma processQueue_loop_heads e items s :
  downloadQueue s = items →
  let free := Z.to_nat (CONFIG.MAX_CONCURRENT_DOWNLOADS - activeDownloads s) in
  let s' := processQueue_loop e items s in
  started_ids (effects s') = started_ids (effects s) ++ (downloadId <$> take free items)
  ∧ downloadQueue s' = drop free items
  ∧ activeDownloads s' = (activeDownloads s + Z.of_nat (length (take free items)))%Z
  ∧ issued s' = issued s.
Proof.
  revert s. induction items as [|item rest IH]; intros s Hq; simpl.
  { rewrite take_nil, drop_nil, app_nil_r. simpl. split_and!; [done..|lia|done]. }
  destruct (activeDownloads s <? CONFIG.MAX_CONCURRENT_DOWNLOADS)%Z eqn:Hlt.
  - apply Z.ltb_lt in Hlt.
    set (s1 := processDownload _ _ _ _).
    assert (downloadQueue s1 = rest) as Hq1.
    { subst s1. rewrite processDownload_downloadQueue. frame. by rewrite Hq. }
    assert (activeDownloads s1 = (activeDownloads s + 1)%Z) as Ha1.
    { subst s1. rewrite processDownload_activeDownloads. by frame. }
    destruct (IH s1 Hq1) as (E1 & E2 & E3 & E4).
    rewrite Ha1 in *.
    replace (Z.to_nat (CONFIG.MAX_CONCURRENT_DOWNLOADS - activeDownloads s))
      with (S (Z.to_nat (CONFIG.MAX_CONCURRENT_DOWNLOADS - (activeDownloads s + 1))))
      by lia.
    simpl. rewrite E1, E2, E3, E4.
    subst s1. rewrite processDownload_started, processDownload_issued. frame.
    rewrite <- app_assoc. simpl. split_and!; [done..|lia|done].
  - apply Z.ltb_ge in Hlt.
    replace (Z.to_nat (CONFIG.MAX_CONCURRENT_DOWNLOADS - activeDownloads s))
      with 0 by lia.
    simpl. rewrite app_nil_r. split_and!; [done..|lia|done].
Qed.
End Scheduler.

Module SchedulerSteps.
Import Frames Scheduler.

Arguments obj : simpl never.
Arguments updateProgress : simpl never.
Arguments broadcastQueuePositions : simpl never.
Arguments processDownload : simpl never.
Arguments processQueue : simpl never.

Lemma settle_Inv e id outcome s :
  is_Some (jobs s !! id) → Inv s → Inv (settle e id outcome s).
Proof.
  intros Hj H. unfold settle.
  apply processQueue_Inv.
  set (s1 := match outcome with Some _ => _ | None => _ end).
  assert (Inv s1 ∧ jobs s1 = jobs s) as [[Ha Hb Hf Hn Hjs Hp] Hj1].
  { subst s1. destruct outcome as [err|]; [|done].
    destruct (negb _); [|done].
    split; [by apply Inv_updateProgress | by frame]. }
  rewrite <- Hj1 in Hj. apply elem_of_dom in Hj.
  split; simpl.
  - rewrite map_size_delete_Some by by apply elem_of_dom.
    assert (size (jobs s1) ≠ 0).
    { intros Hz. apply map_size_empty_iff in Hz. rewrite Hz in Hj. set_solver. }
    lia.
  - lia.
  - done.
  - done.
  - intros id'. rewrite dom_delete_L. set_solver.
  - rewrite !dom_delete_L. set_solver.
Qed.

Lemma audio_begin_Inv e id o s :
  is_Some (jobs s !! id) → Inv s → Inv (audio_begin e id o s).
Proof.
  intros Hj H. unfold audio_begin.
  apply Inv_set_jobs; [by frame; destruct (merge o); frame|].
  apply Inv_set_activeProcesses; [by frame; destruct (merge o); frame|].
  apply Inv_emit; [done|]. apply Inv_updateProgress.
  destruct (merge o); [by apply Inv_emit | done].
Qed.

Lemma finish_merge_Inv e id f s :
  is_Some (jobs s !! id) → Inv s → Inv (finish_merge e id f s).
Proof.
  intros Hj H. unfold finish_merge.
  destruct (merged_stat e).
  - apply settle_Inv; [by frame|].
    do 2 apply Inv_updateProgress. by apply Inv_emit.
  - apply settle_Inv; [by frame|].
    apply Inv_emit; [done|]. apply Inv_updateProgress. by apply Inv_emit.
Qed.

Lemma mergeAudioFiles_Inv e id inDir outDir o s s' r :
  mergeAudioFiles e id inDir outDir o s = (s', r) →
  is_Some (jobs s !! id) → Inv s → Inv s' ∧ jobs s' = jobs s.
Proof.
  unfold mergeAudioFiles. intros E Hj H.
  repeat case_match; simplify_eq; try done.
  - split; [by apply Inv_emit | done].
  - split; [|done].
    apply (Inv_same_dom s); simpl; try done.
    + by rewrite started_ids_app, app_nil_r.
    + rewrite dom_alter_L. apply H.
Qed.

Lemma api_cancel_Inv e id s : Inv s → Inv (api_cancel e id s).1.
Proof.
  intros H. unfold api_cancel, removeFromQueue.
  destruct (list_find _ _) as [[index item]|] eqn:Ef; simpl.
  - apply Inv_updateProgress.
    destruct H as [Ha Hb Hf Hn Hj Hp].
    split; frame; try done.
    unfold queue_ids in *. frame.
    etrans; [|exact Hf]. apply sublist_app; [done|].
    rewrite list_fmap_delete. apply sublist_delete.
  - destruct (activeProcesses s !! id) as [info|] eqn:Ep; simpl; [|done].
    assert (is_Some (jobs s !! id)) as Hj.
    { apply elem_of_dom, (inv_procs s H), elem_of_dom. by rewrite Ep. }
    apply Inv_updateProgress, Inv_set_downloadTimeouts, Inv_emit.
    + unfold kill_effects, cleanup_effects.
      rewrite !started_ids_app. by repeat case_match.
    + by apply Inv_set_activeProcesses.
Qed.

Lemma download_timeout_Inv e id s : Inv s → Inv (download_timeout e id s).
Proof.
  intros H. unfold download_timeout. simpl.
  destruct (activeProcesses s !! id) as [info|] eqn:Ep;
    [|by apply Inv_set_downloadTimeouts].
  destruct (cancelled info); [by apply Inv_set_downloadTimeouts|].
  assert (is_Some (jobs s !! id)) as Hj.
  { apply elem_of_dom, (inv_procs s H), elem_of_dom. by rewrite Ep. }
  apply Inv_updateProgress, Inv_emit.
  + unfold kill_effects, cleanup_effects.
    rewrite !started_ids_app. by repeat case_match.
  + apply Inv_set_activeProcesses; [done|]. by apply Inv_set_downloadTimeouts.
Qed.

Lemma api_download_Inv e id o custom s :
  id ∉ issued s → Inv s → Inv (api_download e id o custom s).
Proof.
  intros Hfresh [Ha Hb Hf Hn Hj Hp]. unfold api_download, enqueueDownload.
  apply processQueue_Inv, Inv_emit; [done|]. apply Inv_updateProgress.
  split; frame; try done.
  - unfold queue_ids in *. frame. rewrite fmap_app, app_assoc. simpl.
    by apply sublist_app.
  - apply NoDup_app. split_and!; [done| |apply NoDup_singleton].
    intros x Hx ?%list_elem_of_singleton. by subst.
Qed.

Lemma updated_Inv e id s s' : updated e id s s' → Inv s → Inv s'.
Proof. induction 1; [done|]. intros. by apply Inv_updateProgress, IHupdated. Qed.

Lemma on_stdout_Inv e id output j l s :
  jobs s !! id = Some j → Inv s → Inv (on_stdout e id output j l s).
Proof.
  intros Hj H. unfold on_stdout.
  destruct (type (options j)).
  - pose proof (video_onData_updated e id output l s) as Hu.
    destruct (video_onData e id output l s) as [s' l']. simpl in Hu.
    apply Inv_set_jobs; [|by eapply updated_Inv].
    apply updated_frame in Hu as (_&_&_&_&->&_). by rewrite Hj.
  - pose proof (audio_onData_updated e id (format (options j)) output l s) as Hu.
    destruct (audio_onData e id _ output l s) as [s' l']. simpl in Hu.
    apply Inv_set_jobs; [|by eapply updated_Inv].
    apply updated_frame in Hu as (_&_&_&_&->&_). by rewrite Hj.
Qed.

Lemma close_Inv e id code j s :
  jobs s !! id = Some j → Inv s →
  Inv (match type (options j) with
       | video => video_onClose e id code (options j) s
       | audio => audio_onClose e id code j s
       end).
Proof.
  intros Hj H. assert (is_Some (jobs s !! id)) as Hs by by rewrite Hj.
  destruct (type (options j)).
  - unfold video_onClose. repeat case_match.
    + by apply settle_Inv.
    + apply settle_Inv; [by frame|]. by do 2 apply Inv_updateProgress.
    + by apply settle_Inv.
  - unfold audio_onClose.
    destruct (is_cancelled _); [apply settle_Inv; [done|by apply Inv_emit]|].
    destruct (negb _); [apply settle_Inv; [done|by apply Inv_emit]|].
    destruct (merge (options j)).
    + destruct (mergeAudioFiles _ _ _ _ _ _) as [s2 r] eqn:Em.
      apply mergeAudioFiles_Inv in Em as [H2 Hj2];
        [|by frame|by apply Inv_updateProgress].
      assert (is_Some (jobs s2 !! id)) as Hs2 by (rewrite Hj2; by frame).
      destruct r.
      * apply settle_Inv; [done | by apply Inv_emit].
      * by apply finish_merge_Inv.
      * by apply Inv_set_jobs.
    + apply settle_Inv; [by frame|]. by do 2 apply Inv_updateProgress.
Qed.

(** Every callback keeps the invariant. *)
Lemma step_Inv e ev s s' : step e ev s = Some s' → Inv s → Inv s'.
Proof.
  intros Hstep H. destruct ev; simpl in Hstep.
  - case_bool_decide; [done|]. simplify_eq. by apply api_download_Inv.
  - simplify_eq. by apply api_cancel_Inv.
  - simplify_eq. unfold api_progress. case_bool_decide.
    + apply (Inv_same_dom s); simpl; try done; [|apply H].
      by rewrite started_ids_app, app_nil_r.
    + apply (Inv_same_dom s); simpl; try done; [|apply H].
      by rewrite started_ids_app, app_nil_r.
  - simplify_eq. unfold cleanupSSEClient. repeat case_match; try done;
      apply (Inv_same_dom s); simpl; try done; apply H.
  - destruct (jobs s !! id) as [j|] eqn:Hj; [|done].
    destruct (phase j); simplify_eq. apply Inv_set_jobs; [by rewrite Hj | done].
  - destruct (jobs s !! id) as [j|] eqn:Hj; [|done].
    destruct (phase j); simplify_eq.
    assert (is_Some (jobs s !! id)) as Hs by by rewrite Hj.
    unfold count_onClose. repeat case_match.
    + apply settle_Inv; [done | by apply Inv_emit].
    + by apply audio_begin_Inv.
    + by apply audio_begin_Inv.
  - destruct (jobs s !! id) as [j|] eqn:Hj; [|done].
    destruct (phase j); simplify_eq.
    apply audio_begin_Inv; [by rewrite Hj | done].
  - destruct (jobs s !! id) as [j|] eqn:Hj; [|done].
    destruct (phase j); simplify_eq. by apply on_stdout_Inv.
  - destruct (jobs s !! id) as [j|] eqn:Hj; [|done].
    destruct (phase j); simplify_eq. by apply close_Inv.
  - destruct (jobs s !! id) as [j|] eqn:Hj; [|done].
    destruct (phase j); simplify_eq.
    assert (is_Some (jobs s !! id)) as Hs by by rewrite Hj.
    unfold worker_onError. destruct (type (options j)).
    + by apply settle_Inv.
    + apply settle_Inv; [done | by apply Inv_emit].
  - destruct (jobs s !! id) as [j|] eqn:Hj; [|done].
    destruct (phase j); simplify_eq.
    assert (is_Some (jobs s !! id)) as Hs by by rewrite Hj.
    unfold ffmpeg_onClose. case_bool_decide.
    + by apply finish_merge_Inv.
    + apply settle_Inv; [done | by apply Inv_emit].
  - destruct (jobs s !! id) as [j|] eqn:Hj; [|done].
    destruct (phase j); simplify_eq.
    apply settle_Inv; [simpl; by rewrite Hj | by apply Inv_emit].
  - destruct (downloadTimeouts s !! id) as [[|]|]; simplify_eq.
    by apply download_timeout_Inv.
  - destruct (progressCleanupTimers s !! id); simplify_eq.
    unfold progressCleanup.
    apply (Inv_same_dom s); simpl; try done. apply H.
Qed.

Lemma run_Inv evs s s' : run evs s = Some s' → Inv s → Inv s'.
Proof.
  revert s. induction evs as [|[e ev] evs IH]; intros s Hrun H; simpl in Hrun.
  - by simplify_eq.
  - destruct (step e ev s) as [s1|] eqn:E; [|done].
    eapply IH; [done|]. by eapply step_Inv.
Qed.

Lemma reachable_Inv evs s : run evs initial = Some s → Inv s.
Proof. intros H. eapply run_Inv; [done | apply Inv_initial]. Qed.
End SchedulerSteps.

Module Admission.
Import Frames Scheduler SchedulerSteps.

Lemma sublist_order {A} (l k : list A) a b i j :
  l `sublist_of` k → l !! i = Some a → l !! j = Some b → i < j →
  ∃ i' j', k !! i' = Some a ∧ k !! j' = Some b ∧ i' < j'.
Proof.
  intros H. revert i j.
  induction H as [|x l1 l2 Hs IH|x l1 l2 Hs IH]; intros i j Hi Hj Hlt.
  - done.
  - destruct i as [|i], j as [|j]; try lia; simpl in *.
    + simplify_eq.
      assert (b ∈ l2) as Hb.
      { eapply elem_of_sublist; [|done]. by eapply list_elem_of_lookup_2. }
      apply list_elem_of_lookup_1 in Hb as [j' Hj'].
      exists 0, (S j'). split_and!; [done..|lia].
    + destruct (IH i j) as (i' & j' & ? & ? & ?); [done..|lia|].
      exists (S i'), (S j'). split_and!; [done..|lia].
  - destruct (IH i j) as (i' & j' & ? & ? & ?); [done..|].
    exists (S i'), (S j'). split_and!; [done..|lia].
Qed.

(** C1.  In every state that the server reaches from its start, the
    counter of active downloads equals the number of started tasks
    whose promise is pending and does not exceed
    MAX_CONCURRENT_DOWNLOADS = 2; tasks are started in the order of
    submission: of two started downloads the one started first was
    submitted first, and every started download was submitted before
    every download still waiting in the queue.  Whenever [processQueue]
    runs, in any state, it starts the entries at the head of the queue,
    one per free slot and in queue order, and leaves the others queued. *)
Theorem admission_bounded_and_fifo evs s :
  run evs initial = Some s →
  (activeDownloads s = Z.of_nat (size (jobs s))
   ∧ (activeDownloads s ≤ CONFIG.MAX_CONCURRENT_DOWNLOADS)%Z
   ∧ CONFIG.MAX_CONCURRENT_DOWNLOADS = 2%Z)
  ∧ (∀ a b, started_before s a b → submitted_before s a b)
  ∧ (∀ a b, a ∈ started_ids (effects s) → b ∈ queue_ids s →
            submitted_before s a b)
  ∧ (∀ e s0,
       started_ids (effects (processQueue e s0))
       = started_ids (effects s0) ++ take (free_slots s0) (queue_ids s0)
       ∧ queue_ids (processQueue e s0) = drop (free_slots s0) (queue_ids s0)).
Proof.
  intros Hrun. pose proof (reachable_Inv evs s Hrun) as [Ha Hb Hf Hn Hj Hp].
  split_and!; try done.
  - intros a b (i & j & Hi & Hj' & Hlt).
    eapply (sublist_order _ _ a b i j Hf); [| |done].
    + by apply lookup_app_l_Some.
    + by apply lookup_app_l_Some.
  - intros a b Hsa Hqb.
    apply list_elem_of_lookup_1 in Hsa as [i Hi].
    apply list_elem_of_lookup_1 in Hqb as [j Hj'].
    eapply (sublist_order _ _ a b i (length (started_ids (effects s)) + j) Hf).
    + by apply lookup_app_l_Some.
    + rewrite lookup_app_r by lia.
      by replace (length (started_ids (effects s)) + j
                  - length (started_ids (effects s))) with j by lia.
    + apply lookup_lt_Some in Hi. lia.
  - intros e s0.
    destruct (processQueue_loop_heads e (downloadQueue s0) s0 eq_refl)
      as (E1 & E2 & _).
    unfold processQueue, queue_ids, free_slots.
    by rewrite E1, E2, fmap_take, fmap_drop.
Qed.

(** The scenario of three submissions: two run, the third waits at
    position 1. *)
Lemma three_submissions_observed :
  Sample.observe (run Sample.three_submissions initial) "job3"
  = Some (2%Z, ["job1"; "job2"], ["job3"], Some "queued", Some 0%Q, Some (VNum 1)).
Proof. vm_compute. reflexivity. Qed.

Lemma three_submissions_run :
  ∃ s, run Sample.three_submissions initial = Some s
       ∧ activeDownloads s = 2%Z
       ∧ started_ids (effects s) = ["job1"; "job2"]
       ∧ queue_ids s = ["job3"].
Proof.
  pose proof three_submissions_observed as H.
  destruct (run Sample.three_submissions initial) as [s|]; [|done].
  exists s. simpl in H. by simplify_eq.
Qed.

Lemma admission_bounded_and_fifo_witness :
  ∃ s, run Sample.three_submissions initial = Some s
       ∧ (activeDownloads s ≤ CONFIG.MAX_CONCURRENT_DOWNLOADS)%Z
       ∧ submitted_before s "job1" "job3".
Proof.
  destruct three_submissions_run as (s & Hrun & _ & Hst & Hq).
  exists s. split; [exact Hrun|].
  destruct (admission_bounded_and_fifo _ _ Hrun) as ((_ & Hb & _) & _ & H & _).
  split; [exact Hb|]. apply H; [rewrite Hst | rewrite Hq]; constructor.
Defined.
End Admission.

(** ** The admission line across callbacks *)

Module Line.
Import Frames Scheduler.

Arguments obj : simpl never.
Arguments updateProgress : simpl never.
Arguments broadcastQueuePositions : simpl never.
Arguments processDownload : simpl never.
Arguments processQueue : simpl never.
Arguments settle : simpl never.
Arguments line : simpl never.

Lemma line_updateProgress e id data s : line (updateProgress e id data s) = line s.
Proof. unfold line. by frame. Qed.

Lemma line_emit es s : started_ids es = [] → line (emit es s) = line s.
Proof. intros H. unfold line. simpl. by rewrite started_ids_app, H, app_nil_r. Qed.

Lemma line_set_activeDownloads f s : line (set_activeDownloads f s) = line s.
Proof. done. Qed.
Lemma line_set_downloadProgress f s : line (set_downloadProgress f s) = line s.
Proof. done. Qed.
Lemma line_set_sseClients f s : line (set_sseClients f s) = line s.
Proof. done. Qed.
Lemma line_set_activeProcesses f s : line (set_activeProcesses f s) = line s.
Proof. done. Qed.
Lemma line_set_downloadTimeouts f s : line (set_downloadTimeouts f s) = line s.
Proof. done. Qed.
Lemma line_set_progressCleanupTimers f s :
  line (set_progressCleanupTimers f s) = line s.
Proof. done. Qed.
Lemma line_set_jobs f s : line (set_jobs f s) = line s.
Proof. done. Qed.

Lemma line_processQueue e s : line (processQueue e s) = line s.
Proof.
  destruct (processQueue_loop_heads e (downloadQueue s) s eq_refl)
    as (E1 & E2 & _).
  unfold line, processQueue, queue_ids. rewrite E1, E2.
  by rewrite <- app_assoc, <- fmap_app, take_drop.
Qed.

Lemma issued_processQueue e s : issued (processQueue e s) = issued s.
Proof. apply (processQueue_loop_heads e (downloadQueue s) s eq_refl). Qed.

#[global] Hint Rewrite line_updateProgress line_set_activeDownloads
  line_set_downloadProgress line_set_sseClients line_set_activeProcesses
  line_set_downloadTimeouts line_set_progressCleanupTimers line_set_jobs
  line_processQueue issued_processQueue : frame.
#[global] Hint Rewrite line_emit using done : frame.

Lemma line_settle e id outcome s : line (settle e id outcome s) = line s.
Proof. unfold settle. repeat case_match; by frame. Qed.

Lemma issued_settle e id outcome s : issued (settle e id outcome s) = issued s.
Proof. unfold settle. repeat case_match; by frame. Qed.

#[global] Hint Rewrite line_settle issued_settle : frame.

Lemma line_audio_begin e id o s : line (audio_begin e id o s) = line s.
Proof. unfold audio_begin. repeat case_match; by frame. Qed.

Lemma issued_audio_begin e id o s : issued (audio_begin e id o s) = issued s.
Proof. unfold audio_begin. repeat case_match; by frame. Qed.

#[global] Hint Rewrite line_audio_begin issued_audio_begin : frame.

Lemma line_mergeAudioFiles e id inDir outDir o s :
  line (mergeAudioFiles e id inDir outDir o s).1 = line s.
Proof. unfold mergeAudioFiles. repeat case_match; by frame. Qed.

Lemma issued_mergeAudioFiles e id inDir outDir o s :
  issued (mergeAudioFiles e id inDir outDir o s).1 = issued s.
Proof. unfold mergeAudioFiles. repeat case_match; by frame. Qed.

Lemma line_finish_merge e id f s : line (finish_merge e id f s) = line s.
Proof. unfold finish_merge. repeat case_match; by frame. Qed.

Lemma issued_finish_merge e id f s : issued (finish_merge e id f s) = issued s.
Proof. unfold finish_merge. repeat case_match; by frame. Qed.

#[global] Hint Rewrite line_finish_merge issued_finish_merge : frame.

Lemma line_kill id info : started_ids (kill_effects id info ++ cleanup_effects info) = [].
Proof.
  unfold kill_effects, cleanup_effects. rewrite !started_ids_app.
  by repeat case_match.
Qed.

(** How one callback changes the line and the issued identifiers. *)
Lemma step_line e ev s s' :
  step e ev s = Some s' →
  match ev with
  | Submit id _ _ =>
      (id ∉ issued s) ∧ issued s' = issued s ++ [id] ∧ line s' = line s ++ [id]
  | CancelRequest id => issued s' = issued s ∧ line s' `sublist_of` line s
  | _ => issued s' = issued s ∧ line s' = line s
  end.
Proof.
  intros Hstep. destruct ev; simpl in Hstep.
  - case_bool_decide; [done|]. simplify_eq.
    unfold api_download, enqueueDownload. frame.
    split_and!; [done..|].
    unfold line, queue_ids. frame. by rewrite fmap_app, app_assoc.
  - simplify_eq. unfold api_cancel, removeFromQueue.
    destruct (list_find _ _) as [[index item]|] eqn:Ef; simpl.
    + frame. split; [done|].
      unfold line, queue_ids. frame. apply sublist_app; [done|].
      rewrite list_fmap_delete. apply sublist_delete.
    + destruct (activeProcesses s !! id); simpl; [|done].
      frame. rewrite line_emit by apply line_kill. by frame.
  - simplify_eq. unfold api_progress. case_bool_decide; by frame.
  - simplify_eq. unfold cleanupSSEClient. by repeat case_match.
  - repeat case_match; by simplify_eq.
  - repeat case_match; simplify_eq; try done.
    unfold count_onClose. repeat case_match; by frame.
  - repeat case_match; simplify_eq; try done. by frame.
  - destruct (jobs s !! id) as [j|]; [|done].
    destruct (phase j) as [|l|]; simplify_eq.
    unfold on_stdout. destruct (type (options j)).
    + pose proof (video_onData_updated e id output l s) as Hu.
      destruct (video_onData e id output l s) as [s1 l1]. simpl in Hu.
      apply updated_frame in Hu as (_&Hq&_&_&_&Hi&Hs&_).
      unfold line, queue_ids. simpl. by rewrite Hq, Hi, Hs.
    + pose proof (audio_onData_updated e id (format (options j)) output l s) as Hu.
      destruct (audio_onData e id _ output l s) as [s1 l1]. simpl in Hu.
      apply updated_frame in Hu as (_&Hq&_&_&_&Hi&Hs&_).
      unfold line, queue_ids. simpl. by rewrite Hq, Hi, Hs.
  - repeat case_match; simplify_eq; try done.
    + unfold video_onClose. repeat case_match; by frame.
    + unfold audio_onClose.
      pose proof (line_mergeAudioFiles e id (sessionTempDir id) downloadsDir
        (options j) (updateProgress e id
          (obj [("status", VStr "merging_playlist"); ("progress", VNum 95);
                ("message", VMsg (MsgText "Menggabungkan file audio playlist..."))]) s))
        as Hl.
      pose proof (issued_mergeAudioFiles e id (sessionTempDir id) downloadsDir
        (options j) (updateProgress e id
          (obj [("status", VStr "merging_playlist"); ("progress", VNum 95);
                ("message", VMsg (MsgText "Menggabungkan file audio playlist..."))]) s))
        as Hi.
      destruct (mergeAudioFiles _ _ _ _ _ _) as [s2 r]. simpl in Hl, Hi.
      repeat case_match; simplify_eq; frame;
        rewrite ?line_finish_merge, ?issued_finish_merge, ?Hl, ?Hi; frame;
        by rewrite ?Hl, ?Hi; frame.
  - repeat case_match; simplify_eq; try done.
    unfold worker_onError. repeat case_match; by frame.
  - repeat case_match; simplify_eq; try done.
    unfold ffmpeg_onClose. repeat case_match;
      rewrite ?line_finish_merge, ?issued_finish_merge; by frame.
  - repeat case_match; simplify_eq; try done. by frame.
  - repeat case_match; simplify_eq; try done.
    unfold download_timeout. simpl. repeat case_match; frame; try done.
    rewrite line_emit by apply line_kill. by frame.
  - repeat case_match; simplify_eq; done.
Qed.

(** A download that has left the line never comes back: identifiers are
    not issued twice and only [enqueueDownload] extends the queue. *)
Lemma run_absent evs s s' x :
  run evs s = Some s' → x ∈ issued s → x ∉ line s →
  x ∈ issued s' ∧ x ∉ line s'.
Proof.
  revert s. induction evs as [|[e ev] evs IH]; intros s Hrun Hi Hl; simpl in Hrun.
  - by simplify_eq.
  - destruct (step e ev s) as [s1|] eqn:E; [|done].
    apply step_line in E. apply (IH s1 Hrun).
    + destruct ev; destruct E as (E1 & E2); try by rewrite E1.
      destruct E2 as [-> _]. set_solver.
    + destruct ev; destruct E as (E1 & E2); try by rewrite E2.
      * destruct E2 as [_ ->]. rewrite elem_of_app, list_elem_of_singleton.
        intros [?| ->]; done.
      * intros Hx. apply Hl. by eapply elem_of_sublist.
Qed.
End Line.

(** ** Cancelling a queued download *)

Module CancelQueued.
Import Frames Scheduler SchedulerSteps Line.

Arguments obj : simpl never.
Arguments updateProgress : simpl never.

Lemma NoDup_delete_lookup {A} (l : list A) i x :
  NoDup l → l !! i = Some x → x ∉ delete i l.
Proof.
  intros Hn Hi. rewrite <- (take_drop_middle l i x Hi) in Hn.
  rewrite delete_take_drop.
  apply NoDup_app in Hn as (_ & H1 & H2). apply NoDup_cons in H2 as [H2 _].
  rewrite elem_of_app. intros [H|H]; [|done].
  apply (H1 x H). set_solver.
Qed.

Lemma field_queued e id n s :
  field (updateProgress e id (queued_data n) s) id "queuePosition"
    = Some (VNum (inject_Z (Z.of_nat n)))
  ∧ status_of (updateProgress e id (queued_data n) s) id = Some "queued".
Proof.
  split.
  - by apply updateProgress_field.
  - unfold status_of.
    by rewrite (updateProgress_field _ _ _ _ "status" (VStr "queued")).
Qed.

(** After the broadcast every queued download carries its position. *)
Lemma broadcast_from_positions e index items s k item :
  NoDup (downloadId <$> items) → items !! k = Some item →
  let s' := broadcast_from e index items s in
  field s' (downloadId item) "queuePosition"
    = Some (VNum (inject_Z (Z.of_nat (index + k + 1))))
  ∧ status_of s' (downloadId item) = Some "queued".
Proof.
  revert index s k. induction items as [|item0 rest IH];
    intros index s k Hn Hk; [done|].
  rewrite fmap_cons in Hn. apply NoDup_cons in Hn as [Hn0 Hn].
  destruct k as [|k]; simpl in *.
  - simplify_eq. unfold status_of, field.
    rewrite broadcast_from_other by done.
    replace (index + 0 + 1) with (index + 1) by lia.
    apply field_queued.
  - destruct (IH (S index)
      (updateProgress e (downloadId item0) (queued_data (index + 1)) s) k Hn Hk)
      as [H1 H2].
    by replace (index + S k + 1) with (S index + k + 1) by lia.
Qed.

Lemma removeFromQueue_found e id s index :
  NoDup (queue_ids s) → queue_ids s !! index = Some id →
  removeFromQueue e id s
  = (true, broadcastQueuePositions e (set_downloadQueue (delete index) s)).
Proof.
  intros Hn Hi. unfold removeFromQueue, queue_ids in *.
  rewrite list_lookup_fmap in Hi.
  destruct (downloadQueue s !! index) as [item|] eqn:Hitem; [|done].
  simpl in Hi. simplify_eq.
  assert (list_find (λ item0, downloadId item0 = downloadId item) (downloadQueue s)
          = Some (index, item)) as ->; [|done].
  apply list_find_Some. split_and!; [done..|].
  intros j y Hy Hlt Heq.
  assert (j = index); [|lia].
  eapply NoDup_lookup; [exact Hn| |].
  - by rewrite list_lookup_fmap, Hy.
  - rewrite list_lookup_fmap, Hitem. simpl. by rewrite Heq.
Qed.

Lemma removeFromQueue_absent e id s :
  id ∉ queue_ids s → removeFromQueue e id s = (false, s).
Proof.
  intros Hq. unfold removeFromQueue.
  destruct (list_find _ _) as [[index item]|] eqn:Ef; [|done].
  apply list_find_Some in Ef as (Hi & <- & _).
  destruct Hq. unfold queue_ids. apply list_elem_of_fmap.
  exists item. split; [done|]. by eapply list_elem_of_lookup_2.
Qed.

(** C7.  In a state that the server reaches, cancelling a download that
    waits at index [index] of the queue removes exactly that entry and
    reports the removal; a download that is not queued is reported as
    not removed and nothing changes.  After the removal every entry that
    remains carries its 1-based position in its progress record; the
    entries in front keep their index and the entries behind move up by
    one.  The task of the removed entry is never started, whatever
    happens afterwards. *)
Theorem cancel_queued_download evs s e id index :
  run evs initial = Some s →
  queue_ids s !! index = Some id →
  let s' := (removeFromQueue e id s).2 in
  (removeFromQueue e id s).1 = true
  ∧ downloadQueue s' = delete index (downloadQueue s)
  ∧ (id ∉ queue_ids s')
  ∧ (∀ k id', queue_ids s' !! k = Some id' →
       field s' id' "queuePosition" = Some (VNum (inject_Z (Z.of_nat (k + 1))))
       ∧ status_of s' id' = Some "queued")
  ∧ (∀ k id', k < index → queue_ids s !! k = Some id' →
       queue_ids s' !! k = Some id')
  ∧ (∀ k id', index < k → queue_ids s !! k = Some id' →
       queue_ids s' !! (k - 1) = Some id')
  ∧ (∀ other, other ∉ queue_ids s → removeFromQueue e other s = (false, s))
  ∧ (∀ evs' s'', run evs' s' = Some s'' → id ∉ started_ids (effects s'')).
Proof.
  intros Hrun Hi s'. pose proof (reachable_Inv evs s Hrun) as HI.
  pose proof (Inv_nodup_started_queue s HI) as Hnd.
  assert (NoDup (queue_ids s)) as Hnq by by apply NoDup_app in Hnd as (_ & _ & ?).
  subst s'. rewrite (removeFromQueue_found e id s index Hnq Hi). simpl.
  assert (queue_ids (broadcastQueuePositions e (set_downloadQueue (delete index) s))
          = delete index (queue_ids s)) as Hq.
  { unfold queue_ids. frame. by rewrite list_fmap_delete. }
  split; [done|]. split; [by frame|].
  split; [rewrite Hq; by apply NoDup_delete_lookup|].
  split.
  { intros k id' Hk. rewrite Hq in Hk.
    unfold broadcastQueuePositions. simpl.
    unfold queue_ids in Hk.
    rewrite <- list_fmap_delete, list_lookup_fmap in Hk.
    destruct (delete index (downloadQueue s) !! k) as [item|] eqn:Hitem; [|done].
    simpl in Hk. simplify_eq.
    apply (broadcast_from_positions e 0 _ _ k item); [|done].
    rewrite list_fmap_delete. eapply sublist_NoDup; [exact Hnq|].
    apply sublist_delete. }
  split; [intros k id' Hlt Hk; rewrite Hq; by rewrite list_lookup_delete_lt|].
  split.
  { intros k id' Hlt Hk. rewrite Hq. rewrite list_lookup_delete_ge by lia.
    by replace (S (k - 1)) with k by lia. }
  split; [intros other; apply removeFromQueue_absent|].
  intros evs' s'' Hrun'.
  assert (id ∈ queue_ids s) as Hin by by eapply list_elem_of_lookup_2.
  destruct (run_absent evs' _ s'' id Hrun') as [_ Hl].
  - frame. eapply elem_of_sublist; [|apply HI].
    apply elem_of_app. by right.
  - unfold line. rewrite Hq, broadcast_started. simpl.
    rewrite elem_of_app. intros [Hs|Hd].
    + by apply (queued_not_started s id HI).
    + by apply (NoDup_delete_lookup (queue_ids s) index id).
  - intros Hs. apply Hl. unfold line. apply elem_of_app. by left.
Qed.

Lemma cancel_queued_download_witness :
  ∃ s, run Sample.three_submissions initial = Some s
       ∧ queue_ids s !! 0 = Some "job3"
       ∧ (removeFromQueue (Sample.env_at 4) "job3" s).1 = true.
Proof.
  destruct Admission.three_submissions_run as (s & Hrun & _ & _ & Hq).
  exists s. split; [exact Hrun|].
  assert (queue_ids s !! 0 = Some "job3") as H0 by (rewrite Hq; reflexivity).
  split; [exact H0|].
  apply (cancel_queued_download _ s (Sample.env_at 4) "job3" 0 Hrun H0).
Defined.
End CancelQueued.

(** ** Callbacks of other downloads *)

Module Locality.
Import JsFacts ProgressFacts Frames Scheduler.

Arguments obj : simpl never.
Arguments updateProgress : simpl never.
Arguments broadcastQueuePositions : simpl never.
Arguments processDownload : simpl never.
Arguments processQueue : simpl never.
Arguments settle : simpl never.

Lemma sessionTempDir_inj a b : sessionTempDir a = sessionTempDir b → a = b.
Proof. unfold sessionTempDir. intros H. by apply path_join_inj_r, lit_inj in H. Qed.

Section untouched.
Context (id : string).

Lemma quiet_refl s : quiet id s s.
Proof. exists []. by rewrite app_nil_r. Qed.

Lemma quiet_same s s' : effects s' = effects s → quiet id s s'.
Proof. intros H. exists []. by rewrite app_nil_r. Qed.

Lemma quiet_trans s1 s2 s3 : quiet id s1 s2 → quiet id s2 s3 → quiet id s1 s3.
Proof.
  intros (es1 & E1 & F1) (es2 & E2 & F2). exists (es1 ++ es2).
  split; [by rewrite E2, E1, app_assoc | by apply Forall_app].
Qed.

Lemma untouched_refl s : untouched id s s.
Proof. split; [done | apply quiet_refl]. Qed.

Lemma untouched_trans s1 s2 s3 :
  untouched id s1 s2 → untouched id s2 s3 → untouched id s1 s3.
Proof.
  intros [V1 Q1] [V2 Q2].
  split; [by rewrite V2 | by eapply quiet_trans].
Qed.

(** The primitives, in a form that extends a chain on the right. *)
Lemma untouched_updateProgress e id' data s0 s :
  id' ≠ id → untouched id s0 s → untouched id s0 (updateProgress e id' data s).
Proof.
  intros Hne H. eapply untouched_trans; [exact H|]. split.
  - unfold view. autorewrite with frame. by rewrite updateProgress_other.
  - unfold quiet. rewrite updateProgress_effects. eexists. split; [done|].
    destruct (sseClients s !! id'); [|done].
    apply Forall_app. split; by apply Forall_fmap, Forall_true.
Qed.

Lemma untouched_emit es s0 s :
  Forall (fun ef => is_download_effect id ef = false) es →
  untouched id s0 s → untouched id s0 (emit es s).
Proof.
  intros Hes H. eapply untouched_trans; [exact H|]. split; [done|].
  by exists es.
Qed.

Lemma untouched_set_activeDownloads f s0 s :
  untouched id s0 s → untouched id s0 (set_activeDownloads f s).
Proof. intros H. eapply untouched_trans; [exact H|]. split; [done | by apply quiet_same]. Qed.

Lemma untouched_set_downloadQueue f s0 s :
  untouched id s0 s → untouched id s0 (set_downloadQueue f s).
Proof. intros H. eapply untouched_trans; [exact H|]. split; [done | by apply quiet_same]. Qed.

Lemma untouched_set_issued f s0 s :
  untouched id s0 s → untouched id s0 (set_issued f s).
Proof. intros H. eapply untouched_trans; [exact H|]. split; [done | by apply quiet_same]. Qed.

Lemma untouched_set_sseClients f s0 s :
  untouched id s0 s → untouched id s0 (set_sseClients f s).
Proof. intros H. eapply untouched_trans; [exact H|]. split; [done | by apply quiet_same]. Qed.

Lemma untouched_set_progressCleanupTimers f s0 s :
  untouched id s0 s → untouched id s0 (set_progressCleanupTimers f s).
Proof. intros H. eapply untouched_trans; [exact H|]. split; [done | by apply quiet_same]. Qed.

Lemma untouched_insert_job id' j s0 s :
  id' ≠ id → untouched id s0 s → untouched id s0 (set_jobs (insert id' j) s).
Proof.
  intros Hne H. eapply untouched_trans; [exact H|]. split; [|by apply quiet_same].
  unfold view. simpl. by rewrite lookup_insert_ne.
Qed.

Lemma untouched_delete_job id' s0 s :
  id' ≠ id → untouched id s0 s → untouched id s0 (set_jobs (delete id') s).
Proof.
  intros Hne H. eapply untouched_trans; [exact H|]. split; [|by apply quiet_same].
  unfold view. simpl. by rewrite lookup_delete_ne.
Qed.

Lemma untouched_insert_process id' i s0 s :
  id' ≠ id → untouched id s0 s →
  untouched id s0 (set_activeProcesses (insert id' i) s).
Proof.
  intros Hne H. eapply untouched_trans; [exact H|]. split; [|by apply quiet_same].
  unfold view. simpl. by rewrite lookup_insert_ne.
Qed.

Lemma untouched_alter_process id' f s0 s :
  id' ≠ id → untouched id s0 s →
  untouched id s0 (set_activeProcesses (alter f id') s).
Proof.
  intros Hne H. eapply untouched_trans; [exact H|]. split; [|by apply quiet_same].
  unfold view. simpl. by rewrite lookup_alter_ne.
Qed.

Lemma untouched_delete_process id' s0 s :
  id' ≠ id → untouched id s0 s →
  untouched id s0 (set_activeProcesses (delete id') s).
Proof.
  intros Hne H. eapply untouched_trans; [exact H|]. split; [|by apply quiet_same].
  unfold view. simpl. by rewrite lookup_delete_ne.
Qed.

Lemma untouched_insert_timeout id' b s0 s :
  id' ≠ id → untouched id s0 s →
  untouched id s0 (set_downloadTimeouts (insert id' b) s).
Proof.
  intros Hne H. eapply untouched_trans; [exact H|]. split; [|by apply quiet_same].
  unfold view. simpl. by rewrite lookup_insert_ne.
Qed.

Lemma untouched_delete_timeout id' s0 s :
  id' ≠ id → untouched id s0 s →
  untouched id s0 (set_downloadTimeouts (delete id') s).
Proof.
  intros Hne H. eapply untouched_trans; [exact H|]. split; [|by apply quiet_same].
  unfold view. simpl. by rewrite lookup_delete_ne.
Qed.

Lemma untouched_delete_progress id' s0 s :
  id' ≠ id → untouched id s0 s →
  untouched id s0 (set_downloadProgress (delete id') s).
Proof.
  intros Hne H. eapply untouched_trans; [exact H|]. split; [|by apply quiet_same].
  unfold view. simpl. by rewrite lookup_delete_ne.
Qed.

Lemma untouched_updated e id' s0 s s' :
  id' ≠ id → updated e id' s s' → untouched id s0 s → untouched id s0 s'.
Proof.
  intros Hne Hu H. induction Hu; [done|].
  by apply untouched_updateProgress, IHHu.
Qed.
End untouched.

(** Chains the primitives from the outside in. *)
Ltac untouched :=
  repeat first
    [ assumption
    | apply untouched_refl
    | apply untouched_updateProgress; [done|]
    | apply untouched_emit; [by repeat constructor; simpl; rewrite ?bool_decide_eq_false|]
    | apply untouched_set_activeDownloads
    | apply untouched_set_downloadQueue
    | apply untouched_set_issued
    | apply untouched_set_sseClients
    | apply untouched_set_progressCleanupTimers
    | apply untouched_insert_job; [done|]
    | apply untouched_delete_job; [done|]
    | apply untouched_insert_process; [done|]
    | apply untouched_alter_process; [done|]
    | apply untouched_delete_process; [done|]
    | apply untouched_insert_timeout; [done|]
    | apply untouched_delete_timeout; [done|]
    | apply untouched_delete_progress; [done|] ].

Section others.
Context (id : string).

Lemma mkdir_quiet id' :
  id' ≠ id → is_download_effect id (Mkdir (sessionTempDir id')) = false.
Proof.
  intros Hne. simpl. apply bool_decide_eq_false.
  intros H. by apply sessionTempDir_inj in H.
Qed.

Lemma untouched_audio_begin e id' o s0 s :
  id' ≠ id → untouched id s0 s → untouched id s0 (audio_begin e id' o s).
Proof.
  intros Hne H. unfold audio_begin.
  apply untouched_insert_job; [done|]. apply untouched_insert_process; [done|].
  apply untouched_emit.
  { repeat constructor. simpl. by apply bool_decide_eq_false. }
  apply untouched_updateProgress; [done|].
  destruct (merge o); [|done].
  apply untouched_emit; [|done]. repeat constructor. by apply mkdir_quiet.
Qed.

Lemma untouched_processDownload e id' o s0 s :
  id' ≠ id → untouched id s0 s → untouched id s0 (processDownload e id' o s).
Proof.
  intros Hne H. unfold processDownload.
  destruct (type o).
  - unfold downloadVideo. untouched.
  - unfold downloadAudio. destruct (merge o && _).
    + untouched.
    + apply untouched_audio_begin; [done|]. untouched.
Qed.

Lemma untouched_broadcast_from e index items s0 s :
  id ∉ (downloadId <$> items) → untouched id s0 s →
  untouched id s0 (broadcast_from e index items s).
Proof.
  revert index s. induction items as [|item rest IH]; intros index s Hid H;
    simpl; [done|].
  rewrite fmap_cons, not_elem_of_cons in Hid. destruct Hid as [Hne Hid].
  apply IH; [done|]. by apply untouched_updateProgress.
Qed.

Lemma untouched_broadcastQueuePositions e s0 s :
  id ∉ queue_ids s → untouched id s0 s →
  untouched id s0 (broadcastQueuePositions e s).
Proof. intros. by apply untouched_broadcast_from. Qed.

Lemma untouched_processQueue_loop e items s0 s :
  downloadQueue s = items → id ∉ (downloadId <$> items) →
  untouched id s0 s → untouched id s0 (processQueue_loop e items s).
Proof.
  revert s. induction items as [|item rest IH]; intros s Hq Hid H; simpl; [done|].
  destruct (_ <? _)%Z; [|done].
  rewrite fmap_cons, not_elem_of_cons in Hid. destruct Hid as [Hne Hid].
  apply IH; [|done|].
  - rewrite processDownload_downloadQueue. frame. by rewrite Hq.
  - apply untouched_processDownload; [done|].
    apply untouched_emit; [by repeat constructor|].
    apply untouched_broadcastQueuePositions; [|untouched].
    unfold queue_ids. simpl. by rewrite Hq.
Qed.

Lemma untouched_processQueue e s0 s :
  id ∉ queue_ids s → untouched id s0 s → untouched id s0 (processQueue e s).
Proof. intros. by apply untouched_processQueue_loop. Qed.

Lemma untouched_settle e id' outcome s0 s :
  id' ≠ id → id ∉ queue_ids s →
  untouched id s0 s → untouched id s0 (settle e id' outcome s).
Proof.
  intros Hne Hq H. unfold settle.
  apply untouched_processQueue.
  - unfold queue_ids. simpl. repeat case_match; by frame.
  - untouched. repeat case_match; untouched.
Qed.
End others.
End Locality.

(** ** What a callback does to the queue *)

Module Admits.
Import Frames Scheduler Line.

Arguments obj : simpl never.
Arguments updateProgress : simpl never.
Arguments broadcastQueuePositions : simpl never.
Arguments processDownload : simpl never.
Arguments processQueue : simpl never.
Arguments settle : simpl never.

Lemma admits_same s s' :
  started_ids (effects s') = started_ids (effects s) →
  queue_ids s' = queue_ids s → admits s s'.
Proof. intros Hs Hq. exists 0. by rewrite take_0, drop_0, app_nil_r. Qed.

Lemma admits_eq s0 s s' :
  started_ids (effects s) = started_ids (effects s0) →
  queue_ids s = queue_ids s0 → admits s s' → admits s0 s'.
Proof. intros Hs Hq (k & E1 & E2). exists k. by rewrite E1, E2, Hs, Hq. Qed.

Lemma admits_processQueue e s : admits s (processQueue e s).
Proof.
  destruct (processQueue_loop_heads e (downloadQueue s) s eq_refl)
    as (E1 & E2 & _).
  exists (free_slots s). unfold processQueue, queue_ids, free_slots.
  by rewrite E1, E2, fmap_take, fmap_drop.
Qed.

Lemma admits_settle e id outcome s : admits s (settle e id outcome s).
Proof.
  unfold settle. eapply admits_eq; [| |apply admits_processQueue].
  - repeat case_match; by frame.
  - unfold queue_ids. repeat case_match; by frame.
Qed.

Lemma admits_settle_after e id outcome s0 s :
  started_ids (effects s) = started_ids (effects s0) →
  queue_ids s = queue_ids s0 → admits s0 (settle e id outcome s).
Proof. intros. eapply admits_eq; [done..|apply admits_settle]. Qed.

Lemma audio_begin_started e id o s :
  started_ids (effects (audio_begin e id o s)) = started_ids (effects s).
Proof. unfold audio_begin. destruct (merge o); frame; by rewrite ?app_nil_r. Qed.

Lemma audio_begin_queue_ids e id o s :
  queue_ids (audio_begin e id o s) = queue_ids s.
Proof. unfold audio_begin, queue_ids. destruct (merge o); by frame. Qed.

Lemma mergeAudioFiles_started e id inDir outDir o s :
  started_ids (effects (mergeAudioFiles e id inDir outDir o s).1)
  = started_ids (effects s).
Proof. unfold mergeAudioFiles. repeat case_match; frame; by rewrite ?app_nil_r. Qed.

Lemma mergeAudioFiles_queue_ids e id inDir outDir o s :
  queue_ids (mergeAudioFiles e id inDir outDir o s).1 = queue_ids s.
Proof. unfold mergeAudioFiles, queue_ids. repeat case_match; by frame. Qed.

Lemma admits_finish_merge e id f s0 s :
  started_ids (effects s) = started_ids (effects s0) →
  queue_ids s = queue_ids s0 → admits s0 (finish_merge e id f s).
Proof.
  intros Hs Hq. unfold finish_merge.
  destruct (merged_stat e); apply admits_settle_after;
    unfold queue_ids in *; frame; by rewrite ?app_nil_r.
Qed.

Lemma kill_started id info : started_ids (kill_effects id info) = [].
Proof. unfold kill_effects. rewrite started_ids_app. by repeat case_match. Qed.

Lemma cleanup_started info : started_ids (cleanup_effects info) = [].
Proof. unfold cleanup_effects. by case_match. Qed.

(** Every callback other than a submission or a cancellation leaves the
    identifiers alone and admits a prefix of the queue. *)
Lemma step_admits e ev s s' :
  step e ev s = Some s' →
  match ev with
  | Submit id _ _ =>
      (id ∉ issued s)
      ∧ ∃ k, started_ids (effects s')
             = started_ids (effects s) ++ take k (queue_ids s ++ [id])
             ∧ queue_ids s' = drop k (queue_ids s ++ [id])
  | CancelRequest id =>
      started_ids (effects s') = started_ids (effects s)
      ∧ queue_ids s' `sublist_of` queue_ids s
  | _ => admits s s'
  end.
Proof.
  intros Hstep. destruct ev; simpl in Hstep.
  - case_bool_decide; [done|]. simplify_eq. split; [done|].
    unfold api_download, enqueueDownload.
    match goal with
    | |- context [processQueue e ?x] =>
        destruct (admits_processQueue e x) as (k & E1 & E2)
    end.
    exists k. rewrite E1, E2. unfold queue_ids. frame.
    by rewrite fmap_app, app_nil_r.
  - simplify_eq. unfold api_cancel, removeFromQueue.
    destruct (list_find _ _) as [[index item]|] eqn:Ef; simpl.
    + frame. split; [done|]. unfold queue_ids. frame.
      rewrite list_fmap_delete. apply sublist_delete.
    + destruct (activeProcesses s !! id); simpl; [|done].
      frame. by rewrite kill_started, cleanup_started, !app_nil_r.
  - simplify_eq. apply admits_same; unfold api_progress; case_bool_decide;
      frame; by rewrite ?app_nil_r.
  - simplify_eq. apply admits_same; unfold cleanupSSEClient; by repeat case_match.
  - repeat case_match; simplify_eq. by apply admits_same.
  - repeat case_match; simplify_eq.
    unfold count_onClose. repeat case_match.
    + apply admits_settle_after; frame; by rewrite ?app_nil_r.
    + apply admits_same; [apply audio_begin_started | apply audio_begin_queue_ids].
    + apply admits_same; [apply audio_begin_started | apply audio_begin_queue_ids].
  - repeat case_match; simplify_eq.
    apply admits_same; [apply audio_begin_started | apply audio_begin_queue_ids].
  - destruct (jobs s !! id) as [j|]; [|done].
    destruct (phase j) as [|l|]; simplify_eq.
    unfold on_stdout. destruct (type (options j)).
    + pose proof (video_onData_updated e id output l s) as Hu.
      destruct (video_onData e id output l s) as [s1 l1]. simpl in Hu.
      apply updated_frame in Hu as (_&Hq&_&_&_&_&Hs&_).
      apply admits_same; unfold queue_ids; simpl; by rewrite ?Hq, ?Hs.
    + pose proof (audio_onData_updated e id (format (options j)) output l s) as Hu.
      destruct (audio_onData e id _ output l s) as [s1 l1]. simpl in Hu.
      apply updated_frame in Hu as (_&Hq&_&_&_&_&Hs&_).
      apply admits_same; unfold queue_ids; simpl; by rewrite ?Hq, ?Hs.
  - destruct (jobs s !! id) as [j|]; [|done].
    destruct (phase j) as [|l|]; simplify_eq.
    destruct (type (options j)).
    + unfold video_onClose. repeat case_match;
        apply admits_settle_after; unfold queue_ids; by frame.
    + unfold audio_onClose.
      destruct (is_cancelled _);
        [apply admits_settle_after; frame; by rewrite ?app_nil_r|].
      destruct (negb _);
        [apply admits_settle_after; frame; by rewrite ?app_nil_r|].
      destruct (merge (options j)).
      * pose proof (mergeAudioFiles_started e id (sessionTempDir id) downloadsDir
          (options j) (updateProgress e id
            (obj [("status", VStr "merging_playlist"); ("progress", VNum 95);
                  ("message", VMsg (MsgText "Menggabungkan file audio playlist..."))]) s))
          as Hs.
        pose proof (mergeAudioFiles_queue_ids e id (sessionTempDir id) downloadsDir
          (options j) (updateProgress e id
            (obj [("status", VStr "merging_playlist"); ("progress", VNum 95);
                  ("message", VMsg (MsgText "Menggabungkan file audio playlist..."))]) s))
          as Hq.
        destruct (mergeAudioFiles _ _ _ _ _ _) as [s2 r]. simpl in Hs, Hq.
        autorewrite with frame in Hs, Hq.
        destruct r.
        -- apply admits_settle_after; frame; by rewrite ?app_nil_r.
        -- by apply admits_finish_merge.
        -- by apply admits_same.
      * apply admits_settle_after; unfold queue_ids; by frame.
  - repeat case_match; simplify_eq.
    unfold worker_onError. destruct (type (options _));
      apply admits_settle_after; frame; by rewrite ?app_nil_r.
  - repeat case_match; simplify_eq.
    unfold ffmpeg_onClose. case_bool_decide.
    + by apply admits_finish_merge.
    + apply admits_settle_after; frame; by rewrite ?app_nil_r.
  - repeat case_match; simplify_eq.
    apply admits_settle_after; frame; by rewrite ?app_nil_r.
  - repeat case_match; simplify_eq.
    apply admits_same; unfold download_timeout; simpl; repeat case_match;
      unfold queue_ids; frame; by rewrite ?kill_started, ?cleanup_started, ?app_nil_r.
  - repeat case_match; simplify_eq. by apply admits_same.
Qed.
End Admits.

Module LocalitySteps.
Import JsFacts ProgressFacts Frames Scheduler Locality.

Arguments obj : simpl never.
Arguments updateProgress : simpl never.
Arguments broadcastQueuePositions : simpl never.
Arguments processDownload : simpl never.
Arguments processQueue : simpl never.
Arguments settle : simpl never.

Lemma kill_cleanup_quiet id id' info :
  Forall (λ ef, is_download_effect id ef = false)
    (kill_effects id' info ++ cleanup_effects info).
Proof.
  unfold kill_effects, cleanup_effects.
  repeat case_match; by repeat constructor.
Qed.

Lemma untouched_mergeAudioFiles id e id' inDir outDir o s0 s :
  id' ≠ id → untouched id s0 s →
  untouched id s0 (mergeAudioFiles e id' inDir outDir o s).1.
Proof.
  intros Hne H. unfold mergeAudioFiles. repeat case_match; simpl; untouched.
Qed.

Lemma mergeAudioFiles_queue e id inDir outDir o s :
  downloadQueue (mergeAudioFiles e id inDir outDir o s).1 = downloadQueue s.
Proof. unfold mergeAudioFiles. by repeat case_match. Qed.

Lemma untouched_finish_merge id e id' f s0 s :
  id' ≠ id → id ∉ queue_ids s → untouched id s0 s →
  untouched id s0 (finish_merge e id' f s).
Proof.
  intros Hne Hq H. unfold finish_merge.
  destruct (merged_stat e); apply untouched_settle; try done;
    unfold queue_ids in *; frame; try done; untouched.
Qed.

(** A callback for another download does not change what the server
    holds about [id] and does not begin the download of [id], as long
    as [id] is not waiting in the queue. *)
Lemma step_untouched e ev s s' id :
  step e ev s = Some s' → target ev ≠ id → id ∉ queue_ids s →
  untouched id s s'.
Proof.
  intros Hstep Hne Hq. destruct ev; simpl in Hstep, Hne.
  - case_bool_decide; [done|]. simplify_eq.
    unfold api_download, enqueueDownload.
    apply untouched_processQueue.
    + unfold queue_ids in *. frame. rewrite fmap_app. simpl.
      rewrite elem_of_app, list_elem_of_singleton. intros [?|?]; done.
    + untouched.
  - simplify_eq. unfold api_cancel, removeFromQueue.
    destruct (list_find _ _) as [[index item]|] eqn:Ef; simpl.
    + apply untouched_updateProgress; [done|].
      apply untouched_broadcastQueuePositions; [|untouched].
      unfold queue_ids in *. simpl. rewrite list_fmap_delete.
      intros Hin. apply Hq. eapply elem_of_sublist; [done | apply sublist_delete].
    + destruct (activeProcesses s !! id0); simpl; [|apply untouched_refl].
      apply untouched_updateProgress; [done|]. untouched.
      apply untouched_emit; [apply kill_cleanup_quiet|]. untouched.
  - simplify_eq. unfold api_progress. case_bool_decide; untouched.
  - simplify_eq. unfold cleanupSSEClient. repeat case_match; untouched.
  - repeat case_match; simplify_eq. untouched.
  - repeat case_match; simplify_eq.
    unfold count_onClose. repeat case_match.
    + apply untouched_settle; [done..|]. untouched.
    + apply untouched_audio_begin; [done|]. untouched.
    + apply untouched_audio_begin; [done|]. untouched.
  - repeat case_match; simplify_eq.
    apply untouched_audio_begin; [done|]. untouched.
  - destruct (jobs s !! id0) as [j|]; [|done].
    destruct (phase j) as [|l|]; simplify_eq.
    unfold on_stdout. destruct (type (options j)).
    + pose proof (video_onData_updated e id0 output l s) as Hu.
      destruct (video_onData e id0 output l s) as [s1 l1]. simpl in Hu.
      apply untouched_insert_job; [done|].
      eapply untouched_updated; [|exact Hu|]; [done|untouched].
    + pose proof (audio_onData_updated e id0 (format (options j)) output l s) as Hu.
      destruct (audio_onData e id0 _ output l s) as [s1 l1]. simpl in Hu.
      apply untouched_insert_job; [done|].
      eapply untouched_updated; [|exact Hu|]; [done|untouched].
  - destruct (jobs s !! id0) as [j|]; [|done].
    destruct (phase j) as [|l|]; simplify_eq.
    destruct (type (options j)).
    + unfold video_onClose. repeat case_match;
        (apply untouched_settle; [done|unfold queue_ids in *; by frame|untouched]).
    + unfold audio_onClose.
      destruct (is_cancelled _);
        [apply untouched_settle; [done..|untouched]|].
      destruct (negb _);
        [apply untouched_settle; [done..|untouched]|].
      destruct (merge (options j)).
      * pose proof (untouched_mergeAudioFiles id e id0 (sessionTempDir id0)
          downloadsDir (options j) s
          (updateProgress e id0
            (obj [("status", VStr "merging_playlist"); ("progress", VNum 95);
                  ("message", VMsg (MsgText "Menggabungkan file audio playlist..."))]) s)
          Hne ltac:(untouched)) as Hu.
        pose proof (mergeAudioFiles_queue e id0 (sessionTempDir id0) downloadsDir
          (options j) (updateProgress e id0
            (obj [("status", VStr "merging_playlist"); ("progress", VNum 95);
                  ("message", VMsg (MsgText "Menggabungkan file audio playlist..."))]) s))
          as Hq2.
        destruct (mergeAudioFiles _ _ _ _ _ _) as [s2 r]. simpl in Hu, Hq2.
        autorewrite with frame in Hq2.
        assert (id ∉ queue_ids s2) by (unfold queue_ids in *; by rewrite Hq2).
        destruct r.
        -- apply untouched_settle; [done..|untouched].
        -- by apply untouched_finish_merge.
        -- untouched.
      * apply untouched_settle; [done|unfold queue_ids in *; by frame|untouched].
  - repeat case_match; simplify_eq.
    unfold worker_onError. destruct (type (options _));
      (apply untouched_settle; [done..|untouched]).
  - repeat case_match; simplify_eq.
    unfold ffmpeg_onClose. case_bool_decide.
    + apply untouched_finish_merge; [done..|untouched].
    + apply untouched_settle; [done..|untouched].
  - repeat case_match; simplify_eq.
    apply untouched_settle; [done..|untouched].
  - repeat case_match; simplify_eq.
    unfold download_timeout. simpl. repeat case_match; untouched.
    apply untouched_emit; [apply kill_cleanup_quiet|]. untouched.
  - repeat case_match; simplify_eq. unfold progressCleanup. untouched.
Qed.
End LocalitySteps.

(** ** Cancelling a running download *)

Module CancelActive.
Import JsFacts ProgressFacts Frames Scheduler SchedulerSteps Line Locality
  LocalitySteps Admits CancelQueued.

Arguments obj : simpl never.
Arguments updateProgress : simpl never.
Arguments broadcastQueuePositions : simpl never.
Arguments processDownload : simpl never.
Arguments processQueue : simpl never.
Arguments settle : simpl never.

Lemma set_phase_same j : set_phase (phase j) j = j.
Proof. by destruct j. Qed.

Lemma set_jobs_same s id j : jobs s !! id = Some j → set_jobs (insert id j) s = s.
Proof. intros H. destruct s. unfold set_jobs. simpl in *. by rewrite insert_id. Qed.

(** Both output handlers return at once when the flag is set. *)
Lemma onData_cancelled e id fmt output l s info :
  activeProcesses s !! id = Some info → cancelled info = true →
  video_onData e id output l s = (s, l)
  ∧ audio_onData e id fmt output l s = (s, l).
Proof.
  intros Hi Hc. unfold video_onData, audio_onData.
  by rewrite Hi; simpl; rewrite Hc.
Qed.

Lemma stdout_cancelled e id output s j l info :
  jobs s !! id = Some j → phase j = Downloading l →
  activeProcesses s !! id = Some info → cancelled info = true →
  step e (Stdout id output) s = Some s.
Proof.
  intros Hj Hp Hi Hc.
  destruct (onData_cancelled e id (format (options j)) output l s info Hi Hc)
    as [Hv Ha].
  simpl. rewrite Hj, Hp. unfold on_stdout. rewrite Hv, Ha. f_equal.
  destruct (type (options j)); rewrite <- Hp, set_phase_same;
    by apply set_jobs_same.
Qed.

(** C6.  Once the cancellation flag of a download is set, a chunk of
    worker output changes nothing: both output handlers return the
    state they were given, so the progress record, like everything else
    the server holds, is the same before and after. *)
Theorem cancelled_output_discarded e id output s j l info :
  jobs s !! id = Some j → phase j = Downloading l →
  activeProcesses s !! id = Some info → cancelled info = true →
  step e (Stdout id output) s = Some s
  ∧ video_onData e id output l s = (s, l)
  ∧ audio_onData e id (format (options j)) output l s = (s, l).
Proof.
  intros Hj Hp Hi Hc. split.
  - by eapply stdout_cancelled.
  - by apply (onData_cancelled e id (format (options j)) output l s info).
Qed.

Lemma start_and_cancel_observed :
  SampleCancel.observe_job (run SampleCancel.start_and_cancel initial) "job1"
  = Some (Some (Downloading locals0), Some true, Some "cancelled").
Proof. vm_compute. reflexivity. Qed.

Lemma start_and_cancel_run :
  ∃ s j info,
    run SampleCancel.start_and_cancel initial = Some s
    ∧ jobs s !! "job1" = Some j ∧ phase j = Downloading locals0
    ∧ activeProcesses s !! "job1" = Some info ∧ cancelled info = true.
Proof.
  pose proof start_and_cancel_observed as H.
  destruct (run SampleCancel.start_and_cancel initial) as [s|]; [|done].
  simpl in H.
  destruct (jobs s !! "job1") as [j|] eqn:Hj; [|done].
  destruct (activeProcesses s !! "job1") as [info|] eqn:Hinfo; [|done].
  simpl in H. exists s, j, info. injection H as H1 H2 H3.
  split_and!; done.
Qed.

Lemma cancelled_output_discarded_witness :
  ∃ s, run SampleCancel.start_and_cancel initial = Some s
       ∧ step (Sample.env_at 3) (Stdout "job1" (Js.lit "[download]  50.0%")) s
         = Some s.
Proof.
  destruct start_and_cancel_run as (s & j & info & Hrun & Hj & Hp & Hi & Hc).
  exists s. split; [exact Hrun|].
  apply (cancelled_output_discarded (Sample.env_at 3) "job1" _ s j locals0 info
           Hj Hp Hi Hc).
Defined.

(** Queue membership and identifiers across one callback. *)
Lemma step_issued e ev s s' x : step e ev s = Some s' → x ∈ issued s → x ∈ issued s'.
Proof.
  intros Hstep Hx. apply step_line in Hstep.
  destruct ev; destruct Hstep as (E1 & E2); try by rewrite E1.
  destruct E2 as [-> _]. apply elem_of_app. by left.
Qed.

Lemma step_not_queued e ev s s' x :
  step e ev s = Some s' → x ∈ issued s → x ∉ queue_ids s → x ∉ queue_ids s'.
Proof.
  intros Hstep Hi Hq Hq'. apply step_admits in Hstep.
  assert (∀ k l, x ∈ drop k l → x ∈ l) as Hdrop.
  { intros k l H. eapply elem_of_sublist; [exact H | apply sublist_drop]. }
  destruct ev; try (destruct Hstep as (k & _ & E); rewrite E in Hq'; by eauto).
  - destruct Hstep as (Hfresh & k & _ & E). rewrite E in Hq'.
    apply Hdrop, elem_of_app in Hq' as [?|Hx]; [done|].
    apply list_elem_of_singleton in Hx. by subst.
  - destruct Hstep as [_ Hsub]. apply Hq. by eapply elem_of_sublist.
Qed.

Lemma status_of_view s s' id :
  downloadProgress s' !! id = downloadProgress s !! id →
  status_of s' id = status_of s id.
Proof. intros H. unfold status_of, field. by rewrite H. Qed.

Lemma status_cancelled e id text s :
  status_of (updateProgress e id (cancelled_data text) s) id = Some "cancelled".
Proof.
  unfold status_of.
  by rewrite (updateProgress_field _ _ _ _ "status" (VStr "cancelled")).
Qed.

(** The task of a download whose flag is set settles without a word. *)
Lemma settle_cancelled e id err s info :
  activeProcesses s !! id = Some info → cancelled info = true →
  id ∉ queue_ids s →
  view (settle e id (Some err) s) id = (downloadProgress s !! id, None, None, None).
Proof.
  intros Hi Hc Hq. unfold settle. rewrite Hi. simpl. rewrite Hc. simpl.
  match goal with
  | |- view (processQueue e ?x) id = _ =>
      destruct (untouched_processQueue id e x x) as [-> _];
        [done | apply untouched_refl |]
  end.
  unfold view. simpl. by rewrite !lookup_delete_eq.
Qed.







End CancelActive.

(** ** The shape of the pending tasks *)

Module Shape.
Import Frames Scheduler SchedulerSteps.

Arguments obj : simpl never.
Arguments updateProgress : simpl never.
Arguments broadcastQueuePositions : simpl never.
Arguments processDownload : simpl never.
Arguments processQueue : simpl never.

Lemma loop_unfold e item rest s :
  processQueue_loop e (item :: rest) s
  = if (activeDownloads s <? CONFIG.MAX_CONCURRENT_DOWNLOADS)%Z
    then processQueue_loop e rest (admit_one e item s) else s.
Proof. reflexivity. Qed.

Lemma Shaped_initial : Shaped initial.
Proof. intros id j H. simpl in H. by rewrite lookup_empty in H. Qed.

Lemma Shaped_same s s' :
  jobs s' = jobs s → dom (activeProcesses s') = dom (activeProcesses s) →
  Shaped s → Shaped s'.
Proof.
  intros Hj Hp H id j Hid. rewrite Hj in Hid. specialize (H id j Hid).
  assert (∀ x, is_Some (activeProcesses s' !! x) ↔ is_Some (activeProcesses s !! x))
    as Hs by (intros x; by rewrite <- !elem_of_dom, Hp).
  assert (∀ x, activeProcesses s' !! x = None ↔ activeProcesses s !! x = None)
    as Hn by (intros x; rewrite !eq_None_not_Some; by rewrite Hs).
  destruct (phase j); by rewrite ?Hs, ?Hn.
Qed.

Lemma Shaped_updateProgress e id data s : Shaped s → Shaped (updateProgress e id data s).
Proof. apply Shaped_same; by frame. Qed.

Lemma Shaped_emit es s : Shaped s → Shaped (emit es s).
Proof. by apply Shaped_same. Qed.

Lemma Shaped_updated e id s s' : updated e id s s' → Shaped s → Shaped s'.
Proof. induction 1; [done|]. intros. by apply Shaped_updateProgress, IHupdated. Qed.

Lemma Shaped_insert_process id info s :
  is_Some (activeProcesses s !! id) → Shaped s →
  Shaped (set_activeProcesses (insert id info) s).
Proof.
  intros Hi. apply Shaped_same; [done|]. simpl. rewrite dom_insert_L.
  apply elem_of_dom in Hi. set_solver.
Qed.

(** Removing a task with its record. *)
Lemma Shaped_delete id s :
  Shaped s → Shaped (set_jobs (delete id) (set_activeProcesses (delete id) s)).
Proof.
  intros H x j. simpl. intros Hx.
  apply lookup_delete_Some in Hx as [Hne Hx]. specialize (H x j Hx).
  by rewrite lookup_delete_ne.
Qed.

(** Placing a task with a record, or changing its phase. *)
Lemma Shaped_insert id j s :
  match phase j with
  | Counting _ => activeProcesses s !! id = None ∧ counts_first (options j) = true
  | Downloading _ => is_Some (activeProcesses s !! id)
  | Merging _ =>
      is_Some (activeProcesses s !! id)
      ∧ type (options j) = audio ∧ merge (options j) = true
  end →
  Shaped s → Shaped (set_jobs (insert id j) s).
Proof.
  intros Hj H x j'. simpl. intros Hx.
  apply lookup_insert_Some in Hx as [[<- <-]|[Hne Hx]]; [done | by apply H].
Qed.

Lemma Shaped_begin id j info s :
  (∀ out, phase j ≠ Counting out) →
  (∀ f, phase j = Merging f → type (options j) = audio ∧ merge (options j) = true) →
  Shaped s →
  Shaped (set_jobs (insert id j) (set_activeProcesses (insert id info) s)).
Proof.
  intros Hc Hm H x j'. simpl. intros Hx.
  apply lookup_insert_Some in Hx as [[<- <-]|[Hne Hx]].
  - rewrite lookup_insert_eq. destruct (phase j) eqn:E; [by destruct (Hc countOutput)|done|].
    split; [done|]. by eapply Hm.
  - rewrite lookup_insert_ne by done. by apply H.
Qed.

Lemma Shaped_settle_prefix e id outcome s :
  Shaped s →
  Shaped (set_jobs (delete id)
            (set_downloadTimeouts (delete id)
               (set_activeProcesses (delete id)
                  (set_activeDownloads (λ n, n - 1)%Z
                     (set_downloadTimeouts (delete id)
                        (match outcome with
                         | Some err =>
                             if negb (is_cancelled (activeProcesses s !! id))
                             then updateProgress e id (error_data err) s
                             else s
                         | None => s
                         end)))))).
Proof.
  intros H.
  apply (Shaped_same (set_jobs (delete id) (set_activeProcesses (delete id) s))).
  - simpl. repeat case_match; by frame.
  - simpl. repeat case_match; by frame.
  - by apply Shaped_delete.
Qed.

Lemma Shaped_audio_begin e id o s :
  Shaped s → Shaped (audio_begin e id o s).
Proof.
  intros H. unfold audio_begin.
  apply Shaped_begin; [done..|].
  apply Shaped_emit, Shaped_updateProgress. destruct (merge o); [|done].
  by apply Shaped_emit.
Qed.

Lemma Shaped_admit_one e item s :
  Inv s → downloadId item ∈ queue_ids s → Shaped s → Shaped (admit_one e item s).
Proof.
  intros HI Hq H. unfold admit_one.
  assert (jobs s !! downloadId item = None) as Hn by by apply queued_not_pending.
  assert (activeProcesses s !! downloadId item = None) as Hp.
  { apply not_elem_of_dom. intros Hd. apply (inv_procs s HI) in Hd.
    apply elem_of_dom in Hd. rewrite Hn in Hd. by destruct Hd. }
  set (s4 := emit _ _).
  assert (Shaped s4) as H4.
  { subst s4. apply Shaped_emit. eapply Shaped_same; [| |exact H]; by frame. }
  assert (activeProcesses s4 !! downloadId item = None) as Hp4
    by (subst s4; by frame).
  clearbody s4. unfold processDownload.
  destruct (type (task item)) eqn:Et.
  - unfold downloadVideo. apply Shaped_begin; [done..|].
    apply Shaped_emit, Shaped_updateProgress, Shaped_updateProgress.
    by apply (Shaped_same s4).
  - unfold downloadAudio.
    destruct (merge (task item) && _) eqn:Ec.
    + apply Shaped_insert; simpl.
      * split; [by frame|]. unfold counts_first. by rewrite Et.
      * apply Shaped_emit, Shaped_updateProgress. by apply (Shaped_same s4).
    + apply Shaped_audio_begin, Shaped_updateProgress. by apply (Shaped_same s4).
Qed.

Lemma Shaped_loop e items s :
  downloadQueue s = items → Inv s → Shaped s →
  Shaped (processQueue_loop e items s).
Proof.
  revert s. induction items as [|item rest IH]; intros s Hq HI H; [done|].
  rewrite loop_unfold.
  destruct (activeDownloads s <? CONFIG.MAX_CONCURRENT_DOWNLOADS)%Z eqn:Hlt;
    [|done].
  apply Z.ltb_lt in Hlt. apply IH.
  - by rewrite admit_one_queue, Hq.
  - by eapply Inv_admit_one.
  - apply Shaped_admit_one; [done| |done].
    unfold queue_ids. rewrite Hq. set_solver.
Qed.

Lemma Shaped_settle e id outcome s :
  is_Some (jobs s !! id) → Inv s → Shaped s → Shaped (settle e id outcome s).
Proof.
  intros Hj HI H. pose proof (settle_Inv e id outcome s Hj HI) as _.
  unfold settle. apply Shaped_loop; [done| |by apply Shaped_settle_prefix].
  (* the state before the loop keeps the invariant *)
  set (s1 := match outcome with Some _ => _ | None => _ end).
  assert (Inv s1 ∧ jobs s1 = jobs s) as [[Ha Hb Hf Hn Hjs Hp] Hj1].
  { subst s1. destruct outcome as [err|]; [|done].
    destruct (negb _); [|done].
    split; [by apply Inv_updateProgress | by frame]. }
  rewrite <- Hj1 in Hj. apply elem_of_dom in Hj.
  split; simpl.
  - rewrite map_size_delete_Some by by apply elem_of_dom.
    assert (size (jobs s1) ≠ 0).
    { intros Hz. apply map_size_empty_iff in Hz. rewrite Hz in Hj. set_solver. }
    lia.
  - lia.
  - done.
  - done.
  - intros id'. rewrite dom_delete_L. set_solver.
  - rewrite !dom_delete_L. set_solver.
Qed.
End Shape.

Module ShapeSteps.
Import Frames Scheduler SchedulerSteps Shape.

Arguments obj : simpl never.
Arguments updateProgress : simpl never.
Arguments broadcastQueuePositions : simpl never.
Arguments processDownload : simpl never.
Arguments processQueue : simpl never.
Arguments settle : simpl never.

Lemma Shaped_processQueue e s : Inv s → Shaped s → Shaped (processQueue e s).
Proof. intros. by apply Shaped_loop. Qed.

Lemma Shaped_finish_merge e id f s :
  is_Some (jobs s !! id) → Inv s → Shaped s → Shaped (finish_merge e id f s).
Proof.
  intros Hj HI H. unfold finish_merge.
  destruct (merged_stat e); apply Shaped_settle; try (by frame).
  - do 2 apply Inv_updateProgress. by apply Inv_emit.
  - do 2 apply Shaped_updateProgress. by apply Shaped_emit.
  - apply Inv_emit; [done|]. apply Inv_updateProgress. by apply Inv_emit.
  - apply Shaped_emit, Shaped_updateProgress. by apply Shaped_emit.
Qed.

Lemma Shaped_mergeAudioFiles e id inDir outDir o s :
  Shaped s → Shaped (mergeAudioFiles e id inDir outDir o s).1.
Proof.
  intros H. unfold mergeAudioFiles. repeat case_match; simpl; try done.
  apply (Shaped_same s); simpl; [done| |done]. apply dom_alter_L.
Qed.

Lemma mergeAudioFiles_jobs e id inDir outDir o s :
  jobs (mergeAudioFiles e id inDir outDir o s).1 = jobs s.
Proof. unfold mergeAudioFiles. by repeat case_match. Qed.

Lemma mergeAudioFiles_procs e id inDir outDir o s x :
  is_Some (activeProcesses s !! x) →
  is_Some (activeProcesses (mergeAudioFiles e id inDir outDir o s).1 !! x).
Proof.
  unfold mergeAudioFiles. repeat case_match; simpl; try done.
  intros Hx. apply elem_of_dom. rewrite dom_alter_L. by apply elem_of_dom.
Qed.

Lemma step_Shaped e ev s s' :
  step e ev s = Some s' → Inv s → Shaped s → Shaped s'.
Proof.
  intros Hstep HI H. destruct ev; simpl in Hstep.
  - case_bool_decide as Hfresh; [done|]. simplify_eq.
    unfold api_download, enqueueDownload. apply Shaped_processQueue.
    + destruct HI as [Ha Hb Hf Hn Hj Hp].
      apply Inv_emit; [done|]. apply Inv_updateProgress.
      split; frame; try done.
      * unfold queue_ids in *. frame. rewrite fmap_app, app_assoc. simpl.
        by apply sublist_app.
      * apply NoDup_app. split_and!; [done| |apply NoDup_singleton].
        intros x Hx ?%list_elem_of_singleton. by subst.
    + apply Shaped_emit, Shaped_updateProgress.
      eapply Shaped_same; [| |exact H]; by frame.
  - simplify_eq. unfold api_cancel, removeFromQueue.
    destruct (list_find _ _) as [[index item]|]; simpl.
    + apply Shaped_updateProgress. eapply Shaped_same; [| |exact H]; by frame.
    + destruct (activeProcesses s !! id) as [info|] eqn:Ei; simpl; [|done].
      apply Shaped_updateProgress.
      apply (Shaped_same (set_activeProcesses (insert id (cancel_info info)) s));
        [done..|].
      apply Shaped_insert_process; [by rewrite Ei | done].
  - simplify_eq. unfold api_progress. case_bool_decide;
      (eapply Shaped_same; [| |exact H]; done).
  - simplify_eq. unfold cleanupSSEClient. repeat case_match; try done;
      (eapply Shaped_same; [| |exact H]; done).
  - destruct (jobs s !! id) as [j|] eqn:Hj; [|done].
    destruct (phase j) eqn:Hp; simplify_eq.
    apply Shaped_insert; [|done]. simpl.
    specialize (H id j Hj). by rewrite Hp in H.
  - destruct (jobs s !! id) as [j|] eqn:Hj; [|done].
    destruct (phase j); simplify_eq.
    assert (is_Some (jobs s !! id)) as Hs by by rewrite Hj.
    unfold count_onClose. repeat case_match.
    + apply Shaped_settle; [done | by apply Inv_emit | by apply Shaped_emit].
    + by apply Shaped_audio_begin.
    + by apply Shaped_audio_begin.
  - destruct (jobs s !! id) as [j|] eqn:Hj; [|done].
    destruct (phase j); simplify_eq. by apply Shaped_audio_begin.
  - destruct (jobs s !! id) as [j|] eqn:Hj; [|done].
    destruct (phase j) as [|l|] eqn:Hp; simplify_eq.
    specialize (H id j Hj) as Hid. rewrite Hp in Hid.
    unfold on_stdout. destruct (type (options j)).
    + pose proof (video_onData_updated e id output l s) as Hu.
      destruct (video_onData e id output l s) as [s1 l1]. simpl in Hu.
      apply Shaped_insert; [|by eapply Shaped_updated]. simpl.
      apply updated_frame in Hu as (_&_&->&_). done.
    + pose proof (audio_onData_updated e id (format (options j)) output l s) as Hu.
      destruct (audio_onData e id _ output l s) as [s1 l1]. simpl in Hu.
      apply Shaped_insert; [|by eapply Shaped_updated]. simpl.
      apply updated_frame in Hu as (_&_&->&_). done.
  - destruct (jobs s !! id) as [j|] eqn:Hj; [|done].
    destruct (phase j) as [|l|] eqn:Hp; simplify_eq.
    assert (is_Some (jobs s !! id)) as Hs by by rewrite Hj.
    specialize (H id j Hj) as Hid. rewrite Hp in Hid.
    destruct (type (options j)) eqn:Et.
    + unfold video_onClose. repeat case_match.
      * by apply Shaped_settle.
      * apply Shaped_settle; [by frame|..].
        -- by do 2 apply Inv_updateProgress.
        -- by do 2 apply Shaped_updateProgress.
      * by apply Shaped_settle.
    + unfold audio_onClose.
      destruct (is_cancelled _);
        [apply Shaped_settle; [done|by apply Inv_emit|by apply Shaped_emit]|].
      destruct (negb _);
        [apply Shaped_settle; [done|by apply Inv_emit|by apply Shaped_emit]|].
      destruct (merge (options j)) eqn:Em.
      * set (s1 := updateProgress _ _ _ s).
        assert (Inv s1) as HI1 by by apply Inv_updateProgress.
        assert (Shaped s1) as H1 by by apply Shaped_updateProgress.
        assert (is_Some (jobs s1 !! id)) as Hs1 by (subst s1; by frame).
        assert (is_Some (activeProcesses s1 !! id)) as Hp1 by (subst s1; by frame).
        clearbody s1.
        pose proof (Shaped_mergeAudioFiles e id (sessionTempDir id) downloadsDir
                      (options j) s1 H1) as H2.
        pose proof (mergeAudioFiles_jobs e id (sessionTempDir id) downloadsDir
                      (options j) s1) as Hj2.
        pose proof (mergeAudioFiles_procs e id (sessionTempDir id) downloadsDir
                      (options j) s1 id Hp1) as Hp2.
        destruct (mergeAudioFiles e id _ _ _ s1) as [s2 r] eqn:Em2.
        apply mergeAudioFiles_Inv in Em2 as [HI2 _]; [|done..].
        simpl in H2, Hj2, Hp2.
        assert (is_Some (jobs s2 !! id)) as Hs2 by by rewrite Hj2.
        destruct r.
        -- apply Shaped_settle; [done|by apply Inv_emit|by apply Shaped_emit].
        -- by apply Shaped_finish_merge.
        -- by apply Shaped_insert.
      * apply Shaped_settle; [by frame|..].
        -- by do 2 apply Inv_updateProgress.
        -- by do 2 apply Shaped_updateProgress.
  - destruct (jobs s !! id) as [j|] eqn:Hj; [|done].
    destruct (phase j); simplify_eq.
    assert (is_Some (jobs s !! id)) as Hs by by rewrite Hj.
    unfold worker_onError. destruct (type (options j)).
    + by apply Shaped_settle.
    + apply Shaped_settle; [done|by apply Inv_emit|by apply Shaped_emit].
  - destruct (jobs s !! id) as [j|] eqn:Hj; [|done].
    destruct (phase j); simplify_eq.
    assert (is_Some (jobs s !! id)) as Hs by by rewrite Hj.
    unfold ffmpeg_onClose. case_bool_decide.
    + by apply Shaped_finish_merge.
    + apply Shaped_settle; [done|by apply Inv_emit|by apply Shaped_emit].
  - destruct (jobs s !! id) as [j|] eqn:Hj; [|done].
    destruct (phase j); simplify_eq.
    apply Shaped_settle; [simpl; by rewrite Hj|by apply Inv_emit|by apply Shaped_emit].
  - destruct (downloadTimeouts s !! id) as [[|]|]; simplify_eq.
    unfold download_timeout. simpl.
    destruct (activeProcesses s !! id) as [info|] eqn:Ei;
      [|eapply Shaped_same; [| |exact H]; done].
    destruct (cancelled info); [eapply Shaped_same; [| |exact H]; done|].
    apply Shaped_updateProgress.
    apply (Shaped_same (set_activeProcesses (insert id (cancel_info info)) s));
      [done..|].
    apply Shaped_insert_process; [by rewrite Ei | done].
  - destruct (progressCleanupTimers s !! id); simplify_eq.
    unfold progressCleanup. eapply Shaped_same; [| |exact H]; done.
Qed.

Lemma run_Shaped evs s s' : run evs s = Some s' → Inv s → Shaped s → Shaped s'.
Proof.
  revert s. induction evs as [|[e ev] evs IH]; intros s Hrun HI H; simpl in Hrun.
  - by simplify_eq.
  - destruct (step e ev s) as [s1|] eqn:E; [|done].
    eapply IH; [done| |]; [by eapply step_Inv | by eapply step_Shaped].
Qed.

Lemma reachable_Shaped evs s : run evs initial = Some s → Shaped s.
Proof.
  intros H. eapply run_Shaped; [done | apply Inv_initial | apply Shaped_initial].
Qed.
End ShapeSteps.

(** ** No download begins while the playlist is counted *)

Ltac frame_in H := repeat (progress (autorewrite with frame in H; simpl in H)).

Module Gate.
Import ProgressFacts Frames Scheduler SchedulerSteps Locality LocalitySteps Shape.

Arguments obj : simpl never.
Arguments updateProgress : simpl never.
Arguments broadcastQueuePositions : simpl never.
Arguments processDownload : simpl never.
Arguments processQueue : simpl never.
Arguments settle : simpl never.

Lemma settle_unfold e id outcome s :
  settle e id outcome s = processQueue e (settling e id outcome s).
Proof. reflexivity. Qed.

Lemma settling_Inv e id outcome s :
  is_Some (jobs s !! id) → Inv s → Inv (settling e id outcome s).
Proof.
  intros Hj HI. unfold settling.
  set (s1 := match outcome with Some _ => _ | None => _ end).
  assert (Inv s1 ∧ jobs s1 = jobs s) as [[Ha Hb Hf Hn Hjs Hp] Hj1].
  { subst s1. destruct outcome as [err|]; [|done].
    destruct (negb _); [|done].
    split; [by apply Inv_updateProgress | by frame]. }
  rewrite <- Hj1 in Hj. apply elem_of_dom in Hj.
  split; simpl.
  - rewrite map_size_delete_Some by by apply elem_of_dom.
    assert (size (jobs s1) ≠ 0).
    { intros Hz. apply map_size_empty_iff in Hz. rewrite Hz in Hj. set_solver. }
    lia.
  - lia.
  - done.
  - done.
  - intros id'. rewrite dom_delete_L. set_solver.
  - rewrite !dom_delete_L. set_solver.
Qed.

(** [calm] *)

Lemma calm_refl s : calm s s.
Proof. exists []. by rewrite app_nil_r. Qed.

Lemma calm_trans s1 s2 s3 : calm s1 s2 → calm s2 s3 → calm s1 s3.
Proof.
  intros (es1 & E1 & H1) (es2 & E2 & H2). exists (es1 ++ es2).
  split; [by rewrite E2, E1, app_assoc | by apply Forall_app].
Qed.

Lemma calm_same s s' : effects s' = effects s → calm s s'.
Proof. intros E. exists []. by rewrite E, app_nil_r. Qed.

Lemma calm_emit es s :
  Forall (λ ef, is_begin ef = false) es → calm s (emit es s).
Proof. intros H. by exists es. Qed.

Lemma calm_updateProgress e id data s : calm s (updateProgress e id data s).
Proof.
  unfold calm. rewrite updateProgress_effects. eexists. split; [done|].
  destruct (sseClients s !! id); [|done].
  apply Forall_app. split; by apply Forall_fmap, Forall_true.
Qed.

Lemma calm_quiet id s s' : calm s s' → quiet id s s'.
Proof.
  intros (es & E & H). exists es. split; [done|].
  eapply Forall_impl; [exact H|]. by intros [] ?.
Qed.

(** The primitives, in a form that extends a chain on the right. *)
Section calm.
Context (s0 : State).

Lemma calm_eq s s' : effects s' = effects s → calm s0 s → calm s0 s'.
Proof. intros E H. eapply calm_trans; [exact H | by apply calm_same]. Qed.

Lemma calm_update e id data s : calm s0 s → calm s0 (updateProgress e id data s).
Proof. intros H. eapply calm_trans; [exact H | apply calm_updateProgress]. Qed.

Lemma calm_emitted es s :
  Forall (λ ef, is_begin ef = false) es → calm s0 s → calm s0 (emit es s).
Proof. intros Hes H. eapply calm_trans; [exact H | by apply calm_emit]. Qed.

Lemma calm_set_activeDownloads f s : calm s0 s → calm s0 (set_activeDownloads f s).
Proof. by apply calm_eq. Qed.
Lemma calm_set_downloadQueue f s : calm s0 s → calm s0 (set_downloadQueue f s).
Proof. by apply calm_eq. Qed.
Lemma calm_set_downloadProgress f s : calm s0 s → calm s0 (set_downloadProgress f s).
Proof. by apply calm_eq. Qed.
Lemma calm_set_sseClients f s : calm s0 s → calm s0 (set_sseClients f s).
Proof. by apply calm_eq. Qed.
Lemma calm_set_activeProcesses f s : calm s0 s → calm s0 (set_activeProcesses f s).
Proof. by apply calm_eq. Qed.
Lemma calm_set_downloadTimeouts f s : calm s0 s → calm s0 (set_downloadTimeouts f s).
Proof. by apply calm_eq. Qed.
Lemma calm_set_progressCleanupTimers f s :
  calm s0 s → calm s0 (set_progressCleanupTimers f s).
Proof. by apply calm_eq. Qed.
Lemma calm_set_jobs f s : calm s0 s → calm s0 (set_jobs f s).
Proof. by apply calm_eq. Qed.
Lemma calm_set_issued f s : calm s0 s → calm s0 (set_issued f s).
Proof. by apply calm_eq. Qed.

Lemma calm_updated e id s s' : updated e id s s' → calm s0 s → calm s0 s'.
Proof. induction 1; [done|]. intros. by apply calm_update, IHupdated. Qed.

Lemma calm_broadcast_from e index items s :
  calm s0 s → calm s0 (broadcast_from e index items s).
Proof.
  revert index s. induction items as [|item rest IH]; intros index s H;
    simpl; [done|].
  by apply IH, calm_update.
Qed.

Lemma calm_broadcastQueuePositions e s :
  calm s0 s → calm s0 (broadcastQueuePositions e s).
Proof. apply calm_broadcast_from. Qed.

Lemma calm_kill id info s :
  calm s0 s → calm s0 (emit (kill_effects id info ++ cleanup_effects info) s).
Proof.
  apply calm_emitted. unfold kill_effects, cleanup_effects.
  repeat case_match; by repeat constructor.
Qed.

Lemma calm_mergeAudioFiles e id inDir outDir o s :
  calm s0 s → calm s0 (mergeAudioFiles e id inDir outDir o s).1.
Proof.
  intros H. unfold mergeAudioFiles. repeat case_match; simpl; try done.
  - apply calm_emitted; [by repeat constructor | done].
  - apply calm_set_activeProcesses, calm_emitted; [by repeat constructor | done].
Qed.
End calm.

Ltac calm :=
  repeat first
    [ assumption
    | apply calm_refl
    | apply calm_update
    | apply calm_kill
    | apply calm_emitted; [by repeat constructor|]
    | apply calm_broadcastQueuePositions
    | apply calm_set_activeDownloads
    | apply calm_set_downloadQueue
    | apply calm_set_downloadProgress
    | apply calm_set_sseClients
    | apply calm_set_activeProcesses
    | apply calm_set_downloadTimeouts
    | apply calm_set_progressCleanupTimers
    | apply calm_set_jobs
    | apply calm_set_issued ].

(** [next] *)

Lemma started_calm s s' id :
  calm s s' → id ∉ started_ids (effects s') → id ∉ started_ids (effects s).
Proof.
  intros (es & E & _) H Hin. apply H. rewrite E, started_ids_app.
  apply elem_of_app. by left.
Qed.

Lemma next_refl s : next s s.
Proof. intros id H. split; [done | apply quiet_refl]. Qed.

Lemma next_trans s1 s2 s3 : next s1 s2 → next s2 s3 → next s1 s3.
Proof.
  intros H1 H2 id H3. destruct (H2 id H3) as [W2 Q2].
  destruct (H1 id W2) as [W1 Q1]. split; [done | by eapply quiet_trans].
Qed.

Lemma next_calm s s' :
  calm s s' →
  (∀ id j out, jobs s' !! id = Some j → phase j = Counting out →
     ∃ j' out', jobs s !! id = Some j' ∧ phase j' = Counting out') →
  next s s'.
Proof.
  intros Hc Hj id [Hw|(j & out & Hw & Hp)]; (split; [|by apply calm_quiet]).
  - left. by eapply started_calm.
  - right. eauto.
Qed.

Lemma next_same s s' : calm s s' → jobs s' = jobs s → next s s'.
Proof. intros Hc Hj. apply next_calm; [done|]. rewrite Hj. eauto. Qed.

Lemma next_admit_one e item rest s :
  downloadQueue s = item :: rest → Inv s → next s (admit_one e item s).
Proof.
  intros Hq HI.
  assert (downloadId item ∉ started_ids (effects s)) as Hns.
  { apply queued_not_started; [done|]. unfold queue_ids. rewrite Hq. set_solver. }
  assert (calm s (emit [LogProcessing (downloadId item)
            (activeDownloads (broadcastQueuePositions e
               (set_activeDownloads (λ n, n + 1)%Z (set_downloadQueue (drop 1) s))))]
            (broadcastQueuePositions e
               (set_activeDownloads (λ n, n + 1)%Z (set_downloadQueue (drop 1) s)))))
    as Hpre by calm.
  intros id Hw. unfold admit_one in *.
  destruct (decide (id = downloadId item)) as [->|Hne].
  - split; [by left|]. apply calm_quiet.
    destruct Hw as [Hw|(j & out & Hj & Hp)].
    { exfalso. apply Hw. rewrite processDownload_started. frame.
      apply elem_of_app. right. set_solver. }
    rewrite processDownload_jobs, lookup_insert_eq in Hj. simplify_eq.
    simpl in Hp. unfold first_phase in Hp.
    destruct (counts_first (task item)) eqn:Ec; [|done].
    unfold counts_first in Ec. unfold processDownload.
    destruct (type (task item)); [done|]. unfold downloadAudio. rewrite Ec. calm.
  - split.
    + destruct Hw as [Hw|(j & out & Hj & Hp)]; [left|right].
      * rewrite processDownload_started in Hw. frame_in Hw. set_solver.
      * rewrite processDownload_jobs, lookup_insert_ne in Hj by done.
        frame_in Hj. eauto.
    + eapply quiet_trans; [apply calm_quiet, Hpre|].
      apply (untouched_processDownload id e (downloadId item) (task item) _ _);
        [done | apply untouched_refl].
Qed.
End Gate.

Module GateSteps.
Import ProgressFacts Frames Scheduler SchedulerSteps Locality LocalitySteps
  Admits Shape ShapeSteps Gate.

Arguments obj : simpl never.
Arguments updateProgress : simpl never.
Arguments broadcastQueuePositions : simpl never.
Arguments processDownload : simpl never.
Arguments processQueue : simpl never.
Arguments settle : simpl never.

Lemma next_loop e items s :
  downloadQueue s = items → Inv s → next s (processQueue_loop e items s).
Proof.
  revert s. induction items as [|item rest IH]; intros s Hq HI;
    [apply next_refl|].
  rewrite loop_unfold.
  destruct (activeDownloads s <? CONFIG.MAX_CONCURRENT_DOWNLOADS)%Z eqn:Hlt;
    [|apply next_refl].
  apply Z.ltb_lt in Hlt.
  eapply next_trans; [by eapply next_admit_one|].
  apply IH; [by rewrite admit_one_queue, Hq | by eapply Inv_admit_one].
Qed.

Lemma next_processQueue e s0 s : Inv s → next s0 s → next s0 (processQueue e s).
Proof. intros HI H. eapply next_trans; [exact H | by apply next_loop]. Qed.

Lemma next_settling e id outcome s : next s (settling e id outcome s).
Proof.
  apply next_calm.
  - unfold settling. calm. repeat case_match; calm.
  - intros x j out. unfold settling. simpl. intros Hx Hp.
    apply lookup_delete_Some in Hx as [_ Hx].
    exists j, out. split; [|done]. revert Hx. repeat case_match; by frame.
Qed.

Lemma next_settle e id outcome s0 s :
  is_Some (jobs s !! id) → Inv s → next s0 s → next s0 (settle e id outcome s).
Proof.
  intros Hj HI H. rewrite settle_unfold.
  apply next_processQueue; [by apply settling_Inv|].
  eapply next_trans; [exact H | apply next_settling].
Qed.

Lemma next_finish_merge e id f s0 s :
  is_Some (jobs s !! id) → Inv s → next s0 s → next s0 (finish_merge e id f s).
Proof.
  intros Hj HI H. unfold finish_merge.
  destruct (merged_stat e); apply next_settle; try (by frame).
  - do 2 apply Inv_updateProgress. by apply Inv_emit.
  - eapply next_trans; [exact H|]. apply next_same; [calm | by frame].
  - apply Inv_emit; [done|]. apply Inv_updateProgress. by apply Inv_emit.
  - eapply next_trans; [exact H|]. apply next_same; [calm | by frame].
Qed.

(** The download proper begins for a task that was admitted; that task
    no longer waits. *)
Lemma next_audio_begin e id o s :
  id ∈ started_ids (effects s) → next s (audio_begin e id o s).
Proof.
  intros Hs x Hw. destruct (decide (x = id)) as [->|Hne].
  - exfalso. destruct Hw as [Hw|(j & out & Hj & Hp)].
    + apply Hw. by rewrite audio_begin_started.
    + unfold audio_begin in Hj. simpl in Hj. rewrite lookup_insert_eq in Hj.
      by simplify_eq.
  - split.
    + destruct Hw as [Hw|(j & out & Hj & Hp)]; [left|right].
      * by rewrite audio_begin_started in Hw.
      * unfold audio_begin in Hj. simpl in Hj.
        rewrite lookup_insert_ne in Hj by done. frame_in Hj.
        destruct (merge o); frame_in Hj; eauto.
    + apply (untouched_audio_begin x e id o s s); [done | apply untouched_refl].
Qed.

(** Changing the phase of a pending task, or keeping it in the pre-count. *)
Lemma next_insert_job id j s0 s :
  (∀ out, phase j = Counting out →
     ∃ j' out', jobs s !! id = Some j' ∧ phase j' = Counting out') →
  next s0 s → next s0 (set_jobs (insert id j) s).
Proof.
  intros Hj H. eapply next_trans; [exact H|]. apply next_calm; [calm|].
  intros x j' out. simpl. intros Hx Hp.
  apply lookup_insert_Some in Hx as [[<- <-]|[Hne Hx]]; eauto.
Qed.

Lemma step_next e ev s s' : step e ev s = Some s' → Inv s → next s s'.
Proof.
  intros Hstep HI. destruct ev; simpl in Hstep.
  - case_bool_decide as Hfresh; [done|]. simplify_eq.
    unfold api_download, enqueueDownload. apply next_processQueue.
    + destruct HI as [Ha Hb Hf Hn Hj Hp].
      apply Inv_emit; [done|]. apply Inv_updateProgress.
      split; frame; try done.
      * unfold queue_ids in *. frame. rewrite fmap_app, app_assoc. simpl.
        by apply sublist_app.
      * apply NoDup_app. split_and!; [done| |apply NoDup_singleton].
        intros x Hx ?%list_elem_of_singleton. by subst.
    + apply next_same; [calm | by frame].
  - simplify_eq. unfold api_cancel, removeFromQueue.
    destruct (list_find _ _) as [[index item]|]; simpl.
    + apply next_same; [calm | by frame].
    + destruct (activeProcesses s !! id) as [info|]; simpl; [|apply next_refl].
      apply next_same; [calm | by frame].
  - simplify_eq. unfold api_progress.
    case_bool_decide; (apply next_same; [calm | done]).
  - simplify_eq. unfold cleanupSSEClient.
    repeat case_match; try apply next_refl; (apply next_same; [calm | done]).
  - destruct (jobs s !! id) as [j|] eqn:Hj; [|done].
    destruct (phase j) eqn:Hp; simplify_eq.
    apply next_insert_job; [eauto | apply next_refl].
  - destruct (jobs s !! id) as [j|] eqn:Hj; [|done].
    destruct (phase j); simplify_eq.
    assert (is_Some (jobs s !! id)) as Hs by by rewrite Hj.
    assert (id ∈ started_ids (effects s)) as Hst
      by by apply (inv_jobs s HI), elem_of_dom.
    unfold count_onClose. repeat case_match.
    + apply next_settle; [done | by apply Inv_emit|].
      apply next_same; [calm | done].
    + by apply next_audio_begin.
    + by apply next_audio_begin.
  - destruct (jobs s !! id) as [j|] eqn:Hj; [|done].
    destruct (phase j); simplify_eq.
    apply next_audio_begin, (inv_jobs s HI), elem_of_dom. by rewrite Hj.
  - destruct (jobs s !! id) as [j|] eqn:Hj; [|done].
    destruct (phase j) as [|l|] eqn:Hp; simplify_eq.
    unfold on_stdout. destruct (type (options j)).
    + pose proof (video_onData_updated e id output l s) as Hu.
      destruct (video_onData e id output l s) as [s1 l1]. simpl in Hu.
      apply next_insert_job; [done|].
      apply next_same; [by eapply calm_updated; [|apply calm_refl]|].
      by apply updated_frame in Hu as (_&_&_&_&->&_).
    + pose proof (audio_onData_updated e id (format (options j)) output l s) as Hu.
      destruct (audio_onData e id _ output l s) as [s1 l1]. simpl in Hu.
      apply next_insert_job; [done|].
      apply next_same; [by eapply calm_updated; [|apply calm_refl]|].
      by apply updated_frame in Hu as (_&_&_&_&->&_).
  - destruct (jobs s !! id) as [j|] eqn:Hj; [|done].
    destruct (phase j) as [|l|] eqn:Hp; simplify_eq.
    assert (is_Some (jobs s !! id)) as Hs by by rewrite Hj.
    destruct (type (options j)) eqn:Et.
    + unfold video_onClose. repeat case_match.
      * apply next_settle; [done..|apply next_refl].
      * apply next_settle; [by frame|by do 2 apply Inv_updateProgress|].
        apply next_same; [calm | by frame].
      * apply next_settle; [done..|apply next_refl].
    + unfold audio_onClose.
      destruct (is_cancelled _);
        [apply next_settle; [done|by apply Inv_emit|apply next_same; [calm|done]]|].
      destruct (negb _);
        [apply next_settle; [done|by apply Inv_emit|apply next_same; [calm|done]]|].
      destruct (merge (options j)) eqn:Em.
      * set (s1 := updateProgress _ _ _ s).
        assert (Inv s1) as HI1 by by apply Inv_updateProgress.
        assert (next s s1) as H1 by (apply next_same; subst s1; [calm | by frame]).
        assert (is_Some (jobs s1 !! id)) as Hs1 by (subst s1; by frame).
        clearbody s1.
        pose proof (calm_mergeAudioFiles s1 e id (sessionTempDir id) downloadsDir
                      (options j) s1 (calm_refl s1)) as H2.
        pose proof (mergeAudioFiles_jobs e id (sessionTempDir id) downloadsDir
                      (options j) s1) as Hj2.
        destruct (mergeAudioFiles e id _ _ _ s1) as [s2 r] eqn:Em2.
        apply mergeAudioFiles_Inv in Em2 as [HI2 _]; [|done..].
        simpl in H2, Hj2.
        assert (is_Some (jobs s2 !! id)) as Hs2 by by rewrite Hj2.
        assert (next s s2) as Hn2
          by (eapply next_trans; [exact H1 | by apply next_same]).
        destruct r.
        -- apply next_settle; [done|by apply Inv_emit|].
           eapply next_trans; [exact Hn2 | apply next_same; [calm | done]].
        -- by apply next_finish_merge.
        -- by apply next_insert_job.
      * apply next_settle; [by frame|by do 2 apply Inv_updateProgress|].
        apply next_same; [calm | by frame].
  - destruct (jobs s !! id) as [j|] eqn:Hj; [|done].
    destruct (phase j); simplify_eq.
    assert (is_Some (jobs s !! id)) as Hs by by rewrite Hj.
    unfold worker_onError. destruct (type (options j)).
    + apply next_settle; [done..|apply next_refl].
    + apply next_settle; [done|by apply Inv_emit|apply next_same; [calm|done]].
  - destruct (jobs s !! id) as [j|] eqn:Hj; [|done].
    destruct (phase j); simplify_eq.
    assert (is_Some (jobs s !! id)) as Hs by by rewrite Hj.
    unfold ffmpeg_onClose. case_bool_decide.
    + apply next_finish_merge; [done..|apply next_refl].
    + apply next_settle; [done|by apply Inv_emit|apply next_same; [calm|done]].
  - destruct (jobs s !! id) as [j|] eqn:Hj; [|done].
    destruct (phase j); simplify_eq.
    apply next_settle; [simpl; by rewrite Hj|by apply Inv_emit|apply next_same; [calm|done]].
  - destruct (downloadTimeouts s !! id) as [[|]|]; simplify_eq.
    unfold download_timeout. simpl.
    destruct (activeProcesses s !! id) as [info|];
      [|apply next_same; [calm|done]].
    destruct (cancelled info); [apply next_same; [calm|done]|].
    apply next_same; [calm | by frame].
  - destruct (progressCleanupTimers s !! id); simplify_eq.
    unfold progressCleanup. apply next_same; [calm|done].
Qed.

Lemma Gated_initial : Gated initial.
Proof. intros id _. constructor. Qed.

Lemma Gated_next s s' : next s s' → Gated s → Gated s'.
Proof.
  intros Hn H id Hw. destruct (Hn id Hw) as [Hw0 (es & E & Hes)].
  unfold not_begun. rewrite E. apply Forall_app. split; [by apply H | done].
Qed.

Lemma run_Gated evs s s' : run evs s = Some s' → Inv s → Gated s → Gated s'.
Proof.
  revert s. induction evs as [|[e ev] evs IH]; intros s Hrun HI H; simpl in Hrun.
  - by simplify_eq.
  - destruct (step e ev s) as [s1|] eqn:E; [|done].
    eapply IH; [done| |]; [by eapply step_Inv|].
    eapply Gated_next; [by eapply step_next | done].
Qed.

Lemma reachable_Gated evs s : run evs initial = Some s → Gated s.
Proof.
  intros H. eapply run_Gated; [done | apply Inv_initial | apply Gated_initial].
Qed.
End GateSteps.

(** ** How a task ends *)

Module Outcomes.
Import ProgressFacts RecentFacts Frames Scheduler SchedulerSteps Locality
  LocalitySteps Shape ShapeSteps Gate GateSteps.

Arguments obj : simpl never.
Arguments updateProgress : simpl never.
Arguments broadcastQueuePositions : simpl never.
Arguments processDownload : simpl never.
Arguments processQueue : simpl never.
Arguments settle : simpl never.

(** Settling the task of [id] leaves its progress record as the [catch]
    left it, removes the task and its process record, and begins
    nothing for [id]. *)
Lemma settle_view e id outcome s :
  id ∉ queue_ids s →
  downloadProgress (settle e id outcome s) !! id
  = downloadProgress (settling e id outcome s) !! id
  ∧ jobs (settle e id outcome s) !! id = None
  ∧ activeProcesses (settle e id outcome s) !! id = None
  ∧ quiet id s (settle e id outcome s).
Proof.
  intros Hq. rewrite settle_unfold.
  destruct (untouched_processQueue id e (settling e id outcome s)
              (settling e id outcome s)) as [Hv Hquiet];
    [|apply untouched_refl|].
  { unfold settling, queue_ids in *. simpl. repeat case_match; by frame. }
  unfold view in Hv. injection Hv as -> -> -> _.
  split_and!; [done|..].
  - unfold settling. simpl. apply lookup_delete_eq.
  - unfold settling. simpl. apply lookup_delete_eq.
  - eapply quiet_trans; [|exact Hquiet].
    apply calm_quiet. unfold settling. calm. repeat case_match; calm.
Qed.







End Outcomes.

(** ** The progress value *)

Module ProgressBounds.
Import ProgressFacts Frames.

Arguments obj : simpl never.
Arguments updateProgress : simpl never.
Arguments broadcastQueuePositions : simpl never.
Arguments processDownload : simpl never.
Arguments processQueue : simpl never.
Arguments settle : simpl never.

Lemma run_snoc evs e ev s : run (evs ++ [(e, ev)]) s = run evs s ≫= step e ev.
Proof.
  revert s. induction evs as [|[e' ev'] evs IH]; intros s; simpl.
  - by destruct (step e ev s).
  - destruct (step e' ev' s); [apply IH | done].
Qed.


Lemma two_streams_observed :
  SampleProgress.observe_progress (run SampleProgress.two_streams initial) "job1"
  = Some (Some (VStr "downloading_video"), Some (8500 # 100)%Q).
Proof. vm_compute. reflexivity. Qed.

Lemma next_stream_observed :
  SampleProgress.observe_progress
    (run (SampleProgress.two_streams ++ [SampleProgress.next_stream]) initial) "job1"
  = Some (Some (VStr "downloading_video"), Some (0 # 1000)%Q).
Proof. vm_compute. reflexivity. Qed.

(** C2, as stated, fails.  The worker of a video download reports
    100% of one stream, which sets the progress to 85, and then 0.0% of
    the next stream, which sets it to 0; the status is
    'downloading_video' before and after. *)
Lemma progress_never_decreases_fails : ¬ progress_never_decreases.
Proof.
  intros H.
  pose proof two_streams_observed as H1. pose proof next_stream_observed as H2.
  unfold SampleProgress.next_stream in H2. rewrite run_snoc in H2.
  destruct (run SampleProgress.two_streams initial) as [s|] eqn:Hrun; [|done].
  change (Some s ≫= ?f) with (f s) in H2.
  match type of H2 with
  | context [step ?e ?ev s] => destruct (step e ev s) as [s'|] eqn:Hstep; [|done]
  end.
  unfold SampleProgress.observe_progress in H1, H2.
  injection H1 as Hst1 Hp1. injection H2 as Hst2 Hp2.
  specialize (H _ s _ _ s' "job1" _ _ Hrun Hstep Hp1 Hp2).
  rewrite Hst1, Hst2 in H. specialize (H eq_refl eq_refl).
  unfold Qle in H. simpl in H. lia.
Qed.

(** The pairs of status and progress that the server writes. *)

Lemma bounded_obj st p rest :
  paired st p →
  bounded (obj (("status", VStr st) :: ("progress", VNum p) :: rest)).
Proof.
  intros H. exists st, p. split_and!; [..|done].
  - unfold obj. simpl. apply lookup_insert_eq.
  - unfold obj. simpl. rewrite lookup_insert_ne by done. apply lookup_insert_eq.
Qed.

Lemma paired_low st p :
  st ≠ "finished" → st ≠ "error" → st ≠ "cancelled" → (p <= 98)%Q → paired st p.
Proof.
  intros ? ? ? ?. split_and!; [by intros ?| |done]. by intros [?|?].
Qed.

Lemma paired_zero st : st ≠ "finished" → paired st 0.
Proof.
  intros ?. split_and!; [by intros ? | by intros _ | by intros _].
Qed.

Lemma paired_finished : paired "finished" 100.
Proof.
  split_and!; [by intros _ | by intros [?|?] | by intros ?].
Qed.

Lemma Qmin_low a b : (b <= 98)%Q → (Qmin a b <= 98)%Q.
Proof. intros H. eapply Qle_trans; [apply Q.le_min_r | done]. Qed.

Lemma Bounded_initial : Bounded initial.
Proof. intros id rec H. simpl in H. by rewrite lookup_empty in H. Qed.

Lemma Bounded_same s s' :
  downloadProgress s' = downloadProgress s → Bounded s → Bounded s'.
Proof. intros E H id rec. rewrite E. apply H. Qed.

Lemma Bounded_update e id data s :
  bounded data → Bounded s → Bounded (updateProgress e id data s).
Proof.
  intros (st & p & Hs & Hp & Hb) H x rec. rewrite updateProgress_store.
  intros Hx. apply lookup_insert_Some in Hx as [[<- <-]|[_ Hx]]; [|by eapply H].
  exists st, p. rewrite !newProgress_lookup.
  rewrite !decide_False by done. by rewrite Hs, Hp.
Qed.

Lemma Bounded_delete id s :
  Bounded s → Bounded (set_downloadProgress (delete id) s).
Proof.
  intros H x rec. simpl. intros Hx. apply lookup_delete_Some in Hx as [_ Hx].
  by eapply H.
Qed.

Section same.
Context (s : State) (H : Bounded s).

Lemma Bounded_emit es : Bounded (emit es s).
Proof. by apply (Bounded_same s). Qed.
Lemma Bounded_set_activeDownloads f : Bounded (set_activeDownloads f s).
Proof. by apply (Bounded_same s). Qed.
Lemma Bounded_set_downloadQueue f : Bounded (set_downloadQueue f s).
Proof. by apply (Bounded_same s). Qed.
Lemma Bounded_set_sseClients f : Bounded (set_sseClients f s).
Proof. by apply (Bounded_same s). Qed.
Lemma Bounded_set_activeProcesses f : Bounded (set_activeProcesses f s).
Proof. by apply (Bounded_same s). Qed.
Lemma Bounded_set_downloadTimeouts f : Bounded (set_downloadTimeouts f s).
Proof. by apply (Bounded_same s). Qed.
Lemma Bounded_set_progressCleanupTimers f :
  Bounded (set_progressCleanupTimers f s).
Proof. by apply (Bounded_same s). Qed.
Lemma Bounded_set_jobs f : Bounded (set_jobs f s).
Proof. by apply (Bounded_same s). Qed.
Lemma Bounded_set_issued f : Bounded (set_issued f s).
Proof. by apply (Bounded_same s). Qed.
End same.

Ltac paired :=
  first
    [ apply paired_finished
    | apply paired_zero; done
    | apply paired_low; [done..|];
      first [ apply Qmin_low; done | done ] ].

Ltac bounded :=
  repeat first
    [ assumption
    | apply Bounded_update; [apply bounded_obj; paired|]
    | apply Bounded_emit
    | apply Bounded_set_activeDownloads
    | apply Bounded_set_downloadQueue
    | apply Bounded_set_sseClients
    | apply Bounded_set_activeProcesses
    | apply Bounded_set_downloadTimeouts
    | apply Bounded_set_progressCleanupTimers
    | apply Bounded_set_jobs
    | apply Bounded_set_issued
    | apply Bounded_delete ].

Lemma Bounded_broadcast_from e index items s :
  Bounded s → Bounded (broadcast_from e index items s).
Proof.
  revert index s. induction items as [|item rest IH]; intros index s H;
    simpl; [done|].
  apply IH. unfold queued_data. bounded.
Qed.

Lemma Bounded_broadcastQueuePositions e s :
  Bounded s → Bounded (broadcastQueuePositions e s).
Proof. apply Bounded_broadcast_from. Qed.

Lemma Bounded_audio_begin e id o s : Bounded s → Bounded (audio_begin e id o s).
Proof. intros H. unfold audio_begin. bounded. destruct (merge o); bounded. Qed.

Lemma Bounded_processDownload e id o s :
  Bounded s → Bounded (processDownload e id o s).
Proof.
  intros H. unfold processDownload. destruct (type o).
  - unfold downloadVideo. bounded.
  - unfold downloadAudio. destruct (merge o && _).
    + bounded.
    + apply Bounded_audio_begin. bounded.
Qed.

Lemma Bounded_loop e items s : Bounded s → Bounded (processQueue_loop e items s).
Proof.
  revert s. induction items as [|item rest IH]; intros s H; simpl; [done|].
  destruct (_ <? _)%Z; [|done].
  apply IH, Bounded_processDownload. bounded.
  apply Bounded_broadcastQueuePositions. bounded.
Qed.

Lemma Bounded_processQueue e s : Bounded s → Bounded (processQueue e s).
Proof. apply Bounded_loop. Qed.

Lemma Bounded_settle e id outcome s : Bounded s → Bounded (settle e id outcome s).
Proof.
  intros H. unfold settle. apply Bounded_processQueue. bounded.
  destruct outcome; [|done]. destruct (negb _); [|done].
  unfold error_data. bounded.
Qed.

Lemma Bounded_finish_merge e id f s : Bounded s → Bounded (finish_merge e id f s).
Proof.
  intros H. unfold finish_merge, finalizing_data.
  destruct (merged_stat e); apply Bounded_settle; bounded.
Qed.

Lemma Bounded_mergeAudioFiles e id inDir outDir o s :
  Bounded s → Bounded (mergeAudioFiles e id inDir outDir o s).1.
Proof. intros H. unfold mergeAudioFiles. repeat case_match; simpl; bounded. Qed.

Lemma audio_percent_low l p : (audio_percent l p <= 98)%Q.
Proof. unfold audio_percent. by apply Qmin_low. Qed.

Lemma Bounded_video_onData e id output l s :
  Bounded s → Bounded (video_onData e id output l s).1.
Proof.
  intros H. unfold video_onData.
  destruct (is_cancelled _); [done|].
  destruct (date_now e - lastProgressUpdate l >? 500)%Z;
    [destruct (Output.match_percent output)|]; simpl;
    repeat (match goal with |- context [if ?c then _ else _] => destruct c end);
    bounded.
Qed.

Lemma Bounded_audio_onData e id fmt output l s :
  Bounded s → Bounded (audio_onData e id fmt output l s).1.
Proof.
  intros H. unfold audio_onData.
  destruct (is_cancelled _); [done|].
  destruct (Output.match_item output) as [[cur tot]|]; simpl;
  (destruct (date_now e - _ >? 500)%Z;
    [destruct (Output.match_percent output)|]; simpl;
    repeat (match goal with |- context [if ?c then _ else _] => destruct c end);
    repeat first
      [ assumption
      | apply Bounded_update;
        [apply bounded_obj;
         first [paired | apply paired_low; [done..|apply audio_percent_low]]|] ]).
Qed.

Lemma step_Bounded e ev s s' : step e ev s = Some s' → Bounded s → Bounded s'.
Proof.
  intros Hstep H. destruct ev; simpl in Hstep.
  - case_bool_decide; [done|]. simplify_eq.
    unfold api_download, enqueueDownload. apply Bounded_processQueue. bounded.
  - simplify_eq. unfold api_cancel, removeFromQueue.
    destruct (list_find _ _) as [[index item]|]; simpl.
    + unfold cancelled_data. bounded.
      apply Bounded_broadcastQueuePositions. bounded.
    + destruct (activeProcesses s !! id); simpl; [|done].
      unfold cancelled_data. bounded.
  - simplify_eq. unfold api_progress. case_bool_decide; bounded.
  - simplify_eq. unfold cleanupSSEClient. repeat case_match; bounded.
  - repeat case_match; simplify_eq. bounded.
  - repeat case_match; simplify_eq. unfold count_onClose.
    repeat case_match;
      first [apply Bounded_settle; bounded | by apply Bounded_audio_begin].
  - repeat case_match; simplify_eq. by apply Bounded_audio_begin.
  - destruct (jobs s !! id) as [j|]; [|done].
    destruct (phase j) as [|l|]; simplify_eq.
    unfold on_stdout. destruct (type (options j)).
    + pose proof (Bounded_video_onData e id output l s H) as Hb.
      destruct (video_onData e id output l s) as [s1 l1]. simpl in Hb. bounded.
    + pose proof (Bounded_audio_onData e id (format (options j)) output l s H)
        as Hb.
      destruct (audio_onData e id _ output l s) as [s1 l1]. simpl in Hb. bounded.
  - destruct (jobs s !! id) as [j|]; [|done].
    destruct (phase j) as [|l|]; simplify_eq.
    destruct (type (options j)).
    + unfold video_onClose, finalizing_data, finished_data.
      repeat case_match; apply Bounded_settle; bounded.
    + unfold audio_onClose, finalizing_data, finished_data.
      destruct (is_cancelled _); [apply Bounded_settle; bounded|].
      destruct (negb _); [apply Bounded_settle; bounded|].
      destruct (merge (options j)); [|apply Bounded_settle; bounded].
      match goal with
      | |- context [mergeAudioFiles e id ?a ?b ?o ?x] =>
          pose proof (Bounded_mergeAudioFiles e id a b o x) as Hm;
          destruct (mergeAudioFiles e id a b o x) as [s2 r]
      end.
      simpl in Hm.
      assert (Bounded s2) as H2 by (apply Hm; bounded).
      destruct r;
        [apply Bounded_settle | apply Bounded_finish_merge | ]; bounded.
  - repeat case_match; simplify_eq.
    unfold worker_onError. destruct (type (options _));
      apply Bounded_settle; bounded.
  - repeat case_match; simplify_eq.
    unfold ffmpeg_onClose. case_bool_decide;
      [apply Bounded_finish_merge | apply Bounded_settle]; bounded.
  - repeat case_match; simplify_eq. apply Bounded_settle. bounded.
  - repeat case_match; simplify_eq.
    unfold download_timeout. simpl. repeat case_match; bounded.
  - repeat case_match; simplify_eq. unfold progressCleanup. bounded.
Qed.

Lemma run_Bounded evs s s' : run evs s = Some s' → Bounded s → Bounded s'.
Proof.
  revert s. induction evs as [|[e ev] evs IH]; intros s Hrun H; simpl in Hrun.
  - by simplify_eq.
  - destruct (step e ev s) as [s1|] eqn:E; [|done].
    eapply IH; [done|]. by eapply step_Bounded.
Qed.

(** C2, amended.  The progress value is overwritten by every update
    and can decrease; what every update keeps is the pairing of the
    value with the status: in every state that the server reaches, the
    record of a download has a status and a progress value, the value
    is 100 when the status is 'finished', 0 when it is 'error' or
    'cancelled', and at most 98 with every other status. *)
Theorem progress_paired_with_status evs s id rec :
  run evs initial = Some s → downloadProgress s !! id = Some rec →
  ∃ st p, status_of s id = Some st ∧ progress_of s id = Some p
          ∧ ((st = "finished" → p == 100)
             ∧ (st = "error" ∨ st = "cancelled" → p == 0)
             ∧ (st ≠ "finished" → p <= 98))%Q.
Proof.
  intros Hrun Hrec.
  destruct (run_Bounded evs initial s Hrun Bounded_initial id rec Hrec)
    as (st & p & Hs & Hp & Hb).
  exists st, p. unfold status_of, progress_of, field. rewrite Hrec. simpl.
  by rewrite Hs, Hp.
Qed.

Lemma progress_paired_with_status_witness :
  ∃ s st p, run SampleProgress.two_streams initial = Some s
            ∧ status_of s "job1" = Some st ∧ progress_of s "job1" = Some p
            ∧ (st ≠ "finished" → p <= 98)%Q.
Proof.
  pose proof two_streams_observed as H.
  destruct (run SampleProgress.two_streams initial) as [s|] eqn:Hrun; [|done].
  destruct (downloadProgress s !! "job1") as [rec|] eqn:Hrec.
  - destruct (progress_paired_with_status _ s "job1" rec Hrun Hrec)
      as (st & p & Hs & Hp & _ & _ & Hb).
    by exists s, st, p.
  - unfold SampleProgress.observe_progress, field in H. by rewrite Hrec in H.
Defined.
End ProgressBounds.

(** ** Cancellation outside the download phase *)

Module CancelGap.
Import ProgressBounds.





(** The merge step: the cancellation is accepted while ffmpeg is
    registered, and the exit of ffmpeg with code 0, delivered after it,
    overwrites 'cancelled' with 'finished'. *)
Lemma cancel_then_merge_exit_zero :
  SampleRace.observe_status (run SampleRace.cancel_in_merge initial) "job1"
  = Some (Some true, Some "cancelled")
  ∧ SampleRace.observe_status
      (run (SampleRace.cancel_in_merge ++ [SampleRace.merge_exit_zero]) initial)
      "job1"
    = Some (None, Some "finished").
Proof. split; vm_compute; reflexivity. Qed.
End CancelGap.

(** * Further properties of the server *)

(** ** The sanitized file name *)

Module SanitizeMore.
Import Js Sanitize JsFacts SanitizeFacts.

(** X1.  For every argument, [sanitizeFilename] returns a name of at
    most MAX_FILENAME_LENGTH = 150 code units that contains none of the
    characters of the replaced class (the characters < > : / \ | ? *,
    the double quote and the code units below 0x20) and no two
    consecutive dots; for a missing, non-string or empty argument it
    returns 'download'. *)
Theorem sanitizeFilename_guarantees a :
  length (sanitizeFilename a) ≤ 150
  ∧ safe (sanitizeFilename a)
  ∧ has_dot_run (sanitizeFilename a) = false
  ∧ ((∀ c s, a ≠ Str (c :: s)) → sanitizeFilename a = lit "download").
Proof.
  split_and!.
  - apply sanitizeFilename_length.
  - apply sanitizeFilename_safe.
  - apply sanitizeFilename_no_dot_run.
  - apply sanitizeFilename_default.
Qed.
End SanitizeMore.

(** ** Isolation of the downloads *)

Module Isolation.
Import ProgressFacts Frames Scheduler SchedulerSteps Line Locality LocalitySteps
  Admits Shape ShapeSteps Gate GateSteps.

Lemma one_running_observed :
  SampleIds.observe_ids (run SampleIds.one_running initial)
  = Some (["job1"], ["job1"], []).
Proof. vm_compute. reflexivity. Qed.

Lemma one_running_run :
  ∃ s, run SampleIds.one_running initial = Some s
       ∧ issued s = ["job1"] ∧ started_ids (effects s) = ["job1"]
       ∧ queue_ids s = [].
Proof.
  pose proof one_running_observed as H.
  destruct (run SampleIds.one_running initial) as [s|]; [|done].
  exists s. simpl in H. by simplify_eq.
Qed.

(** X2.  A callback that is about another download changes nothing of
    what the server holds about a download that is not waiting in the
    queue: its progress record, its pending task, its process record
    and its timeout are the same afterwards, and the callback creates
    no scratch directory and spawns no download worker for it. *)
Theorem callback_leaves_other_downloads e ev s s' id :
  step e ev s = Some s' → target ev ≠ id → id ∉ queue_ids s →
  downloadProgress s' !! id = downloadProgress s !! id
  ∧ jobs s' !! id = jobs s !! id
  ∧ activeProcesses s' !! id = activeProcesses s !! id
  ∧ downloadTimeouts s' !! id = downloadTimeouts s !! id
  ∧ quiet id s s'.
Proof.
  intros Hstep Hne Hq.
  destruct (step_untouched e ev s s' id Hstep Hne Hq) as [Hv Hquiet].
  unfold view in Hv. by simplify_eq.
Qed.

Lemma callback_leaves_other_downloads_witness :
  ∃ s s', run SampleIds.one_running initial = Some s
          ∧ step (Sample.env_at 2)
              (Submit "job2" Sample.video_job Sanitize.Missing) s = Some s'
          ∧ downloadProgress s' !! "job1" = downloadProgress s !! "job1".
Proof.
  destruct one_running_run as (s & Hrun & Hi & _ & Hq).
  assert (step (Sample.env_at 2)
            (Submit "job2" Sample.video_job Sanitize.Missing) s
          = Some (api_download (Sample.env_at 2) "job2" Sample.video_job
                    Sanitize.Missing s)) as Hstep.
  { simpl. rewrite Hi. reflexivity. }
  exists s, (api_download (Sample.env_at 2) "job2" Sample.video_job
               Sanitize.Missing s).
  split; [exact Hrun|]. split; [exact Hstep|].
  apply (callback_leaves_other_downloads _ _ s _ "job1" Hstep).
  - simpl. discriminate.
  - rewrite Hq. apply not_elem_of_nil.
Defined.

(** X3.  What a callback does to the admission line.  A submission
    appends a fresh identifier at the tail of the queue; a cancellation
    starts nothing and only removes from the queue; every callback then
    moves some prefix of the queue, in queue order, to execution and
    leaves the rest of the queue as it was. *)
Theorem callback_moves_queue_prefix e ev s s' :
  step e ev s = Some s' →
  match ev with
  | Submit id _ _ =>
      (id ∉ issued s)
      ∧ ∃ k, started_ids (effects s')
             = started_ids (effects s) ++ take k (queue_ids s ++ [id])
             ∧ queue_ids s' = drop k (queue_ids s ++ [id])
  | CancelRequest id =>
      started_ids (effects s') = started_ids (effects s)
      ∧ queue_ids s' `sublist_of` queue_ids s
  | _ =>
      ∃ k, started_ids (effects s') = started_ids (effects s) ++ take k (queue_ids s)
           ∧ queue_ids s' = drop k (queue_ids s)
  end.
Proof. intros Hstep. apply step_admits in Hstep. by destruct ev. Qed.

Lemma callback_moves_queue_prefix_witness :
  ∃ s', step (Sample.env_at 1) (Submit "job1" Sample.video_job Sanitize.Missing)
          initial = Some s'
        ∧ ∃ k, queue_ids s' = drop k (queue_ids initial ++ ["job1"]).
Proof.
  eexists. split; [reflexivity|].
  destruct (callback_moves_queue_prefix (Sample.env_at 1)
              (Submit "job1" Sample.video_job Sanitize.Missing) initial _ eq_refl)
    as (_ & k & _ & Hq).
  by exists k.
Defined.

(** X4.  In every state that the server reaches no identifier was
    issued twice, no download was started twice, no download waits
    twice in the queue, and no started download waits in the queue. *)
Theorem started_at_most_once evs s :
  run evs initial = Some s →
  NoDup (issued s) ∧ NoDup (started_ids (effects s)) ∧ NoDup (queue_ids s)
  ∧ (∀ id, id ∈ started_ids (effects s) → id ∉ queue_ids s).
Proof.
  intros Hrun. pose proof (reachable_Inv evs s Hrun) as HI.
  pose proof (Inv_nodup_started_queue s HI) as Hnd.
  apply NoDup_app in Hnd as (H1 & H2 & H3).
  split_and!; [apply HI|done..].
Qed.

Lemma started_at_most_once_witness :
  ∃ s, run Sample.three_submissions initial = Some s
       ∧ NoDup (started_ids (effects s)).
Proof.
  destruct Admission.three_submissions_run as (s & Hrun & _).
  exists s. split; [exact Hrun|].
  by destruct (started_at_most_once _ s Hrun) as (_ & H & _).
Defined.

(** X5.  In every state that the server reaches, a process record
    exists for a download exactly when its task is pending and past the
    playlist pre-count; a task that awaits the pre-count belongs to an
    audio download with the merge flag over a playlist URL, and a task
    in the merge step to an audio download with the merge flag. *)
Theorem process_record_iff_past_precount evs s id :
  run evs initial = Some s →
  (is_Some (activeProcesses s !! id)
   ↔ ∃ j, jobs s !! id = Some j ∧ ∀ out, phase j ≠ Counting out)
  ∧ (∀ j out, jobs s !! id = Some j → phase j = Counting out →
       type (options j) = audio ∧ merge (options j) = true
       ∧ Js.includes (Js.lit "playlist?list=") (url (options j)) = true)
  ∧ (∀ j f, jobs s !! id = Some j → phase j = Merging f →
       type (options j) = audio ∧ merge (options j) = true).
Proof.
  intros Hrun. pose proof (reachable_Inv evs s Hrun) as HI.
  pose proof (reachable_Shaped evs s Hrun) as Hsh.
  split_and!.
  - split.
    + intros Hp. pose proof Hp as Hp0.
      apply elem_of_dom, (inv_procs s HI), elem_of_dom in Hp as [j Hj].
      exists j. split; [done|]. intros out Hc.
      specialize (Hsh id j Hj). rewrite Hc in Hsh. destruct Hsh as [Hn _].
      rewrite Hn in Hp0. by destruct Hp0.
    + intros (j & Hj & Hc). specialize (Hsh id j Hj).
      destruct (phase j) eqn:E; [by destruct (Hc countOutput) | done | by destruct Hsh].
  - intros j out Hj Hc. specialize (Hsh id j Hj). rewrite Hc in Hsh.
    destruct Hsh as [_ Hcf]. unfold counts_first in Hcf.
    destruct (type (options j)); [done|].
    by apply andb_prop in Hcf as [? ?].
  - intros j f Hj Hm. specialize (Hsh id j Hj). rewrite Hm in Hsh. by destruct Hsh.
Qed.

Lemma process_record_iff_past_precount_witness :
  ∃ s, run Sample.three_submissions initial = Some s
       ∧ (is_Some (activeProcesses s !! "job3")
          ↔ ∃ j, jobs s !! "job3" = Some j ∧ ∀ out, phase j ≠ Counting out).
Proof.
  destruct Admission.three_submissions_run as (s & Hrun & _).
  exists s. split; [exact Hrun|].
  by destruct (process_record_iff_past_precount _ s "job3" Hrun) as (H & _).
Defined.

(** X6.  In every state that the server reaches, a download that has
    not been admitted, whether it waits in the queue or was never
    submitted, has no pending task and no process record, and no
    scratch directory was created and no download worker was spawned
    for it. *)
Theorem nothing_runs_before_admission evs s id :
  run evs initial = Some s → id ∉ started_ids (effects s) →
  jobs s !! id = None ∧ activeProcesses s !! id = None ∧ not_begun s id.
Proof.
  intros Hrun Hns. pose proof (reachable_Inv evs s Hrun) as HI.
  assert (jobs s !! id = None) as Hj.
  { apply not_elem_of_dom. intros Hd. by apply Hns, (inv_jobs s HI). }
  split_and!; [done| |].
  - apply not_elem_of_dom. intros Hd. apply (inv_procs s HI) in Hd.
    apply elem_of_dom in Hd. rewrite Hj in Hd. by destruct Hd.
  - apply (reachable_Gated evs s Hrun). by left.
Qed.

Lemma nothing_runs_before_admission_witness :
  ∃ s, run Sample.three_submissions initial = Some s
       ∧ "job3" ∈ queue_ids s ∧ not_begun s "job3".
Proof.
  destruct Admission.three_submissions_run as (s & Hrun & _ & Hst & Hq).
  exists s. split; [exact Hrun|]. split; [rewrite Hq; constructor|].
  apply (nothing_runs_before_admission _ s "job3" Hrun).
  rewrite Hst. intros H. apply elem_of_cons in H as [H|H]; [discriminate H|].
  apply elem_of_cons in H as [H|H]; [discriminate H|]. by apply elem_of_nil in H.
Defined.
End Isolation.

(** ** How an audio download ends *)

Module AudioOutcomes.
Import ProgressFacts RecentFacts Frames Scheduler SchedulerSteps Locality
  LocalitySteps Shape ShapeSteps Gate GateSteps Outcomes.

Arguments obj : simpl never.
Arguments updateProgress : simpl never.
Arguments broadcastQueuePositions : simpl never.
Arguments processDownload : simpl never.
Arguments processQueue : simpl never.
Arguments settle : simpl never.

Lemma audio_running_observed m :
  SampleAudio.observe_audio (run (SampleAudio.audio_running m) initial) "job1"
  = Some (Some (audio, m, Js.lit "mp3", true), false).
Proof. destruct m; vm_compute; reflexivity. Qed.

Lemma audio_running_run m :
  ∃ s j l, run (SampleAudio.audio_running m) initial = Some s
           ∧ jobs s !! "job1" = Some j ∧ phase j = Downloading l
           ∧ type (options j) = audio ∧ merge (options j) = m
           ∧ format (options j) = Js.lit "mp3"
           ∧ is_cancelled (activeProcesses s !! "job1") = false.
Proof.
  pose proof (audio_running_observed m) as H.
  destruct (run (SampleAudio.audio_running m) initial) as [s|]; [|done].
  simpl in H.
  destruct (jobs s !! "job1") as [j|] eqn:Hj; [|done].
  destruct (phase j) as [|l|] eqn:Hp; [done| |done].
  exists s, j, l. injection H as H1 H2 H3 H4. by split_and!.
Qed.

Lemma field_settle e id outcome s f :
  id ∉ queue_ids s →
  field (settle e id outcome s) id f = field (settling e id outcome s) id f.
Proof.
  intros Hq. destruct (settle_view e id outcome s Hq) as (H & _).
  unfold field. by rewrite H.
Qed.

Lemma field_resolved e id s f :
  id ∉ queue_ids s → field (settle e id None s) id f = field s id f.
Proof. intros Hq. by rewrite field_settle. Qed.

Lemma field_rejected e id err s f :
  id ∉ queue_ids s → is_cancelled (activeProcesses s !! id) = false →
  field (settle e id (Some err) s) id f
  = field (updateProgress e id (error_data err) s) id f.
Proof.
  intros Hq Hc. rewrite field_settle by done.
  unfold settling. rewrite Hc. reflexivity.
Qed.

Lemma effects_settle e id outcome s ef :
  id ∉ queue_ids s → ef ∈ effects s → ef ∈ effects (settle e id outcome s).
Proof.
  intros Hq Hin. destruct (settle_view e id outcome s Hq) as (_ & _ & _ & es & E & _).
  rewrite E. apply elem_of_app. by left.
Qed.

(** X7.  When the worker of an audio download without the merge flag,
    not cancelled, exits with code 0, the record becomes 'finished'
    with progress 100 and its file list is the result of getRecentFiles
    on the shared downloads directory with the extension of the target
    format and the limit 10: at most 10 entries, newest first, drawn
    from the files of the directory with that extension. *)
Theorem audio_finished_files evs s e id j l :
  run evs initial = Some s →
  jobs s !! id = Some j → phase j = Downloading l →
  type (options j) = audio → merge (options j) = false →
  is_cancelled (activeProcesses s !! id) = false →
  let files := getRecentFiles (downloads_dir e) (dot_ext (format (options j))) 10 in
  (∃ s', step e (Close id (Some 0%Z)) s = Some s'
         ∧ status_of s' id = Some "finished"
         ∧ progress_of s' id = Some 100%Q
         ∧ field s' id "files" = Some (VFiles files)
         ∧ jobs s' !! id = None ∧ activeProcesses s' !! id = None)
  ∧ length files ≤ 10
  ∧ StronglySorted newer_first files
  ∧ (∀ fd, fd ∈ files →
       fd ∈ candidates (downloads_dir e) (dot_ext (format (options j)))).
Proof.
  intros Hrun Hj Hp Ht Hm Hc files.
  pose proof (reachable_Inv evs s Hrun) as HI.
  assert (id ∉ queue_ids s) as Hq by (apply pending_not_queued; by rewrite ?Hj).
  split_and!.
  - eexists. split.
    { simpl. rewrite Hj, Hp, Ht. unfold audio_onClose. rewrite Hc, Hm.
      rewrite bool_decide_eq_true_2 by done. simpl. reflexivity. }
    fold files.
    set (s2 := updateProgress e id (finished_data files) _).
    assert (id ∉ queue_ids s2) as Hq2 by (subst s2; unfold queue_ids in *; by frame).
    destruct (settle_view e id None s2 Hq2) as (_ & Hjob & Hproc & _).
    unfold status_of, progress_of. rewrite !field_resolved by done.
    split_and!; [| | |done|done].
    + subst s2.
      by rewrite (updateProgress_field _ _ _ _ "status" (VStr "finished")).
    + subst s2.
      by rewrite (updateProgress_field _ _ _ _ "progress" (VNum 100)).
    + subst s2. by apply (updateProgress_field _ _ _ _ "files").
  - apply getRecentFiles_length.
  - apply getRecentFiles_sorted.
  - intros fd. apply getRecentFiles_from_dir.
Qed.

Lemma audio_finished_files_witness :
  ∃ s s', run (SampleAudio.audio_running false) initial = Some s
          ∧ step (SampleAudio.env_session []) (Close "job1" (Some 0%Z)) s = Some s'
          ∧ status_of s' "job1" = Some "finished".
Proof.
  destruct (audio_running_run false) as (s & j & l & Hrun & Hj & Hp & Ht & Hm & _ & Hc).
  destruct (audio_finished_files _ s (SampleAudio.env_session []) "job1" j l
              Hrun Hj Hp Ht Hm Hc) as ((s' & Hs & Hst & _) & _).
  by exists s, s'.
Defined.

(** The close handler of an audio download with the merge flag, up to
    the merge step. *)
Lemma merge_close e id j l s :
  jobs s !! id = Some j → phase j = Downloading l →
  type (options j) = audio → merge (options j) = true →
  is_cancelled (activeProcesses s !! id) = false →
  step e (Close id (Some 0%Z)) s
  = Some (match mergeAudioFiles e id (sessionTempDir id) downloadsDir (options j)
                  (updateProgress e id
                     (obj [("status", VStr "merging_playlist");
                           ("progress", VNum 95);
                           ("message",
                            VMsg (MsgText "Menggabungkan file audio playlist..."))])
                     s) with
          | (s2, MergeRejected err) =>
              settle e id (Some err) (emit [CleanupDir (sessionTempDir id)] s2)
          | (s2, MergeCopied f) => finish_merge e id f s2
          | (s2, MergeSpawned f) => set_jobs (insert id (set_phase (Merging f) j)) s2
          end).
Proof.
  intros Hj Hp Ht Hm Hc. simpl. rewrite Hj, Hp, Ht. unfold audio_onClose.
  rewrite Hc, Hm. by rewrite bool_decide_eq_true_2 by done.
Qed.

(** X8.  The merge step with nothing to merge.  When the worker of an
    audio download with the merge flag exits with code 0 and the
    session directory holds no file of the target format, the task is
    rejected: the record says 'error' with the message of the missing
    files, the session directory is removed and the task and its
    process record are gone. *)
Theorem merge_without_files_fails evs s e id j l :
  run evs initial = Some s →
  jobs s !! id = Some j → phase j = Downloading l →
  type (options j) = audio → merge (options j) = true →
  is_cancelled (activeProcesses s !! id) = false →
  (∀ names, locale_sort e names ≡ₚ names) →
  filter (λ f, Js.endsWith (dot_ext (format (options j))) f = true) (session_dir e)
  = [] →
  ∃ s', step e (Close id (Some 0%Z)) s = Some s'
        ∧ status_of s' id = Some "error"
        ∧ field s' id "message" = Some (VMsg (MsgError ErrNoAudioFiles))
        ∧ CleanupDir (sessionTempDir id) ∈ effects s'
        ∧ jobs s' !! id = None ∧ activeProcesses s' !! id = None.
Proof.
  intros Hrun Hj Hp Ht Hm Hc Hsort Hnone.
  pose proof (reachable_Inv evs s Hrun) as HI.
  assert (id ∉ queue_ids s) as Hq by (apply pending_not_queued; by rewrite ?Hj).
  eexists. split; [by apply (merge_close e id j l)|].
  unfold mergeAudioFiles. rewrite Hnone.
  assert (locale_sort e [] = []) as -> by (apply Permutation_nil_r, Hsort).
  set (s2 := emit _ _).
  assert (id ∉ queue_ids s2) as Hq2 by (subst s2; unfold queue_ids in *; by frame).
  destruct (settle_view e id (Some ErrNoAudioFiles) s2 Hq2) as (_ & Hjob & Hproc & _).
  assert (is_cancelled (activeProcesses s2 !! id) = false) as Hc2
    by (subst s2; by frame).
  unfold status_of. rewrite !field_rejected by done.
  split_and!; [| | |done|done].
  - by rewrite (updateProgress_field _ _ _ _ "status" (VStr "error")).
  - by apply (updateProgress_field _ _ _ _ "message").
  - apply effects_settle; [done|]. subst s2. simpl.
    apply elem_of_app. right. constructor.
Qed.

Lemma merge_without_files_fails_witness :
  ∃ s s', run (SampleAudio.audio_running true) initial = Some s
          ∧ step (SampleAudio.env_session []) (Close "job1" (Some 0%Z)) s = Some s'
          ∧ status_of s' "job1" = Some "error".
Proof.
  destruct (audio_running_run true) as (s & j & l & Hrun & Hj & Hp & Ht & Hm & _ & Hc).
  destruct (merge_without_files_fails _ s (SampleAudio.env_session []) "job1" j l
              Hrun Hj Hp Ht Hm Hc) as (s' & Hs & Hst & _).
  - done.
  - done.
  - by exists s, s'.
Defined.

(** X9.  The merge step with a single file.  When the session directory
    holds exactly one file of the target format, that file is copied to
    the downloads directory under its own name, the session directory
    is removed and the record becomes 'finished' with progress 100 and
    that one file, with the size read from the copy. *)
Theorem merge_of_one_file_copies evs s e id j l f sz :
  run evs initial = Some s →
  jobs s !! id = Some j → phase j = Downloading l →
  type (options j) = audio → merge (options j) = true →
  is_cancelled (activeProcesses s !! id) = false →
  (∀ names, locale_sort e names ≡ₚ names) →
  filter (λ f, Js.endsWith (dot_ext (format (options j))) f = true) (session_dir e)
  = [f] →
  merged_stat e = Some sz →
  ∃ s', step e (Close id (Some 0%Z)) s = Some s'
        ∧ status_of s' id = Some "finished"
        ∧ progress_of s' id = Some 100%Q
        ∧ field s' id "files" = Some (VMerged f sz)
        ∧ CopyFile (Js.path_join (sessionTempDir id) f) (Js.path_join downloadsDir f)
          ∈ effects s'
        ∧ CleanupDir (sessionTempDir id) ∈ effects s'
        ∧ jobs s' !! id = None ∧ activeProcesses s' !! id = None.
Proof.
  intros Hrun Hj Hp Ht Hm Hc Hsort Hone Hstat.
  pose proof (reachable_Inv evs s Hrun) as HI.
  assert (id ∉ queue_ids s) as Hq by (apply pending_not_queued; by rewrite ?Hj).
  eexists. split; [by apply (merge_close e id j l)|].
  unfold mergeAudioFiles. rewrite Hone.
  assert (locale_sort e [f] = [f]) as -> by (apply Permutation_singleton_r, Hsort).
  unfold finish_merge. rewrite Hstat.
  set (s2 := updateProgress e id (obj (("status", VStr "finished") :: _)) _).
  assert (id ∉ queue_ids s2) as Hq2 by (subst s2; unfold queue_ids in *; by frame).
  destruct (settle_view e id None s2 Hq2) as (_ & Hjob & Hproc & _).
  unfold status_of, progress_of. rewrite !field_resolved by done.
  split_and!; [| | | | |done|done].
  - subst s2.
    by rewrite (updateProgress_field _ _ _ _ "status" (VStr "finished")).
  - subst s2.
    by rewrite (updateProgress_field _ _ _ _ "progress" (VNum 100)).
  - subst s2. by apply (updateProgress_field _ _ _ _ "files").
  - apply effects_settle; [done|]. subst s2.
    rewrite !updateProgress_effects. simpl. rewrite updateProgress_effects.
    rewrite !elem_of_app. left. left. left. right. constructor.
  - apply effects_settle; [done|]. subst s2.
    rewrite !updateProgress_effects. simpl.
    rewrite !elem_of_app. left. left. right. constructor.
Qed.

Lemma merge_of_one_file_copies_witness :
  ∃ s s', run (SampleAudio.audio_running true) initial = Some s
          ∧ step (SampleAudio.env_session [Js.lit "a.mp3"; Js.lit "a.jpg"])
              (Close "job1" (Some 0%Z)) s = Some s'
          ∧ field s' "job1" "files" = Some (VMerged (Js.lit "a.mp3") 7).
Proof.
  destruct (audio_running_run true)
    as (s & j & l & Hrun & Hj & Hp & Ht & Hm & Hf & Hc).
  destruct (merge_of_one_file_copies _ s
              (SampleAudio.env_session [Js.lit "a.mp3"; Js.lit "a.jpg"])
              "job1" j l (Js.lit "a.mp3") 7%Z Hrun Hj Hp Ht Hm Hc)
    as (s' & Hs & _ & _ & Hfiles & _).
  - done.
  - rewrite Hf. vm_compute. reflexivity.
  - reflexivity.
  - by exists s, s'.
Defined.
End AudioOutcomes.

(** ** Repeated cancellation *)

Module CancelTwice.
Import ProgressFacts Frames Scheduler SchedulerSteps Line CancelQueued
  CancelActive.

Arguments obj : simpl never.
Arguments updateProgress : simpl never.
Arguments broadcastQueuePositions : simpl never.
Arguments processDownload : simpl never.
Arguments processQueue : simpl never.
Arguments settle : simpl never.





End CancelTwice.

(** ** Invariants of the progress store *)

Module StoreInvariants.
Import ProgressFacts Frames ProgressBounds.

Arguments obj : simpl never.
Arguments updateProgress : simpl never.
Arguments broadcastQueuePositions : simpl never.
Arguments processDownload : simpl never.
Arguments processQueue : simpl never.
Arguments settle : simpl never.

(** A property of the progress store, the subscriber sets and the
    expiry timers that every update with a status and a progress value
    keeps is kept by every callback. *)
Section invariant.
Context (P : State → Prop).
Context (P_same : ∀ s s',
            downloadProgress s' = downloadProgress s →
            sseClients s' = sseClients s →
            progressCleanupTimers s' = progressCleanupTimers s →
            P s → P s').
Context (P_update : ∀ e id data s,
            bounded data → P s → P (updateProgress e id data s)).
Context (P_subscribe : ∀ id res s, P s → P (api_progress id res s)).
Context (P_disconnect : ∀ id res s, P s → P (cleanupSSEClient id res s)).

Lemma kept_emit es s : P s → P (emit es s).
Proof. by apply P_same. Qed.
Lemma kept_set_activeDownloads f s : P s → P (set_activeDownloads f s).
Proof. by apply P_same. Qed.
Lemma kept_set_downloadQueue f s : P s → P (set_downloadQueue f s).
Proof. by apply P_same. Qed.
Lemma kept_set_activeProcesses f s : P s → P (set_activeProcesses f s).
Proof. by apply P_same. Qed.
Lemma kept_set_downloadTimeouts f s : P s → P (set_downloadTimeouts f s).
Proof. by apply P_same. Qed.
Lemma kept_set_jobs f s : P s → P (set_jobs f s).
Proof. by apply P_same. Qed.
Lemma kept_set_issued f s : P s → P (set_issued f s).
Proof. by apply P_same. Qed.

Ltac keep :=
  repeat first
    [ assumption
    | apply P_update; [apply bounded_obj; paired|]
    | apply kept_emit
    | apply kept_set_activeDownloads
    | apply kept_set_downloadQueue
    | apply kept_set_activeProcesses
    | apply kept_set_downloadTimeouts
    | apply kept_set_jobs
    | apply kept_set_issued ].

Lemma kept_broadcast_from e index items s :
  P s → P (broadcast_from e index items s).
Proof.
  revert index s. induction items as [|item rest IH]; intros index s H;
    simpl; [done|].
  apply IH. unfold queued_data. keep.
Qed.

Lemma kept_broadcastQueuePositions e s : P s → P (broadcastQueuePositions e s).
Proof. apply kept_broadcast_from. Qed.

Lemma kept_audio_begin e id o s : P s → P (audio_begin e id o s).
Proof. intros H. unfold audio_begin. keep. destruct (merge o); keep. Qed.

Lemma kept_processDownload e id o s : P s → P (processDownload e id o s).
Proof.
  intros H. unfold processDownload. destruct (type o).
  - unfold downloadVideo. keep.
  - unfold downloadAudio. destruct (merge o && _).
    + keep.
    + apply kept_audio_begin. keep.
Qed.

Lemma kept_loop e items s : P s → P (processQueue_loop e items s).
Proof.
  revert s. induction items as [|item rest IH]; intros s H; simpl; [done|].
  destruct (_ <? _)%Z; [|done].
  apply IH, kept_processDownload. keep.
  apply kept_broadcastQueuePositions. keep.
Qed.

Lemma kept_processQueue e s : P s → P (processQueue e s).
Proof. apply kept_loop. Qed.

Lemma kept_settle e id outcome s : P s → P (settle e id outcome s).
Proof.
  intros H. unfold settle. apply kept_processQueue. keep.
  destruct outcome; [|done]. destruct (negb _); [|done].
  unfold error_data. keep.
Qed.

Lemma kept_finish_merge e id f s : P s → P (finish_merge e id f s).
Proof.
  intros H. unfold finish_merge, finalizing_data.
  destruct (merged_stat e); apply kept_settle; keep.
Qed.

Lemma kept_mergeAudioFiles e id inDir outDir o s :
  P s → P (mergeAudioFiles e id inDir outDir o s).1.
Proof. intros H. unfold mergeAudioFiles. repeat case_match; simpl; keep. Qed.

Lemma kept_video_onData e id output l s :
  P s → P (video_onData e id output l s).1.
Proof.
  intros H. unfold video_onData.
  destruct (is_cancelled _); [done|].
  destruct (date_now e - lastProgressUpdate l >? 500)%Z;
    [destruct (Output.match_percent output)|]; simpl;
    repeat (match goal with |- context [if ?c then _ else _] => destruct c end);
    keep.
Qed.

Lemma kept_audio_onData e id fmt output l s :
  P s → P (audio_onData e id fmt output l s).1.
Proof.
  intros H. unfold audio_onData.
  destruct (is_cancelled _); [done|].
  destruct (Output.match_item output) as [[cur tot]|]; simpl;
  (destruct (date_now e - _ >? 500)%Z;
    [destruct (Output.match_percent output)|]; simpl;
    repeat (match goal with |- context [if ?c then _ else _] => destruct c end);
    repeat first
      [ assumption
      | apply P_update;
        [apply bounded_obj;
         first [paired | apply paired_low; [done..|apply audio_percent_low]]|] ]).
Qed.

(** Every callback but the expiry of a record. *)
Lemma step_kept e ev s s' :
  (∀ id, ev ≠ ProgressCleanup id) → step e ev s = Some s' → P s → P s'.
Proof.
  intros Hev Hstep H. destruct ev; simpl in Hstep.
  - case_bool_decide; [done|]. simplify_eq.
    unfold api_download, enqueueDownload. apply kept_processQueue. keep.
  - simplify_eq. unfold api_cancel, removeFromQueue.
    destruct (list_find _ _) as [[index item]|]; simpl.
    + unfold cancelled_data. keep.
      apply kept_broadcastQueuePositions. keep.
    + destruct (activeProcesses s !! id); simpl; [|done].
      unfold cancelled_data. keep.
  - simplify_eq. by apply P_subscribe.
  - simplify_eq. by apply P_disconnect.
  - repeat case_match; simplify_eq. keep.
  - repeat case_match; simplify_eq. unfold count_onClose.
    repeat case_match;
      first [apply kept_settle; keep | by apply kept_audio_begin].
  - repeat case_match; simplify_eq. by apply kept_audio_begin.
  - destruct (jobs s !! id) as [j|]; [|done].
    destruct (phase j) as [|l|]; simplify_eq.
    unfold on_stdout. destruct (type (options j)).
    + pose proof (kept_video_onData e id output l s H) as Hb.
      destruct (video_onData e id output l s) as [s1 l1]. simpl in Hb. keep.
    + pose proof (kept_audio_onData e id (format (options j)) output l s H)
        as Hb.
      destruct (audio_onData e id _ output l s) as [s1 l1]. simpl in Hb. keep.
  - destruct (jobs s !! id) as [j|]; [|done].
    destruct (phase j) as [|l|]; simplify_eq.
    destruct (type (options j)).
    + unfold video_onClose, finalizing_data, finished_data.
      repeat case_match; apply kept_settle; keep.
    + unfold audio_onClose, finalizing_data, finished_data.
      destruct (is_cancelled _); [apply kept_settle; keep|].
      destruct (negb _); [apply kept_settle; keep|].
      destruct (merge (options j)); [|apply kept_settle; keep].
      match goal with
      | |- context [mergeAudioFiles e id ?a ?b ?o ?x] =>
          pose proof (kept_mergeAudioFiles e id a b o x) as Hm;
          destruct (mergeAudioFiles e id a b o x) as [s2 r]
      end.
      simpl in Hm.
      assert (P s2) as H2 by (apply Hm; keep).
      destruct r;
        [apply kept_settle | apply kept_finish_merge | ]; keep.
  - repeat case_match; simplify_eq.
    unfold worker_onError. destruct (type (options _));
      apply kept_settle; keep.
  - repeat case_match; simplify_eq.
    unfold ffmpeg_onClose. case_bool_decide;
      [apply kept_finish_merge | apply kept_settle]; keep.
  - repeat case_match; simplify_eq. apply kept_settle. keep.
  - repeat case_match; simplify_eq.
    unfold download_timeout. simpl. repeat case_match; keep.
  - by destruct (Hev id).
Qed.

Context (P_expire : ∀ id s, P s → P (progressCleanup id s)).

Lemma step_invariant e ev s s' : step e ev s = Some s' → P s → P s'.
Proof.
  intros Hstep H.
  assert ((∃ id, ev = ProgressCleanup id) ∨ ∀ id, ev ≠ ProgressCleanup id)
    as [[id ->]|Hne] by (destruct ev; eauto).
  - simpl in Hstep. destruct (progressCleanupTimers s !! id); simplify_eq.
    by apply P_expire.
  - by apply (step_kept e ev s s').
Qed.

Lemma run_invariant evs s s' : run evs s = Some s' → P s → P s'.
Proof.
  revert s. induction evs as [|[e ev] evs IH]; intros s Hrun H; simpl in Hrun.
  - by simplify_eq.
  - destruct (step e ev s) as [s1|] eqn:E; [|done].
    eapply IH; [done|]. by eapply step_invariant.
Qed.
End invariant.
End StoreInvariants.

Module Store.
Import ProgressFacts Frames ProgressBounds StoreInvariants.

Arguments obj : simpl never.
Arguments updateProgress : simpl never.

Lemma Expiring_same s s' :
  downloadProgress s' = downloadProgress s →
  sseClients s' = sseClients s →
  progressCleanupTimers s' = progressCleanupTimers s →
  Expiring s → Expiring s'.
Proof. intros E1 _ E2 H id rec. rewrite E1, E2. apply H. Qed.

Lemma Expiring_update e id data s :
  bounded data → Expiring s → Expiring (updateProgress e id data s).
Proof.
  intros (st & p & Hs & _) H x rec.
  rewrite updateProgress_store, updateProgress_timers.
  intros Hx. apply lookup_insert_Some in Hx as [[<- <-]|[Hne Hx]].
  - rewrite !newProgress_lookup. rewrite !decide_False by done.
    rewrite decide_True by done. rewrite Hs. split; [done|].
    exists (date_now e). rewrite decide_True by done. split; [done|].
    intros Hf. simpl in Hf. change (is_final (Some (VStr st))) with
      (bool_decide (st = "finished") || bool_decide (st = "error")
       || bool_decide (st = "cancelled")). rewrite Hf.
    apply lookup_insert_eq.
  - destruct (H x rec Hx) as (Hid & t & Ht & Hf). split; [done|].
    exists t. split; [done|]. intros Hfin.
    destruct (is_final (data !! "status")); [rewrite lookup_insert_ne by done|];
      by apply Hf.
Qed.

Lemma Expiring_subscribe id res s : Expiring s → Expiring (api_progress id res s).
Proof.
  intros H x rec. unfold api_progress. simpl. case_bool_decide; apply H.
Qed.

Lemma Expiring_disconnect id res s :
  Expiring s → Expiring (cleanupSSEClient id res s).
Proof.
  intros H x rec. unfold cleanupSSEClient. repeat case_match; apply H.
Qed.

Lemma Expiring_expire id s : Expiring s → Expiring (progressCleanup id s).
Proof.
  intros H x rec. unfold progressCleanup. simpl. intros Hx.
  apply lookup_delete_Some in Hx as [Hne Hx].
  rewrite lookup_delete_ne by done. by apply H.
Qed.

Lemma Expiring_initial : Expiring initial.
Proof. intros id rec H. simpl in H. by rewrite lookup_empty in H. Qed.

(** X11.  In every state that the server reaches, every progress
    record carries the identifier under which it is stored and the
    time of its last update, and a record whose status is 'finished',
    'error' or 'cancelled' has its expiry timer armed for exactly
    PROGRESS_CLEANUP_MS (10 minutes) after that update: the last
    terminal write decides when the record expires. *)
Theorem terminal_records_expire evs s id rec :
  run evs initial = Some s → downloadProgress s !! id = Some rec →
  rec !! "downloadId" = Some (VStr id)
  ∧ ∃ t, rec !! "timestamp" = Some (VNum (inject_Z t))
         ∧ (is_final (rec !! "status") = true →
            progressCleanupTimers s !! id = Some (t + 600000)%Z).
Proof.
  intros Hrun Hrec.
  by apply (run_invariant Expiring Expiring_same Expiring_update
              Expiring_subscribe Expiring_disconnect Expiring_expire
              evs initial s Hrun Expiring_initial).
Qed.

Lemma terminal_records_expire_witness :
  ∃ s rec, run SampleCancel.start_and_cancel initial = Some s
           ∧ downloadProgress s !! "job1" = Some rec
           ∧ rec !! "downloadId" = Some (VStr "job1").
Proof.
  pose proof CancelActive.start_and_cancel_observed as H.
  destruct (run SampleCancel.start_and_cancel initial) as [s|] eqn:Hrun; [|done].
  destruct (downloadProgress s !! "job1") as [rec|] eqn:Hrec.
  - exists s, rec. split; [reflexivity|]. split; [exact Hrec|].
    by destruct (terminal_records_expire _ s "job1" rec Hrun Hrec) as [H1 _].
  - unfold SampleCancel.observe_job, status_of, field in H.
    rewrite Hrec in H. simpl in H. by simplify_eq.
Defined.

Lemma Subscribed_same s s' :
  downloadProgress s' = downloadProgress s →
  sseClients s' = sseClients s →
  progressCleanupTimers s' = progressCleanupTimers s →
  Subscribed s → Subscribed s'.
Proof. intros _ E _ H id clients. rewrite E. apply H. Qed.

Lemma Subscribed_update e id data s :
  bounded data → Subscribed s → Subscribed (updateProgress e id data s).
Proof.
  intros _ H x clients. rewrite updateProgress_clients.
  destruct (sseClients s !! id) as [[|c cs]|] eqn:E; try apply H.
  destruct (H id (c :: cs) E) as [_ Hnd].
  destruct (live e (c :: cs)) as [|r rs] eqn:El.
  - intros Hx. apply lookup_delete_Some in Hx as [_ Hx]. by eapply H.
  - intros Hx. apply lookup_insert_Some in Hx as [[<- <-]|[_ Hx]]; [|by eapply H].
    split; [done|]. rewrite <- El. by apply NoDup_filter.
Qed.

Lemma Subscribed_subscribe id res s :
  Subscribed s → Subscribed (api_progress id res s).
Proof.
  intros H x clients. unfold api_progress. simpl.
  assert (∀ cs, sseClients s !! id = Some cs → cs ≠ [] ∧ NoDup cs) as Hid
    by (intros cs; apply H).
  destruct (sseClients s !! id) as [cs|]; simpl.
  - destruct (Hid cs eq_refl) as [Hne Hnd].
    case_bool_decide as Hin; simpl; intros Hx;
      (apply lookup_insert_Some in Hx as [[<- <-]|[_ Hx]]; [|by eapply H]).
    + done.
    + split; [by destruct cs|]. apply NoDup_app.
      split_and!; [done| |apply NoDup_singleton].
      intros y Hy ?%list_elem_of_singleton. by subst.
  - intros Hx.
    apply lookup_insert_Some in Hx as [[<- <-]|[_ Hx]]; [|by eapply H].
    split; [done | apply NoDup_singleton].
Qed.

Lemma Subscribed_disconnect id res s :
  Subscribed s → Subscribed (cleanupSSEClient id res s).
Proof.
  intros H x clients. unfold cleanupSSEClient.
  destruct (sseClients s !! id) as [cs|] eqn:E; [|apply H].
  destruct (H id cs E) as [_ Hnd].
  destruct (filter (λ c, c ≠ res) cs) as [|r rs] eqn:Ef; simpl; intros Hx.
  - apply lookup_delete_Some in Hx as [_ Hx]. by eapply H.
  - apply lookup_insert_Some in Hx as [[<- <-]|[_ Hx]]; [|by eapply H].
    split; [done|]. rewrite <- Ef. by apply NoDup_filter.
Qed.

Lemma Subscribed_expire id s : Subscribed s → Subscribed (progressCleanup id s).
Proof.
  intros H x clients. unfold progressCleanup. simpl. intros Hx.
  apply lookup_delete_Some in Hx as [_ Hx]. by eapply H.
Qed.

Lemma Subscribed_initial : Subscribed initial.
Proof. intros id clients H. simpl in H. by rewrite lookup_empty in H. Qed.

Lemma subscriptions_observed :
  SampleSse.observe_clients (run SampleSse.subscriptions initial) "job1"
  = Some (Some [9]).
Proof. vm_compute. reflexivity. Qed.

(** X12.  In every state that the server reaches, the subscribers
    registered for an identifier are pairwise distinct and there is at
    least one of them: a subscriber set that a disconnection or a
    failed write leaves empty is removed from the map. *)
Theorem subscriber_sets_nonempty evs s id clients :
  run evs initial = Some s → sseClients s !! id = Some clients →
  clients ≠ [] ∧ NoDup clients.
Proof.
  intros Hrun Hc.
  by apply (run_invariant Subscribed Subscribed_same Subscribed_update
              Subscribed_subscribe Subscribed_disconnect Subscribed_expire
              evs initial s Hrun Subscribed_initial id).
Qed.

Lemma subscriber_sets_nonempty_witness :
  ∃ s, run SampleSse.subscriptions initial = Some s
       ∧ sseClients s !! "job1" = Some [9] ∧ NoDup [9].
Proof.
  pose proof subscriptions_observed as H.
  destruct (run SampleSse.subscriptions initial) as [s|] eqn:Hrun; [|done].
  simpl in H. injection H as H.
  exists s. split; [reflexivity|]. split; [exact H|].
  by destruct (subscriber_sets_nonempty _ s "job1" [9] Hrun H).
Defined.
End Store.

(** ** The concat list of the merge step *)

Module ConcatFacts.
Import Js ConcatPath.

Lemma escape_quotes_cons c s : escape_quotes (c :: s) = escape_unit c ++ escape_quotes s.
Proof. reflexivity. Qed.

Lemma unescape_escape s : unescape (escape_quotes s) = s.
Proof.
  induction s as [|c s IH]; [done|].
  rewrite escape_quotes_cons. unfold escape_unit.
  destruct (c =? 39)%N eqn:E.
  - apply N.eqb_eq in E. subst c. simpl. by rewrite IH.
  - simpl. rewrite E. simpl. by rewrite IH.
Qed.

Lemma drop_controls_escape s :
  drop_controls (escape_quotes s) = escape_quotes (drop_controls s).
Proof.
  unfold drop_controls, str.
  induction s as [|c s IH]; [done|].
  rewrite escape_quotes_cons, filter_app, IH, filter_cons.
  unfold escape_unit. destruct (c =? 39)%N eqn:E.
  - apply N.eqb_eq in E. subst c.
    rewrite decide_True by lia. rewrite escape_quotes_cons. f_equal.
  - rewrite filter_cons, filter_nil. case_decide; [|done].
    rewrite escape_quotes_cons. unfold escape_unit. by rewrite E.
Qed.

Lemma drop_controls_newlines s : drop_controls (drop_newlines s) = drop_controls s.
Proof.
  unfold drop_controls, drop_newlines, str.
  induction s as [|c s IH]; [done|].
  rewrite !filter_cons. repeat case_decide; rewrite ?filter_cons;
    repeat case_decide; try (f_equal; exact IH); try exact IH; lia.
Qed.

Lemma drop_controls_Forall s : Forall (λ c, (31 < c)%N) (drop_controls s).
Proof.
  apply Forall_forall. intros c Hc. by apply list_elem_of_filter in Hc as [? _].
Qed.

Lemma drop_controls_id s : Forall (λ c, (31 < c)%N) s → drop_controls s = s.
Proof.
  unfold drop_controls, str. induction 1 as [|c s Hc _ IH]; [done|].
  rewrite filter_cons, decide_True by done. by rewrite IH.
Qed.

Lemma slashes_id s : (92%N ∉ s) → slashes s = s.
Proof.
  unfold slashes. induction s as [|c s IH]; [done|]. intros Hn.
  apply not_elem_of_cons in Hn as [Hc Hs]. simpl.
  destruct (c =? 92)%N eqn:E; [apply N.eqb_eq in E; by subst|].
  by rewrite IH.
Qed.

(** X13.  [sanitizeConcatPath] turns the backslashes into slashes,
    drops the control characters and replaces every single quote by the
    four characters quote, backslash, quote, quote, whatever the order
    in which the control characters are met; the result contains no
    control character, and reading the escaped quotes back gives the
    path with slashes for backslashes and without its control
    characters: a path that has neither is written without loss. *)
Theorem sanitizeConcatPath_round_trip filePath :
  sanitizeConcatPath filePath = escape_quotes (drop_controls (slashes filePath))
  ∧ Forall (λ c, (31 < c)%N) (sanitizeConcatPath filePath)
  ∧ unescape (sanitizeConcatPath filePath) = drop_controls (slashes filePath)
  ∧ (Forall (λ c, (31 < c)%N) filePath → (92%N ∉ filePath) →
     unescape (sanitizeConcatPath filePath) = filePath).
Proof.
  assert (sanitizeConcatPath filePath
          = escape_quotes (drop_controls (slashes filePath))) as E.
  { unfold sanitizeConcatPath.
    by rewrite drop_controls_newlines, drop_controls_escape. }
  split; [done|]. split.
  { unfold sanitizeConcatPath. apply drop_controls_Forall. }
  rewrite E, unescape_escape. split; [done|].
  intros Hc Hb. by rewrite slashes_id, drop_controls_id.
Qed.
End ConcatFacts.

(** ** The qualities offered for a video *)

Module QualityFacts.
Import Qualities.

Lemma unique_elem {A} `{EqDecision A} (l : list A) x : x ∈ unique l ↔ x ∈ l.
Proof. unfold unique. by rewrite elem_of_reverse, elem_of_remove_dups, elem_of_reverse. Qed.

Lemma unique_NoDup {A} `{EqDecision A} (l : list A) : NoDup (unique l).
Proof. unfold unique. rewrite reverse_Permutation. apply NoDup_remove_dups. Qed.

Lemma insert_desc_perm x l : insert_desc x l ≡ₚ x :: l.
Proof.
  induction l as [|y t IH]; simpl; [done|].
  destruct (y <=? x)%Z; [done|]. rewrite IH. apply Permutation_swap.
Qed.

Lemma sort_desc_perm l : sort_desc l ≡ₚ l.
Proof.
  induction l as [|x l IH]; simpl; [done|]. by rewrite insert_desc_perm, IH.
Qed.

Lemma insert_desc_sorted x l :
  x ∉ l → StronglySorted (λ a b, (b < a)%Z) l →
  StronglySorted (λ a b, (b < a)%Z) (insert_desc x l).
Proof.
  intros Hx Hs. induction Hs as [|y t Hs IH Hy]; simpl.
  - by repeat constructor.
  - apply not_elem_of_cons in Hx as [Hne Hx].
    destruct (y <=? x)%Z eqn:E.
    + apply Z.leb_le in E. constructor; [by constructor|].
      constructor; [lia|]. eapply Forall_impl; [exact Hy|]. simpl. lia.
    + apply Z.leb_gt in E. constructor; [by apply IH|].
      rewrite insert_desc_perm. by constructor.
Qed.

Lemma sort_desc_sorted l :
  NoDup l → StronglySorted (λ a b, (b < a)%Z) (sort_desc l).
Proof.
  induction 1 as [|x l Hx Hnd IH]; simpl; [constructor|].
  apply insert_desc_sorted; [|done]. by rewrite sort_desc_perm.
Qed.

Lemma no_video_codec fs :
  existsb (λ f, has_codec (vcodec f)) fs = false →
  ∀ f, f ∈ fs → has_codec (vcodec f) = false.
Proof.
  induction fs as [|g fs IH]; intros Hv f Hf; [by apply elem_of_nil in Hf|].
  simpl in Hv. apply orb_false_iff in Hv as [Hg Hv].
  apply elem_of_cons in Hf as [->|Hf]; [done | by apply IH].
Qed.

(** X14.  The resolutions that [extractAvailableQualities] returns are
    strictly descending, hence without repetition, and they are exactly
    the non-zero heights of the formats that have a video codec other
    than 'none'; the audio codecs are pairwise distinct and are exactly
    the codecs other than 'none' of the formats; without a format that
    has a video codec there is no resolution, and a missing list
    gives the empty answer. *)
Theorem extractAvailableQualities_sound fs :
  let r := extractAvailableQualities (Some fs) in
  StronglySorted (λ a b, (b < a)%Z) (resolutions r)
  ∧ (∀ h, h ∈ resolutions r ↔ ∃ f, f ∈ fs ∧ video_height f = Some h)
  ∧ NoDup (audioCodecs r)
  ∧ (∀ c, c ∈ audioCodecs r ↔ ∃ f, f ∈ fs ∧ audio_codec f = Some c)
  ∧ (hasVideoFormats r = false → resolutions r = [])
  ∧ extractAvailableQualities None
    = {| resolutions := []; audioCodecs := []; hasVideoFormats := false |}.
Proof.
  intros r. subst r. unfold extractAvailableQualities.
  cbn [resolutions audioCodecs hasVideoFormats]. split_and!.
  - apply sort_desc_sorted, unique_NoDup.
  - intros h. by rewrite sort_desc_perm, unique_elem, list_elem_of_omap.
  - apply unique_NoDup.
  - intros c. by rewrite unique_elem, list_elem_of_omap.
  - intros Hv.
    assert (omap video_height fs = []) as ->; [|done].
    apply elem_of_nil_inv. intros h (f & Hf & Hh)%list_elem_of_omap.
    unfold video_height in Hh. rewrite (no_video_codec fs Hv f Hf) in Hh.
    destruct (height f); [by rewrite andb_false_r in Hh|done].
  - done.
Qed.
End QualityFacts.

(** ** Validation of a request *)

Module RequestFacts.
Import Request.

Lemma includes_text l v : includes l v = true → text_of v ∈ l.
Proof. destruct v; try done. simpl. by intros ?%bool_decide_eq_true. Qed.

Lemma includes_truthy l v : [] ∉ l → includes l v = true → truthy v = true.
Proof.
  intros Hl. destruct v as [|b|s|b]; try done. simpl.
  intros H%bool_decide_eq_true. by destruct s.
Qed.

(** X15.  A request that fails one of the four checks of POST
    /api/download changes nothing: no identifier is used, no progress
    record is written and nothing is queued.  A request that passes
    them is queued with options whose media type is 'video' with a
    format among mp4 and webm and a listed quality, or 'audio' with a
    format among the five audio formats; the fallback extension 'mp4' of
    the video close handler is then never used. *)
Theorem validated_requests e id r s :
  (∀ rejection,
     (post_download e id r s).2 = inl rejection → (post_download e id r s).1 = s)
  ∧ (∀ o, validate r = inr o →
       post_download e id r s
       = (api_download e id o (to_arg (r_customFilename r)) s, inr id)
       ∧ (type o = video ∧ format o ∈ videoFormats ∧ quality o ∈ validQualities
          ∨ type o = audio ∧ format o ∈ audioFormats)
       ∧ format_or_mp4 (format o) = format o
       ∧ url o = Js.trim (r_url r)).
Proof.
  split.
  - intros rejection. unfold post_download. by destruct (validate r).
  - intros o Hv. unfold post_download. rewrite Hv. split; [done|].
    unfold validate in Hv.
    destruct (negb (r_url_ok r)); [done|].
    destruct (media_type (finalType r)) as [ty|]; [|done].
    destruct (includes _ (r_format r)) eqn:Hf; [|done]. simpl in Hv.
    assert (format_or_mp4 (text_of (r_format r)) = text_of (r_format r)) as Hfm.
    { destruct ty; apply includes_text in Hf; unfold format_or_mp4;
        destruct (text_of (r_format r)); try done;
        vm_compute in Hf; set_solver. }
    destruct ty.
    + destruct (includes validQualities (r_quality r)) eqn:Hq; [|done].
      simpl in Hv. simplify_eq. simpl. split_and!; [|done..]. left.
      split_and!; [done|by apply includes_text|].
      rewrite (includes_truthy validQualities) by (done || by vm_compute; set_solver).
      by apply includes_text.
    + simplify_eq. simpl. split_and!; [|done..]. right.
      split; [done | by apply includes_text].
Qed.
End RequestFacts.

(** ** No slot is idle while a download waits *)

Module WorkConserving.
Import ProgressFacts Frames Scheduler SchedulerSteps LocalitySteps Gate.

Arguments obj : simpl never.
Arguments updateProgress : simpl never.
Arguments broadcastQueuePositions : simpl never.
Arguments processDownload : simpl never.
Arguments processQueue : simpl never.
Arguments settle : simpl never.

Lemma Busy_initial : Busy initial.
Proof. by intros H. Qed.

Lemma Busy_same s s' :
  activeDownloads s' = activeDownloads s → downloadQueue s' = downloadQueue s →
  Busy s → Busy s'.
Proof. intros Ea Eq H. unfold Busy. rewrite Ea, Eq. apply H. Qed.

Lemma Busy_processQueue e s :
  (activeDownloads s ≤ CONFIG.MAX_CONCURRENT_DOWNLOADS)%Z → Busy (processQueue e s).
Proof.
  intros Hle.
  destruct (processQueue_loop_heads e (downloadQueue s) s eq_refl)
    as (_ & E2 & E3 & _).
  unfold Busy, processQueue. rewrite E2, E3. intros Hne.
  set (free := Z.to_nat (CONFIG.MAX_CONCURRENT_DOWNLOADS - activeDownloads s)) in *.
  assert (free < length (downloadQueue s)).
  { destruct (decide (free < length (downloadQueue s))) as [|Hge]; [done|].
    destruct Hne. apply drop_ge. lia. }
  rewrite length_take. subst free. lia.
Qed.

Lemma Busy_settle e id outcome s :
  (activeDownloads s ≤ CONFIG.MAX_CONCURRENT_DOWNLOADS + 1)%Z →
  Busy (settle e id outcome s).
Proof.
  intros Hle. rewrite settle_unfold. apply Busy_processQueue.
  unfold settling. repeat case_match; frame; lia.
Qed.

Lemma Busy_finish_merge e id f s :
  (activeDownloads s ≤ CONFIG.MAX_CONCURRENT_DOWNLOADS + 1)%Z →
  Busy (finish_merge e id f s).
Proof.
  intros Hle. unfold finish_merge.
  destruct (merged_stat e); apply Busy_settle; frame; lia.
Qed.

Lemma audio_begin_same e id o s :
  activeDownloads (audio_begin e id o s) = activeDownloads s
  ∧ downloadQueue (audio_begin e id o s) = downloadQueue s.
Proof. unfold audio_begin. destruct (merge o); by frame. Qed.

Lemma mergeAudioFiles_active e id inDir outDir o s :
  activeDownloads (mergeAudioFiles e id inDir outDir o s).1 = activeDownloads s.
Proof. unfold mergeAudioFiles. by repeat case_match. Qed.

Lemma step_Busy e ev s s' : step e ev s = Some s' → Inv s → Busy s → Busy s'.
Proof.
  intros Hstep HI H. pose proof (inv_bound s HI) as Hb.
  destruct ev; simpl in Hstep.
  - case_bool_decide; [done|]. simplify_eq.
    unfold api_download, enqueueDownload. apply Busy_processQueue. by frame.
  - simplify_eq. unfold api_cancel, removeFromQueue.
    destruct (list_find _ _) as [[index item]|]; simpl.
    + unfold Busy. frame. intros Hne. apply H. intros Hq. by rewrite Hq in Hne.
    + destruct (activeProcesses s !! id); simpl; [|done].
      apply (Busy_same s); by frame.
  - simplify_eq. unfold api_progress. case_bool_decide; by apply (Busy_same s).
  - simplify_eq. unfold cleanupSSEClient.
    repeat case_match; by apply (Busy_same s).
  - repeat case_match; simplify_eq. by apply (Busy_same s).
  - repeat case_match; simplify_eq. unfold count_onClose.
    repeat case_match;
      first [ apply Busy_settle; frame; lia
            | apply (Busy_same s); [apply audio_begin_same..|done] ].
  - repeat case_match; simplify_eq.
    apply (Busy_same s); [apply audio_begin_same..|done].
  - destruct (jobs s !! id) as [j|]; [|done].
    destruct (phase j) as [|l|]; simplify_eq.
    unfold on_stdout. destruct (type (options j)).
    + pose proof (video_onData_updated e id output l s) as Hu.
      destruct (video_onData e id output l s) as [s1 l1]. simpl in Hu.
      apply updated_frame in Hu as (Ea & Eq & _). by apply (Busy_same s).
    + pose proof (audio_onData_updated e id (format (options j)) output l s) as Hu.
      destruct (audio_onData e id _ output l s) as [s1 l1]. simpl in Hu.
      apply updated_frame in Hu as (Ea & Eq & _). by apply (Busy_same s).
  - destruct (jobs s !! id) as [j|]; [|done].
    destruct (phase j) as [|l|]; simplify_eq.
    destruct (type (options j)).
    + unfold video_onClose. repeat case_match; apply Busy_settle; frame; lia.
    + unfold audio_onClose.
      destruct (is_cancelled _); [apply Busy_settle; frame; lia|].
      destruct (negb _); [apply Busy_settle; frame; lia|].
      destruct (merge (options j)); [|apply Busy_settle; frame; lia].
      match goal with
      | |- context [mergeAudioFiles e id ?a ?b ?o ?x] =>
          pose proof (mergeAudioFiles_active e id a b o x) as Ha;
          pose proof (mergeAudioFiles_queue e id a b o x) as Hq;
          destruct (mergeAudioFiles e id a b o x) as [s2 r]
      end.
      simpl in Ha, Hq. frame_in Ha. frame_in Hq.
      destruct r.
      * apply Busy_settle. frame. lia.
      * apply Busy_finish_merge. lia.
      * apply (Busy_same s); simpl; by rewrite ?Ha, ?Hq.
  - repeat case_match; simplify_eq.
    unfold worker_onError. destruct (type (options _));
      apply Busy_settle; frame; lia.
  - repeat case_match; simplify_eq.
    unfold ffmpeg_onClose. case_bool_decide;
      [apply Busy_finish_merge | apply Busy_settle]; frame; lia.
  - repeat case_match; simplify_eq. apply Busy_settle. frame. lia.
  - repeat case_match; simplify_eq.
    unfold download_timeout. simpl.
    repeat case_match; apply (Busy_same s); by frame.
  - repeat case_match; simplify_eq. by apply (Busy_same s).
Qed.

Lemma run_Busy evs s s' : run evs s = Some s' → Inv s → Busy s → Busy s'.
Proof.
  revert s. induction evs as [|[e ev] evs IH]; intros s Hrun HI H; simpl in Hrun.
  - by simplify_eq.
  - destruct (step e ev s) as [s1|] eqn:E; [|done].
    eapply IH; [done| |]; [by eapply step_Inv | by eapply step_Busy].
Qed.

(** X16.  What GET /api/queue reports in a state that the server
    reaches: the number of active downloads lies between 0 and the
    ceiling, the queue length is the number of the queued identifiers,
    these are pairwise distinct, and whenever a download waits every
    slot is taken: the scheduling loop never leaves a slot idle while
    the queue is not empty. *)
Theorem queue_status_consistent evs s :
  run evs initial = Some s →
  let r := api_queue s in
  (0 ≤ QueueStatus.activeDownloads r ≤ QueueStatus.maxConcurrent r)%Z
  ∧ QueueStatus.maxConcurrent r = 2%Z
  ∧ QueueStatus.queueLength r = length (QueueStatus.queuedIds r)
  ∧ NoDup (QueueStatus.queuedIds r)
  ∧ (0 < QueueStatus.queueLength r →
     QueueStatus.activeDownloads r = QueueStatus.maxConcurrent r).
Proof.
  intros Hrun. pose proof (reachable_Inv evs s Hrun) as HI.
  pose proof (run_Busy evs initial s Hrun Inv_initial Busy_initial) as Hbusy.
  simpl. split_and!.
  - rewrite (inv_active s HI). lia.
  - apply HI.
  - done.
  - by rewrite length_map.
  - pose proof (Inv_nodup_started_queue s HI) as Hnd.
    by apply NoDup_app in Hnd as (_ & _ & ?).
  - intros Hlen. apply Hbusy. intros Hq. rewrite Hq in Hlen. simpl in Hlen. lia.
Qed.

Lemma queue_status_consistent_witness :
  ∃ s, run Sample.three_submissions initial = Some s
       ∧ QueueStatus.activeDownloads (api_queue s) = 2%Z.
Proof.
  destruct Admission.three_submissions_run as (s & Hrun & _ & _ & Hq).
  exists s. split; [exact Hrun|].
  destruct (queue_status_consistent _ s Hrun) as (_ & Hm & _ & _ & H).
  rewrite <- Hm. apply H. simpl.
  unfold queue_ids in Hq. destruct (downloadQueue s); [done | simpl; lia].
Defined.
End WorkConserving.

(** ** The deadline of a running download *)

Module Deadline.
Import JsFacts ProgressFacts Frames Scheduler SchedulerSteps Line Locality
  LocalitySteps Admits CancelQueued CancelActive.

Arguments obj : simpl never.
Arguments updateProgress : simpl never.
Arguments broadcastQueuePositions : simpl never.
Arguments processDownload : simpl never.
Arguments processQueue : simpl never.
Arguments settle : simpl never.

Lemma field_view s s' id f :
  downloadProgress s' !! id = downloadProgress s !! id →
  field s' id f = field s id f.
Proof. intros H. unfold field. by rewrite H. Qed.

Lemma timedout_same s s' id :
  id ∉ queue_ids s' → id ∈ issued s' → view s' id = view s id →
  TimedOut s id → TimedOut s' id.
Proof.
  intros Hq' Hi' Hv (Hq & Hi & Hst & Ht & Hjob).
  unfold view in Hv. injection Hv as Hv1 Hv2 Hv3 Hv4.
  split_and!; try done.
  - rewrite (status_of_view s s' id Hv1), (field_view s s' id "message" Hv1).
    by rewrite Hv1.
  - by rewrite Hv4.
  - by rewrite Hv2, Hv3.
Qed.

Lemma timedout_settled s s' id :
  id ∉ queue_ids s' → id ∈ issued s' →
  view s' id = (downloadProgress s !! id, None, None, None) →
  TimedOut s id → TimedOut s' id.
Proof.
  intros Hq' Hi' Hv (Hq & Hi & Hst & Ht & Hjob).
  unfold view in Hv. injection Hv as Hv1 Hv2 Hv3 Hv4.
  split_and!; try done; [| by rewrite Hv4 | by right].
  rewrite (status_of_view s s' id Hv1), (field_view s s' id "message" Hv1).
  by rewrite Hv1.
Qed.

Lemma timedout_step e ev s s' id :
  step e ev s = Some s' → TimedOut s id → TimedOut s' id.
Proof.
  intros Hstep HT.
  pose proof HT as (Hq & Hi & Hst & Ht & Hjob).
  pose proof (step_not_queued e ev s s' id Hstep Hi Hq) as Hq'.
  pose proof (step_issued e ev s s' id Hstep Hi) as Hi'.
  destruct (decide (target ev = id)) as [Heq|Hne].
  2:{ destruct (step_untouched e ev s s' id Hstep Hne Hq) as [Hv _].
      by apply (timedout_same s). }
  destruct ev; simpl in Heq, Hstep; subst id0.
  - case_bool_decide; done.
  - simplify_eq. revert Hq' Hi'. unfold api_cancel.
    rewrite (removeFromQueue_absent e id s Hq).
    destruct (activeProcesses s !! id) as [info|] eqn:Hinfo; simpl; [|done].
    intros Hq' Hi'. split_and!; try done.
    + right. left. apply status_cancelled.
    + frame. by rewrite lookup_delete_eq.
    + destruct Hjob as [(j & l & info' & Hj & Hp & _)|[_ ?]]; [|done].
      left. exists j, l, (cancel_info info). frame.
      by rewrite lookup_insert_eq.
  - simplify_eq. apply (timedout_same s); try done.
    unfold api_progress. by case_bool_decide.
  - simplify_eq. apply (timedout_same s); try done.
    unfold cleanupSSEClient. by repeat case_match.
  - destruct Hjob as [(j & l & info & Hj & Hp & _)|[Hj _]];
      rewrite Hj in Hstep; [by rewrite Hp in Hstep | done].
  - destruct Hjob as [(j & l & info & Hj & Hp & _)|[Hj _]];
      rewrite Hj in Hstep; [by rewrite Hp in Hstep | done].
  - destruct Hjob as [(j & l & info & Hj & Hp & _)|[Hj _]];
      rewrite Hj in Hstep; [by rewrite Hp in Hstep | done].
  - destruct Hjob as [(j & l & info & Hj & Hp & Hinfo & Hc)|[Hj _]];
      [|by rewrite Hj in Hstep].
    pose proof (stdout_cancelled e id output s j l info Hj Hp Hinfo Hc) as E.
    simpl in E. rewrite E in Hstep. by simplify_eq.
  - destruct Hjob as [(j & l & info & Hj & Hp & Hinfo & Hc)|[Hj _]];
      [|by rewrite Hj in Hstep].
    rewrite Hj, Hp in Hstep. simplify_eq.
    apply (timedout_settled s); try done.
    destruct (type (options j)).
    + unfold video_onClose. rewrite Hinfo. simpl. rewrite Hc.
      by apply (settle_cancelled e id ErrCancelled s info).
    + unfold audio_onClose. rewrite Hinfo. simpl. rewrite Hc.
      by apply (settle_cancelled e id ErrCancelled
                  (emit [CleanupDir (sessionTempDir id)] s) info).
  - destruct Hjob as [(j & l & info & Hj & Hp & Hinfo & Hc)|[Hj _]];
      [|by rewrite Hj in Hstep].
    rewrite Hj, Hp in Hstep. simplify_eq.
    apply (timedout_settled s); try done.
    unfold worker_onError. destruct (type (options j)).
    + by apply (settle_cancelled e id ErrWorker s info).
    + by apply (settle_cancelled e id ErrWorker
                  (emit [CleanupDir (sessionTempDir id)] s) info).
  - destruct Hjob as [(j & l & info & Hj & Hp & _)|[Hj _]];
      rewrite Hj in Hstep; [by rewrite Hp in Hstep | done].
  - destruct Hjob as [(j & l & info & Hj & Hp & _)|[Hj _]];
      rewrite Hj in Hstep; [by rewrite Hp in Hstep | done].
  - destruct (downloadTimeouts s !! id) as [[|]|]; done.
  - destruct (progressCleanupTimers s !! id); simplify_eq.
    split_and!; try done.
    right. right. unfold progressCleanup. simpl. apply lookup_delete_eq.
Qed.

Lemma timedout_run evs s s' id :
  run evs s = Some s' → TimedOut s id → TimedOut s' id.
Proof.
  revert s. induction evs as [|[e ev] evs IH]; intros s Hrun H; simpl in Hrun.
  - by simplify_eq.
  - destruct (step e ev s) as [s1|] eqn:E; [|done].
    eapply IH; [done|]. by eapply timedout_step.
Qed.

(** X17.  The deadline of a running download.  When the 30 minute timer
    of a download fires while its worker is registered, in the
    download phase and not cancelled, the record says 'error' with the
    message of the deadline and a worker that was not signalled before
    is sent SIGTERM.  From then on the record says 'error' with that
    message, or 'cancelled' if a cancellation is requested later, until
    it expires, and never 'finished': the exit of the worker, with any
    code, is taken as a cancellation and writes nothing. *)
Theorem deadline_of_running_download evs s e id j l info :
  run evs initial = Some s →
  jobs s !! id = Some j → phase j = Downloading l →
  activeProcesses s !! id = Some info → cancelled info = false →
  downloadTimeouts s !! id = Some true →
  step e (Timeout id) s = Some (download_timeout e id s)
  ∧ status_of (download_timeout e id s) id = Some "error"
  ∧ field (download_timeout e id s) id "message" = Some timeout_message
  ∧ (killed (process info) = false →
     Kill id Ytdlp ∈ effects (download_timeout e id s))
  ∧ ∀ evs' s', run evs' (download_timeout e id s) = Some s' →
      ((status_of s' id = Some "error"
        ∧ field s' id "message" = Some timeout_message)
       ∨ status_of s' id = Some "cancelled"
       ∨ downloadProgress s' !! id = None)
      ∧ status_of s' id ≠ Some "finished".
Proof.
  intros Hrun Hj Hp Hinfo Hc Ht. pose proof (reachable_Inv evs s Hrun) as HI.
  assert (id ∉ queue_ids s) as Hq by (apply pending_not_queued; by rewrite ?Hj).
  assert (id ∈ issued s) as Hi.
  { eapply elem_of_sublist; [|apply HI]. apply elem_of_app. left.
    apply (inv_jobs s HI), elem_of_dom. by rewrite Hj. }
  split; [by simpl; rewrite Ht|].
  unfold download_timeout. simpl. rewrite Hinfo, Hc.
  set (s1 := updateProgress e id _ _).
  assert (status_of s1 id = Some "error") as Hst.
  { unfold status_of. subst s1.
    by rewrite (updateProgress_field _ _ _ _ "status" (VStr "error")). }
  assert (field s1 id "message" = Some timeout_message) as Hmsg.
  { subst s1. by apply (updateProgress_field _ _ _ _ "message"). }
  split; [done|]. split; [done|]. split.
  { intros Hk. subst s1. rewrite updateProgress_effects. simpl.
    unfold kill_effects. rewrite Hk. simpl.
    apply elem_of_app. left. apply elem_of_app. right. constructor. }
  intros evs' s' Hrun'.
  eapply timedout_run in Hrun' as (Hq' & Hi' & Hst' & Ht' & Hjob).
  2:{ split_and!.
      - subst s1. unfold queue_ids in *. by frame.
      - subst s1. by frame.
      - by left.
      - subst s1. frame. by rewrite lookup_insert_eq.
      - left. exists j, l, (cancel_info info). subst s1. frame.
        by rewrite lookup_insert_eq. }
  split; [done|].
  destruct Hst' as [[-> _]|[->|Hn]]; [done..|].
  unfold status_of, field. by rewrite Hn.
Qed.

Lemma armed_observed :
  SampleTimeout.observe_timer (run SampleIds.one_running initial) "job1"
  = Some (true, Some false, Some true).
Proof. vm_compute. reflexivity. Qed.

Lemma deadline_of_running_download_witness :
  ∃ s, run SampleIds.one_running initial = Some s
       ∧ status_of (download_timeout (Sample.env_at 1800001) "job1" s) "job1"
         = Some "error".
Proof.
  pose proof armed_observed as H.
  destruct (run SampleIds.one_running initial) as [s|] eqn:Hrun; [|done].
  simpl in H.
  destruct (jobs s !! "job1") as [j|] eqn:Hj; [|done].
  destruct (phase j) as [|l|] eqn:Hp; [done| |done].
  destruct (activeProcesses s !! "job1") as [info|] eqn:Hinfo; [|done].
  simpl in H. injection H as Hc Ht.
  exists s. split; [reflexivity|].
  by destruct (deadline_of_running_download _ s (Sample.env_at 1800001) "job1"
                 j l info Hrun Hj Hp Hinfo Hc Ht) as (_ & Hst & _).
Defined.
End Deadline.

(** ** What an output chunk stores *)

Module ChunkFacts.
Import ProgressFacts Frames.

Arguments obj : simpl never.
Arguments updateProgress : simpl never.

Lemma progress_update e id data s p :
  data !! "progress" = Some (VNum p) →
  progress_of (updateProgress e id data s) id = Some p.
Proof.
  intros H. unfold progress_of.
  by rewrite (updateProgress_field _ _ _ _ "progress" (VNum p)).
Qed.

Lemma digits_val_nonneg ds :
  Forall (λ c, Js.is_digit c = true) ds → (0 ≤ Js.digits_val ds)%Z.
Proof.
  unfold Js.digits_val.
  assert (∀ acc, (0 ≤ acc)%Z → Forall (λ c, Js.is_digit c = true) ds →
                 (0 ≤ fold_left (λ acc c, 10 * acc + Js.digit_val c) ds acc)%Z) as H.
  { induction ds as [|c ds IH]; intros acc Hacc Hds; simpl; [done|].
    apply Forall_cons in Hds as [Hc Hds]. apply IH; [|done].
    unfold Js.is_digit in Hc. unfold Js.digit_val.
    apply andb_prop in Hc as [Hc _]. apply N.leb_le in Hc. lia. }
  by apply H.
Qed.

Lemma take_while_Forall p s : Forall (λ c, p c = true) (Js.take_while p s).
Proof.
  induction s as [|c s IH]; simpl; [constructor|].
  destruct (p c) eqn:E; by constructor.
Qed.

Lemma parse_decimal_nonneg a b :
  Forall (λ c, Js.is_digit c = true) a → Forall (λ c, Js.is_digit c = true) b →
  (0 <= Output.parse_decimal a b)%Q.
Proof.
  intros Ha Hb. unfold Output.parse_decimal.
  apply digits_val_nonneg in Ha, Hb.
  replace 0%Q with (0 + 0)%Q by done. apply Qplus_le_compat.
  - unfold Qle. simpl. lia.
  - unfold Qle. simpl. lia.
Qed.

Lemma percent_here_nonneg s p : Output.percent_here s = Some p → (0 <= p)%Q.
Proof.
  unfold Output.percent_here. intros H.
  repeat case_match; simplify_eq;
    apply parse_decimal_nonneg;
    first [ apply take_while_Forall
          | by constructor
          | match goal with
            | H : Js.take_while Js.is_digit ?x = ?l |- Forall _ ?l =>
                rewrite <- H; apply take_while_Forall
            end ].
Qed.

Lemma match_percent_nonneg s p : Output.match_percent s = Some p → (0 <= p)%Q.
Proof.
  induction s as [|c s IH]; intros H.
  - by vm_compute in H.
  - change (Output.match_percent (c :: s))
      with (match Output.percent_here (c :: s) with
            | Some q => Some q
            | None => Output.match_percent s
            end) in H.
    destruct (Output.percent_here (c :: s)) eqn:E; [|by apply IH].
    simplify_eq. by eapply percent_here_nonneg.
Qed.

(** X18.  What a chunk of the video worker's output leaves in the
    progress field (for a download that is not cancelled).  The
    updates of one chunk are applied in the order of the code and the
    last one decides: 93 if the chunk names the subtitle converter,
    else 95 for the metadata, else 92 for the thumbnail, else 88 for
    the merger, else, if more than 500 ms have passed since the last
    percentage and the chunk holds one, 85 percent of it, capped at 85;
    otherwise the field is not changed.  The percentage read from a
    chunk is never negative, so that value lies between 0 and 85. *)
Theorem video_chunk_progress e id output l s :
  is_cancelled (activeProcesses s !! id) = false →
  progress_of (video_onData e id output l s).1 id
  = (if Js.includes (Js.lit "[SubtitlesConvertor]") output then Some 93%Q
     else if Js.includes (Js.lit "[Metadata]") output
             || Js.includes (Js.lit "Adding metadata") output then Some 95%Q
     else if Js.includes (Js.lit "[EmbedThumbnail]") output then Some 92%Q
     else if Js.includes (Js.lit "[Merger]") output
             || Js.includes (Js.lit "Merging formats") output then Some 88%Q
     else if (date_now e - lastProgressUpdate l >? 500)%Z then
       match Output.match_percent output with
       | Some percent => Some (Qmin (percent * (85 # 100)) 85)
       | None => progress_of s id
       end
     else progress_of s id)
  ∧ (∀ percent, Output.match_percent output = Some percent →
       (0 <= Qmin (percent * (85 # 100)) 85)%Q
       ∧ (Qmin (percent * (85 # 100)) 85 <= 85)%Q).
Proof.
  intros Hc. split.
  - unfold video_onData. rewrite Hc.
    destruct (date_now e - lastProgressUpdate l >? 500)%Z;
      [destruct (Output.match_percent output)|]; simpl;
      repeat (match goal with |- context [if ?c then _ else _] => destruct c end);
      simpl; first [done | by apply progress_update].
  - intros percent Hp. apply match_percent_nonneg in Hp. split.
    + apply Q.min_glb; [|done].
      by apply Qmult_le_0_compat.
    + apply Q.le_min_r.
Qed.

Lemma video_chunk_progress_witness :
  progress_of
    (video_onData (Sample.env_at 1000) "job1"
       (Js.lit "[Metadata] Adding metadata") locals0 initial).1 "job1"
  = Some 95%Q.
Proof.
  by destruct (video_chunk_progress (Sample.env_at 1000) "job1"
                 (Js.lit "[Metadata] Adding metadata") locals0 initial eq_refl)
    as [H _].
Defined.

(** X19.  A subscriber and the next update.  A client that subscribes
    to an identifier is at once sent the current record, or the
    'unknown' placeholder when there is none, and is registered; the
    next update of that identifier is written to it, and the client
    stays registered exactly if that write succeeds: otherwise its
    stream is ended and it is removed. *)
Theorem subscriber_receives_next_update e id res data s :
  let s1 := api_progress id res s in
  let s2 := updateProgress e id data s1 in
  effects s1
  = effects s ++
    [SseWrite res
       (default (obj [("status", VStr "unknown");
                      ("message", VMsg (MsgText "Download tidak ditemukan"))])
                (downloadProgress s !! id))]
  ∧ res ∈ default [] (sseClients s1 !! id)
  ∧ SseWrite res (newProgress e id (default ∅ (downloadProgress s !! id)) data)
    ∈ effects s2
  ∧ (client_write e res = Written → res ∈ default [] (sseClients s2 !! id))
  ∧ (client_write e res ≠ Written →
     SseEnd res ∈ effects s2 ∧ res ∉ default [] (sseClients s2 !! id)).
Proof.
  intros s1 s2.
  assert (effects s1 = effects s ++
    [SseWrite res
       (default (obj [("status", VStr "unknown");
                      ("message", VMsg (MsgText "Download tidak ditemukan"))])
                (downloadProgress s !! id))]) as He.
  { subst s1. unfold api_progress. simpl. by case_bool_decide. }
  assert (downloadProgress s1 = downloadProgress s) as Hd.
  { subst s1. unfold api_progress. simpl. by case_bool_decide. }
  assert (∃ cs, sseClients s1 !! id = Some cs ∧ res ∈ cs) as (cs & Hcs & Hin).
  { subst s1. unfold api_progress. simpl. case_bool_decide as Hm; simpl.
    - eexists. by rewrite lookup_insert_eq.
    - eexists. rewrite lookup_insert_eq. split; [done|].
      apply elem_of_app. right. constructor. }
  destruct (updateProgress_merges_and_broadcasts e id data s1)
    as (_ & _ & _ & Heff & Hcl & _).
  fold s2 in Heff, Hcl. rewrite Hcs, Hd in Heff. rewrite Hcs in Hcl. simpl in *.
  split; [done|]. split; [by rewrite Hcs|]. split_and!.
  - rewrite Heff. apply elem_of_app. right. apply elem_of_app. left.
    apply list_elem_of_fmap. eauto.
  - intros Hw. by apply Hcl.
  - intros Hw. split.
    + rewrite Heff. apply elem_of_app. right. apply elem_of_app. right.
      apply list_elem_of_fmap. exists res. split; [done|].
      unfold dead. apply list_elem_of_filter. split; [|done].
      unfold is_dead. by destruct (client_write e res).
    + intros Hr. apply Hcl in Hr as [_ ?]. done.
Qed.
End ChunkFacts.

(** ** The pre-count that lets the download pass, and the submission *)

Module Passing.
Import ProgressFacts Frames Scheduler SchedulerSteps Shape ShapeSteps Gate
  WorkConserving.

Arguments obj : simpl never.
Arguments updateProgress : simpl never.
Arguments broadcastQueuePositions : simpl never.
Arguments processDownload : simpl never.
Arguments processQueue : simpl never.
Arguments settle : simpl never.

(** X20.  The pre-count never blocks a playlist within the limit.  When
    the count process of a merge download exits with a code other than
    0, or with code 0 and at most MAX_PLAYLIST_MERGE entries, or cannot
    be run at all, the download proceeds: the session directory is
    created, the download worker is spawned with the options of the
    task and registered with that directory, and the record says
    'downloading_audio'. *)
Theorem precount_lets_download_pass evs s e id j out code :
  run evs initial = Some s →
  jobs s !! id = Some j → phase j = Counting out →
  code ≠ Some 0%Z ∨ length (count_lines out) ≤ CONFIG.MAX_PLAYLIST_MERGE →
  let s' := audio_begin e id (options j) s in
  step e (CountClose id code) s = Some s'
  ∧ step e (CountError id) s = Some s'
  ∧ status_of s' id = Some "downloading_audio"
  ∧ jobs s' !! id
    = Some {| options := options j; startTime := date_now e;
              phase := Downloading locals0 |}
  ∧ activeProcesses s' !! id = Some (new_process (Some (sessionTempDir id)) e)
  ∧ Mkdir (sessionTempDir id) ∈ effects s'
  ∧ SpawnDownload id (options j) ∈ effects s'.
Proof.
  intros Hrun Hj Hp Hcode s'.
  pose proof (reachable_Shaped evs s Hrun id j Hj) as Hsh.
  rewrite Hp in Hsh. destruct Hsh as [_ Hcf].
  assert (merge (options j) = true) as Hm.
  { unfold counts_first in Hcf. destruct (type (options j)); [done|].
    by apply andb_prop in Hcf as [? _]. }
  split_and!.
  - simpl. rewrite Hj, Hp. unfold count_onClose. f_equal.
    case_bool_decide as Hz; [|done].
    destruct Hcode as [?|Hlen]; [done|].
    apply Nat.ltb_ge in Hlen. by rewrite Hlen.
  - simpl. by rewrite Hj, Hp.
  - subst s'. unfold status_of.
    change (field (audio_begin e id (options j) s) id "status")
      with (field (updateProgress e id
                     (obj [("status", VStr "downloading_audio");
                           ("progress", VNum 0);
                           ("message", VMsg (MsgText "Mengunduh audio..."))])
                     (if merge (options j)
                      then emit [Mkdir (sessionTempDir id)] s else s)) id "status").
    by rewrite (updateProgress_field _ _ _ _ "status" (VStr "downloading_audio")).
  - subst s'. unfold audio_begin. simpl. apply lookup_insert_eq.
  - subst s'. unfold audio_begin. rewrite Hm. simpl. apply lookup_insert_eq.
  - subst s'. unfold audio_begin. rewrite Hm. simpl.
    rewrite updateProgress_effects. simpl.
    rewrite !elem_of_app. left. left. right. constructor.
  - subst s'. unfold audio_begin. simpl. apply elem_of_app. right. constructor.
Qed.

Lemma counting_observed :
  SampleMerge.observe_count (run SampleMerge.counting_51 initial) "job1"
  = Some (Some 51).
Proof. vm_compute. reflexivity. Qed.

Lemma precount_lets_download_pass_witness :
  ∃ s s', run SampleMerge.counting_51 initial = Some s
          ∧ step (Sample.env_at 3) (CountClose "job1" (Some 1%Z)) s = Some s'
          ∧ status_of s' "job1" = Some "downloading_audio".
Proof.
  pose proof counting_observed as H.
  destruct (run SampleMerge.counting_51 initial) as [s|] eqn:Hrun; [|done].
  simpl in H.
  destruct (jobs s !! "job1") as [j|] eqn:Hj; [|done].
  destruct (phase j) as [out| |] eqn:Hp; [|done..].
  destruct (precount_lets_download_pass _ s (Sample.env_at 3) "job1" j out
              (Some 1%Z) Hrun Hj Hp) as (Hs & _ & Hst & _).
  - by left.
  - by exists s, (audio_begin (Sample.env_at 3) "job1" (options j) s).
Defined.

Lemma processQueue_full e s :
  (CONFIG.MAX_CONCURRENT_DOWNLOADS ≤ activeDownloads s)%Z → processQueue e s = s.
Proof.
  intros Hle. unfold processQueue. destruct (downloadQueue s); simpl; [done|].
  destruct (_ <? _)%Z eqn:E; [|done]. apply Z.ltb_lt in E. lia.
Qed.

(** X21.  What happens to a submission in a state that the server
    reaches.  If a slot is free, nothing waits in the queue and the
    download is started at once, taking one slot.  If both slots are
    taken, nothing is started, the download is appended to the queue
    and its record says 'queued' with its position, the length of the
    queue counted from 1. *)
Theorem submission_starts_or_waits evs s e id o custom :
  run evs initial = Some s → id ∉ issued s →
  let s' := api_download e id o custom s in
  step e (Submit id o custom) s = Some s'
  ∧ ((activeDownloads s < 2)%Z →
     queue_ids s = []
     ∧ started_ids (effects s') = started_ids (effects s) ++ [id]
     ∧ queue_ids s' = []
     ∧ activeDownloads s' = (activeDownloads s + 1)%Z)
  ∧ (activeDownloads s = 2%Z →
     started_ids (effects s') = started_ids (effects s)
     ∧ queue_ids s' = queue_ids s ++ [id]
     ∧ status_of s' id = Some "queued"
     ∧ field s' id "queuePosition"
       = Some (VNum (inject_Z (Z.of_nat (length (queue_ids s) + 1))))).
Proof.
  intros Hrun Hfresh s'.
  pose proof (reachable_Inv evs s Hrun) as HI.
  pose proof (run_Busy evs initial s Hrun Inv_initial Busy_initial) as Hbusy.
  split; [simpl; by rewrite bool_decide_eq_false_2|].
  subst s'. unfold api_download, enqueueDownload.
  set (x := emit _ _).
  assert (downloadQueue x
          = downloadQueue s
            ++ [{| downloadId := id;
                   task := with_customFilename (sanitizedCustomName custom) o;
                   addedAt := date_now e |}]) as Hqx by (subst x; by frame).
  assert (activeDownloads x = activeDownloads s) as Hax by (subst x; by frame).
  assert (started_ids (effects x) = started_ids (effects s)) as Hsx.
  { subst x. frame. by rewrite app_nil_r. }
  split.
  - intros Hlt.
    assert (downloadQueue s = []) as Hq.
    { destruct (downloadQueue s) eqn:E; [done|]. unfold Busy in Hbusy.
      rewrite E in Hbusy. unfold CONFIG.MAX_CONCURRENT_DOWNLOADS in Hbusy.
      specialize (Hbusy ltac:(done)). lia. }
    pose proof (processQueue_loop_heads e (downloadQueue x) x eq_refl) as Hh.
    cbv zeta in Hh. fold (processQueue e x) in Hh.
    set (s' := processQueue e x) in *. rewrite Hax in Hh.
    remember (Z.to_nat (CONFIG.MAX_CONCURRENT_DOWNLOADS - activeDownloads s))
      as free eqn:Hfree.
    assert (1 ≤ free) as H1
      by (subst free; unfold CONFIG.MAX_CONCURRENT_DOWNLOADS; lia).
    rewrite Hqx, Hq, Hsx in Hh. destruct free as [|n]; [lia|].
    simpl in Hh. rewrite take_nil, drop_nil in Hh.
    destruct Hh as (E1 & E2 & E3 & _).
    unfold queue_ids. rewrite Hq, E1, E2, E3. simpl.
    split_and!; [done..|lia].
  - intros Hfull.
    rewrite (processQueue_full e x)
      by (rewrite Hax, Hfull; unfold CONFIG.MAX_CONCURRENT_DOWNLOADS; lia).
    split; [done|]. split.
    { unfold queue_ids. by rewrite Hqx, fmap_app. }
    assert (∀ f, field x id f = field (updateProgress e id
              (obj [("status", VStr "queued"); ("progress", VNum 0);
                    ("message", VMsg (MsgQueuePosition (length (downloadQueue x))));
                    ("queuePosition",
                      VNum (inject_Z (Z.of_nat (length (downloadQueue x)))));
                    ("canCancel", VBool true)])
              (set_downloadQueue
                 (λ q, q ++ [{| downloadId := id;
                                task := with_customFilename (sanitizedCustomName custom) o;
                                addedAt := date_now e |}])
                 (updateProgress e id
                    (obj [("status", VStr "queued"); ("progress", VNum 0);
                          ("message", VMsg (MsgText "Menunggu antrian..."));
                          ("type", VType (type o)); ("format", VText (format o));
                          ("files", VFiles []); ("canCancel", VBool true);
                          ("startedAt", VNum (inject_Z (date_now e)))])
                    (set_issued (λ l, l ++ [id]) s)))) id f) as Hf.
    { intros f. subst x. unfold field. simpl. by frame. }
    unfold status_of. rewrite !Hf. split.
    + by rewrite (updateProgress_field _ _ _ _ "status" (VStr "queued")).
    + erewrite (updateProgress_field _ _ _ _ "queuePosition"); [|done..].
      unfold queue_ids. by rewrite Hqx, length_app, length_map.
Qed.

Lemma submission_starts_or_waits_witness :
  step (Sample.env_at 1) (Submit "job1" Sample.video_job Sanitize.Missing) initial
  = Some (api_download (Sample.env_at 1) "job1" Sample.video_job
            Sanitize.Missing initial).
Proof.
  assert (run [] initial = Some initial) as Hrun by reflexivity.
  assert ("job1" ∉ issued initial) as Hfresh by apply not_elem_of_nil.
  by destruct (submission_starts_or_waits [] initial (Sample.env_at 1) "job1"
                 Sample.video_job Sanitize.Missing Hrun Hfresh) as [H _].
Defined.
End Passing.

(** ** The files that getRecentFiles returns *)

Module RecentMore.
Import RecentFacts.

(** X22.  getRecentFiles returns the [limit] most recent candidates,
    newest first.  The candidates are the entries of the directory
    that could be examined and whose name ends, letter case aside,
    with the extension.  The answer holds [limit] of them, or all when
    there are fewer; it is ordered by modification time, newest first;
    and the candidates left out, which together with the answer make
    up all candidates, are none of them newer than a file returned. *)
Theorem getRecentFiles_guarantees dir extension limit :
  let l := getRecentFiles dir extension limit in
  length l = limit `min` length (candidates dir extension)
  ∧ StronglySorted newer_first l
  ∧ (∀ fd, fd ∈ l →
       ∃ d, d ∈ dir ∧ stat_entry d = Some fd
            ∧ Js.endsWith (Js.toLowerCase extension)
                          (Js.toLowerCase (de_name d)) = true)
  ∧ ∃ rest, l ++ rest ≡ₚ candidates dir extension
            ∧ ∀ x y, x ∈ l → y ∈ rest → newer_first x y.
Proof.
  intros l. split_and!.
  - subst l. unfold getRecentFiles. fold (candidates dir extension).
    by rewrite length_take, sort_recent_perm.
  - apply getRecentFiles_sorted.
  - intros fd Hfd. apply candidates_spec. by eapply getRecentFiles_from_dir.
  - exists (drop limit (sort_recent (candidates dir extension))). split.
    + subst l. unfold getRecentFiles. fold (candidates dir extension).
      by rewrite take_drop, sort_recent_perm.
    + intros x y Hx Hy. subst l. unfold getRecentFiles in Hx.
      fold (candidates dir extension) in Hx.
      pose proof (sort_recent_sorted (candidates dir extension)) as Hs.
      rewrite <- (take_drop limit) in Hs.
      by eapply StronglySorted_app_1_elem_of.
Qed.
End RecentMore.

(** ** What a chunk of the audio worker stores *)

Module AudioChunk.
Import ProgressFacts Frames ChunkFacts.

Arguments obj : simpl never.
Arguments updateProgress : simpl never.

(** X23.  What a chunk of the audio worker's output leaves behind, for
    a download that is not cancelled.  The item counters are taken
    from the chunk when it holds an item line, throttled or not, and
    kept otherwise.  The progress is 93 if the chunk names the
    metadata step, else 90 for the thumbnail, else 85 for the
    extraction, else, if more than 500 ms have passed since the last
    percentage and the chunk holds one, the value computed from it
    with the counters just read; otherwise the field is unchanged. *)
Theorem audio_chunk_progress e id fmt output l s :
  is_cancelled (activeProcesses s !! id) = false →
  let r := audio_onData e id fmt output l s in
  (currentVideo r.2, totalVideos r.2) = counters output l
  ∧ progress_of r.1 id
    = (if Js.includes (Js.lit "[Metadata]") output then Some 93%Q
       else if Js.includes (Js.lit "[EmbedThumbnail]") output then Some 90%Q
       else if Js.includes (Js.lit "[ExtractAudio]") output then Some 85%Q
       else if (date_now e - lastProgressUpdate l >? 500)%Z then
         match Output.match_percent output with
         | Some percent =>
             Some (audio_percent
                     {| lastProgressUpdate := lastProgressUpdate l;
                        totalVideos := (counters output l).2;
                        currentVideo := (counters output l).1 |} percent)
         | None => progress_of s id
         end
       else progress_of s id).
Proof.
  intros Hc r. subst r. unfold audio_onData, counters. rewrite Hc.
  destruct (Output.match_item output) as [[cur tot]|]; simpl;
    (destruct (date_now e - lastProgressUpdate l >? 500)%Z;
     [destruct (Output.match_percent output)|]; simpl;
     repeat (match goal with |- context [if ?c then _ else _] => destruct c end);
     simpl; split; first [done | by apply progress_update | by destruct l]).
Qed.

Lemma audio_chunk_progress_witness :
  progress_of
    (audio_onData (Sample.env_at 1000) "job1" (Js.lit "mp3")
       (Js.lit "[ExtractAudio] Destination: a.mp3") locals0 initial).1 "job1"
  = Some 85%Q.
Proof.
  by destruct (audio_chunk_progress (Sample.env_at 1000) "job1" (Js.lit "mp3")
                 (Js.lit "[ExtractAudio] Destination: a.mp3") locals0 initial
                 eq_refl) as [_ H].
Defined.

(** X24.  The progress of item [cur] of a playlist of [tot] > 1 items.
    With the percentage of the item between 0 and 100 the value is
    80 * (cur - 1 + percent / 100) / tot: it lies in the band from
    80 * (cur - 1) / tot to 80 * cur / tot, so the bands of successive
    items follow one another and the last ends at 80. *)
Theorem audio_item_band l percent :
  (1 < totalVideos l)%Z → (1 ≤ currentVideo l ≤ totalVideos l)%Z →
  (0 <= percent)%Q → (percent <= 100)%Q →
  (audio_percent l percent
   == 80 * (inject_Z (currentVideo l - 1) + percent / 100)
      / inject_Z (totalVideos l))%Q
  ∧ (80 * inject_Z (currentVideo l - 1) / inject_Z (totalVideos l)
     <= audio_percent l percent)%Q
  ∧ (audio_percent l percent
     <= 80 * inject_Z (currentVideo l) / inject_Z (totalVideos l))%Q
  ∧ (audio_percent l percent <= 80)%Q.
Proof.
  intros Ht [Hc1 Hc2] Hp0 Hp1. unfold audio_percent.
  assert (totalVideos l >? 1 = true)%Z as -> by by apply Z.gtb_lt.
  cbv zeta.
  set (t := inject_Z (totalVideos l)).
  set (a := inject_Z (currentVideo l - 1)).
  assert (0 < t)%Q as Ht0.
  { subst t. rewrite <- (Zlt_Qlt 0). lia. }
  assert (0 <= a)%Q as Ha0.
  { subst a. rewrite <- (Zle_Qle 0). lia. }
  assert (a + 1 <= t)%Q as Hat.
  { subst a t. change 1%Q with (inject_Z 1). rewrite <- inject_Z_plus.
    rewrite <- Zle_Qle. lia. }
  assert (inject_Z (currentVideo l) == a + 1)%Q as Hcur.
  { subst a. change 1%Q with (inject_Z 1). rewrite <- inject_Z_plus.
    by replace (currentVideo l - 1 + 1)%Z with (currentVideo l) by lia. }
  assert ((a / t * 100 + percent / 100 * (100 / t)) * (80 # 100)
          == 80 * (a + percent / 100) / t)%Q as Hv.
  { field. lra. }
  assert (percent / 100 == percent * (1 # 100))%Q as Hq by field.
  assert (80 * (a + percent / 100) / t <= 80)%Q as Hle.
  { apply Qle_shift_div_r; [done|]. rewrite Hq. lra. }
  assert (Qmin ((a / t * 100 + percent / 100 * (100 / t)) * (80 # 100)) 80
          == 80 * (a + percent / 100) / t)%Q as Hmin.
  { rewrite Hv. apply Q.min_l. exact Hle. }
  rewrite Hmin, Hcur. split_and!.
  - reflexivity.
  - apply Qle_shift_div_l; [done|].
    assert (80 * a / t * t == 80 * a)%Q as -> by (field; lra).
    rewrite Hq. lra.
  - apply Qle_shift_div_r; [done|].
    assert (80 * (a + 1) / t * t == 80 * (a + 1))%Q as -> by (field; lra).
    rewrite Hq. lra.
  - exact Hle.
Qed.

Lemma audio_item_band_witness :
  (audio_percent {| lastProgressUpdate := 0; totalVideos := 4; currentVideo := 2 |}
     50 <= 80)%Q.
Proof.
  refine (proj2 (proj2 (proj2 (audio_item_band
    {| lastProgressUpdate := 0; totalVideos := 4; currentVideo := 2 |} 50
    _ _ _ _)))); simpl; try lia; by vm_compute.
Defined.
End AudioChunk.

(** ** The text of a duration *)

Module DurationFacts.
Import Duration.










End DurationFacts.
